(** * The workflow engine of idkit-js (AiCode KIT flow builder)

    A shallow embedding of
    - [workflow-builder.ts]  (WorkflowBuilder and the Workflow it builds),
    - [flow-executor.ts]     (FlowExecutor, sequential and parallel mode),
    - [flow-validators.ts]   (FlowValidator),
    - [action-nodes.ts]      (the action nodes and their factory),
    and the properties of these units.

    Conventions of the embedding.
    - A JS [Map<string, V>] is a [gmap string V]; a JS [Set<string>] that is
      only tested for membership is a [gset string]; a [Set] or [Map] that
      is iterated is an insertion-ordered list.
    - [Date.now()] is a stream [now : nat -> Z]: the n-th call made during a
      run returns [now n]; every function that reads the clock threads the
      number of reads made so far.
    - A JS string is carried by its UTF-8 encoding: a [string] of bytes.
    - A thrown [Error] is carried by its message.
    - [console.log] is dropped: the [verbose] option has no other effect. *)

From stdpp Require Import base decidable option list strings gmap pretty
  relations.

Local Open Scope string_scope.
Local Open Scope list_scope.
Local Open Scope Z_scope.

(** ** Data model (workflow-builder.ts, lines 8-56) *)

(** [Record<string, any>]: opaque to the engine. *)
Definition Config := list (string * string).

(** Step payloads are object literals with one boolean member. *)
Definition Payload := list (string * bool).

Record Error := mkError { message : string }.

Record WorkflowStep := mkStep {
  ws_id : string;
  ws_type : string;
  ws_name : string;
  (** [None] stands for a falsy [config] (null or undefined at run time). *)
  ws_config : option Config;
  ws_dependencies : list string
}.

Record Workflow := mkWorkflow {
  wf_id : string;
  wf_name : string;
  wf_description : option string;
  wf_steps : list WorkflowStep
}.

Record StepResult := mkStepResult {
  stepId : string;
  success : bool;
  output : option Payload;
  duration : Z;
  error : option Error
}.

Record WorkflowResult := mkWorkflowResult {
  wr_success : bool;
  stepResults : gmap string StepResult;
  wr_duration : Z;
  errors : list Error
}.

Global Instance Error_eq_dec : EqDecision Error.
Proof. solve_decision. Defined.

(** The ids of a list of steps, in declaration order. *)
Definition stepIds (steps : list WorkflowStep) : list string :=
  ws_id <$> steps.

(** [steps.find(s => s.id === stepId)]: the first step with that id. *)
Definition findStep (steps : list WorkflowStep) (stepId : string)
  : option WorkflowStep :=
  List.find (fun s => bool_decide (ws_id s = stepId)) steps.

(** ** WorkflowBuilder (workflow-builder.ts, lines 58-262) *)

Module WorkflowBuilder.

Record t := mk {
  steps : list WorkflowStep;
  workflowId : string;
  workflowName : string;
  workflowDescription : option string
}.

(** [constructor(name = 'Unnamed Workflow')]; [stamp] is the value of
    [Date.now()] read by the constructor. *)
Definition new (name : option string) (stamp : Z) : t :=
  {| steps := [];
     workflowId := "workflow_" +:+ pretty stamp;
     workflowName := default "Unnamed Workflow" name;
     workflowDescription := None |}.

Definition withDescription (description : string) (b : t) : t :=
  {| steps := steps b; workflowId := workflowId b;
     workflowName := workflowName b;
     workflowDescription := Some description |}.

(** [`step_${this.steps.length + 1}`] *)
Definition nextStepId (b : t) : string :=
  "step_" +:+ pretty (length (steps b) + 1)%nat.

(** [this.steps.push(step)] *)
Definition push (step : WorkflowStep) (b : t) : t :=
  {| steps := steps b ++ [step]; workflowId := workflowId b;
     workflowName := workflowName b;
     workflowDescription := workflowDescription b |}.

(** [this.steps.length > 0 ? this.steps[this.steps.length - 1].id : ''] *)
Definition prevStepId (b : t) : string :=
  match last (steps b) with
  | Some s => ws_id s
  | None => ""
  end.

(** [prevStepId ? [prevStepId] : []]: the empty string is falsy. *)
Definition chainTo (prev : string) : list string :=
  if bool_decide (prev = "") then [] else [prev].

Definition addAnalysisStep (config : Config) (b : t) : t :=
  push {| ws_id := nextStepId b; ws_type := "analysis";
          ws_name := "Code Analysis"; ws_config := Some config;
          ws_dependencies := [] |} b.

Definition addAutoFixStep (config : Config) (b : t) : t :=
  let prev := prevStepId b in
  push {| ws_id := nextStepId b; ws_type := "fix";
          ws_name := "Auto Fix"; ws_config := Some config;
          ws_dependencies := chainTo prev |} b.

Definition addTestStep (config : Config) (b : t) : t :=
  let prev := prevStepId b in
  push {| ws_id := nextStepId b; ws_type := "test";
          ws_name := "Run Tests"; ws_config := Some config;
          ws_dependencies := chainTo prev |} b.

Definition addDeployStep (config : Config) (b : t) : t :=
  let prev := prevStepId b in
  push {| ws_id := nextStepId b; ws_type := "deploy";
          ws_name := "Deploy"; ws_config := Some config;
          ws_dependencies := chainTo prev |} b.

Definition addCustomStep (name : string) (config : Config)
    (dependencies : list string) (b : t) : t :=
  push {| ws_id := nextStepId b; ws_type := "custom";
          ws_name := name; ws_config := Some config;
          ws_dependencies := dependencies |} b.

(** [build()]: the step array is copied, the other fields are read. The
    [execute] method of the returned object is [Built.execute] below,
    applied to the copied steps. *)
Definition build (b : t) : Workflow :=
  {| wf_id := workflowId b; wf_name := workflowName b;
     wf_description := workflowDescription b; wf_steps := steps b |}.

(** A fluent chain of builder calls. *)
Inductive call :=
| WithDescription (description : string)
| AddAnalysisStep (config : Config)
| AddAutoFixStep (config : Config)
| AddTestStep (config : Config)
| AddDeployStep (config : Config)
| AddCustomStep (name : string) (config : Config)
                (dependencies : list string).

Definition apply (c : call) (b : t) : t :=
  match c with
  | WithDescription d => withDescription d b
  | AddAnalysisStep cfg => addAnalysisStep cfg b
  | AddAutoFixStep cfg => addAutoFixStep cfg b
  | AddTestStep cfg => addTestStep cfg b
  | AddDeployStep cfg => addDeployStep cfg b
  | AddCustomStep n cfg deps => addCustomStep n cfg deps b
  end.

(** The calls are applied left to right. *)
Definition chain (cs : list call) (b : t) : t :=
  fold_left (fun acc c => apply c acc) cs b.

(** The four built-in step-adding calls. *)
Inductive builtin := Analysis | Fix | Test | Deploy.

Definition addBuiltin (k : builtin) (config : Config) (b : t) : t :=
  match k with
  | Analysis => addAnalysisStep config b
  | Fix => addAutoFixStep config b
  | Test => addTestStep config b
  | Deploy => addDeployStep config b
  end.

(** A builder state is reachable when a chain of calls leads to it from
    a freshly constructed builder. *)
Definition reachable (b : t) : Prop :=
  exists name stamp cs, b = chain cs (new name stamp).

End WorkflowBuilder.

(** ** Depth-first search state shared by both cycle checks

    [visited] and [recursionStack] are the two [Set<string>] objects that
    the closures [hasCycle] (builder) and [dfs] (validator) mutate. *)

Record Marks := mkMarks {
  visited : gset string;
  recursionStack : gset string
}.

Definition noMarks : Marks := {| visited := ∅; recursionStack := ∅ |}.

(** [visited.add(id); recursionStack.add(id)] *)
Definition enter (nodeId : string) (m : Marks) : Marks :=
  {| visited := {[nodeId]} ∪ visited m;
     recursionStack := {[nodeId]} ∪ recursionStack m |}.

(** [recursionStack.delete(id)] *)
Definition leave (nodeId : string) (m : Marks) : Marks :=
  {| visited := visited m; recursionStack := recursionStack m ∖ {[nodeId]} |}.

(** Both searches recurse on nodes not yet visited; the recursion is not
    structural, so it is driven by a fuel that bounds the recursion depth.
    [None] means the fuel ran out. [dfsFuel] is the fuel the entry points
    use; it is shown below to be always enough. *)
Definition allDependencies (steps : list WorkflowStep) : list string :=
  flat_map ws_dependencies steps.

Definition dfsFuel (steps : list WorkflowStep) : nat :=
  S (length (stepIds steps ++ allDependencies steps)).

Module BuilderValidate.
Import WorkflowBuilder.

(** The [for (const depId of step.dependencies)] loop of [hasCycle], with
    [rec] the recursive call. *)
Fixpoint depLoop (rec : string -> Marks -> option (bool * Marks))
    (stepId : string) (deps : list string) (m : Marks)
  : option (bool * Marks) :=
  match deps with
  | [] => Some (false, leave stepId m)
  | depId :: rest =>
      if negb (bool_decide (depId ∈ visited m)) then
        match rec depId m with
        | None => None
        | Some (true, m') => Some (true, m')
        | Some (false, m') => depLoop rec stepId rest m'
        end
      else if bool_decide (depId ∈ recursionStack m) then Some (true, m)
      else depLoop rec stepId rest m
  end.

Fixpoint hasCycle (fuel : nat) (steps : list WorkflowStep)
    (stepId : string) (m : Marks) : option (bool * Marks) :=
  match fuel with
  | O => None
  | S fuel' =>
      let m1 := enter stepId m in
      match findStep steps stepId with
      | Some step =>
          depLoop (hasCycle fuel' steps) stepId (ws_dependencies step) m1
      | None => Some (false, leave stepId m1)
      end
  end.

(** The [for (const step of this.steps)] loop: [true] when some start
    node reports a cycle (the loop breaks there). *)
Fixpoint scan (fuel : nat) (steps todo : list WorkflowStep) (m : Marks)
  : option bool :=
  match todo with
  | [] => Some false
  | step :: rest =>
      if negb (bool_decide (ws_id step ∈ visited m)) then
        match hasCycle fuel steps (ws_id step) m with
        | None => None
        | Some (true, _) => Some true
        | Some (false, m') => scan fuel steps rest m'
        end
      else scan fuel steps rest m
  end.

Record report := mkReport { valid : bool; errors : list string }.

(** [validate()], lines 218-261. *)
Definition validate (b : t) : option report :=
  let errors1 :=
    if bool_decide (length (steps b) = 0%nat)
    then ["Workflow must have at least one step"] else [] in
  match scan (dfsFuel (steps b)) (steps b) (steps b) noMarks with
  | None => None
  | Some cyclic =>
      let errors2 :=
        if cyclic then errors1 ++ ["Workflow contains circular dependencies"]
        else errors1 in
      Some {| valid := bool_decide (length errors2 = 0%nat);
              errors := errors2 |}
  end.

End BuilderValidate.

(** ** The [execute] method of a built workflow
       (workflow-builder.ts, lines 164-211 and 267-271) *)

Module Built.

(** The placeholder [executeStep]: logs and returns [{ success: true }];
    it never throws. *)
Definition executeStep (step : WorkflowStep) : Payload :=
  [("success", true)].

(** The dependency loop inside the [try]: the first dependency whose
    result is missing or failed, for which the loop throws. *)
Fixpoint firstUnmet (deps : list string)
    (results : gmap string StepResult) : option string :=
  match deps with
  | [] => None
  | depId :: rest =>
      match results !! depId with
      | Some depResult =>
          if success depResult then firstUnmet rest results
          else Some depId
      | None => Some depId
      end
  end.

Record Run := mkRun {
  ticks : nat;                         (* clock reads made so far *)
  results : gmap string StepResult;    (* [stepResults] *)
  failures : list Error                (* [errors] *)
}.

Section WithClock.
Variable now : nat -> Z.

(** One iteration of [for (const step of steps)]. Each iteration reads
    the clock twice: [stepStartTime] and the [duration] member. *)
Definition runStep (r : Run) (step : WorkflowStep) : Run :=
  let stepStartTime := now (ticks r) in
  let elapsed := now (S (ticks r)) - stepStartTime in
  match firstUnmet (ws_dependencies step) (results r) with
  | None =>
      let out := executeStep step in
      {| ticks := S (S (ticks r));
         results :=
           <[ws_id step :=
               {| stepId := ws_id step; success := true;
                  output := Some out; duration := elapsed;
                  error := None |}]> (results r);
         failures := failures r |}
  | Some depId =>
      let err :=
        mkError ("Dependency " +:+ depId +:+ " failed or not completed") in
      {| ticks := S (S (ticks r));
         results :=
           <[ws_id step :=
               {| stepId := ws_id step; success := false;
                  output := None; duration := elapsed;
                  error := Some err |}]> (results r);
         failures := failures r ++ [err] |}
  end.

Definition runSteps (steps : list WorkflowStep) (r : Run) : Run :=
  fold_left runStep steps r.

(** [execute()]: [startTime] is clock read 0, the final [duration] is
    the last read. *)
Definition execute (w : Workflow) : WorkflowResult :=
  let startTime := now 0 in
  let r := runSteps (wf_steps w)
             {| ticks := 1; results := ∅; failures := [] |} in
  {| wr_success := bool_decide (length (failures r) = 0%nat);
     stepResults := results r;
     wr_duration := now (ticks r) - startTime;
     errors := failures r |}.
End WithClock.

End Built.

(** ** Action nodes (action-nodes.ts) *)

Module ActionNodes.

(** The [type] member of [ActionInput] and [ActionOutput]. *)
Inductive ValueType := TString | TNumber | TBoolean | TObject | TArray.

(** The values the nodes declare and return: strings, numbers, booleans
    and arrays. *)
Local Unset Elimination Schemes.
Inductive Value :=
| VString (s : string)
| VNumber (n : Z)
| VBoolean (b : bool)
| VArray (items : list Value).
Local Set Elimination Schemes.

Definition typeOf (v : Value) : ValueType :=
  match v with
  | VString _ => TString
  | VNumber _ => TNumber
  | VBoolean _ => TBoolean
  | VArray _ => TArray
  end.

Record ActionInput := mkInput {
  in_name : string;
  in_type : ValueType;
  in_required : bool;
  in_default : option Value;
  in_description : option string
}.

Record ActionOutput := mkOutput {
  out_name : string;
  out_type : ValueType;
  out_description : option string
}.

(** [Record<string, any>]: the members in insertion order. *)
Definition Object := list (string * Value).

(** [ActionNode]; [an_execute] is the value the promise returned by
    [execute] resolves to. *)
Record ActionNode := mkNode {
  an_id : string;
  an_type : string;
  an_label : string;
  an_inputs : list ActionInput;
  an_outputs : list ActionOutput;
  an_execute : Object -> Object
}.

(** [new () => ActionNode]: a class, constructed at the clock value
    [stamp] that its constructor reads with [Date.now()]. *)
Definition NodeClass := Z -> ActionNode.

(** [class AnalysisActionNode], lines 47-97. *)
Definition AnalysisActionNode : NodeClass := fun stamp =>
  {| an_id := "analysis_" +:+ pretty stamp;
     an_type := "analysis";
     an_label := "Code Analysis";
     an_inputs :=
       [mkInput "target" TString true None
          (Some "File or directory to analyze");
        mkInput "depth" TNumber false (Some (VNumber 10))
          (Some "Maximum analysis depth")];
     an_outputs :=
       [mkOutput "issues" TArray (Some "Detected issues");
        mkOutput "score" TNumber (Some "Health score")];
     an_execute := fun _ =>
       [("issues", VArray []); ("score", VNumber 100)] |}.

(** [class AutoFixActionNode], lines 102-152. *)
Definition AutoFixActionNode : NodeClass := fun stamp =>
  {| an_id := "autofix_" +:+ pretty stamp;
     an_type := "autofix";
     an_label := "Auto Fix";
     an_inputs :=
       [mkInput "issues" TArray true None (Some "Issues to fix");
        mkInput "dryRun" TBoolean false (Some (VBoolean false))
          (Some "Perform dry run without making changes")];
     an_outputs :=
       [mkOutput "fixed" TNumber (Some "Number of issues fixed");
        mkOutput "changes" TArray (Some "List of changes made")];
     an_execute := fun _ =>
       [("fixed", VNumber 0); ("changes", VArray [])] |}.

(** [class TestActionNode], lines 157-214. *)
Definition TestActionNode : NodeClass := fun stamp =>
  {| an_id := "test_" +:+ pretty stamp;
     an_type := "test";
     an_label := "Run Tests";
     an_inputs :=
       [mkInput "testPattern" TString false (Some (VString "**/*.test.ts"))
          (Some "Test file pattern");
        mkInput "coverage" TBoolean false (Some (VBoolean false))
          (Some "Collect coverage information")];
     an_outputs :=
       [mkOutput "passed" TNumber (Some "Number of tests passed");
        mkOutput "failed" TNumber (Some "Number of tests failed");
        mkOutput "coverage" TNumber (Some "Code coverage percentage")];
     an_execute := fun _ =>
       [("passed", VNumber 0); ("failed", VNumber 0);
        ("coverage", VNumber 0)] |}.

(** [class DeployActionNode], lines 219-268. *)
Definition DeployActionNode : NodeClass := fun stamp =>
  {| an_id := "deploy_" +:+ pretty stamp;
     an_type := "deploy";
     an_label := "Deploy";
     an_inputs :=
       [mkInput "environment" TString true None
          (Some "Deployment environment");
        mkInput "buildDir" TString false (Some (VString "./build"))
          (Some "Build directory to deploy")];
     an_outputs :=
       [mkOutput "url" TString (Some "Deployment URL");
        mkOutput "deploymentId" TString (Some "Deployment identifier")];
     an_execute := fun _ =>
       [("url", VString ""); ("deploymentId", VString "")] |}.

End ActionNodes.

(** [class ActionNodeFactory], lines 274-315. [nodeTypes] is a [Map]
    whose keys are listed by [getTypes], so it is kept in insertion
    order. *)
Module ActionNodeFactory.
Import ActionNodes.

Definition t := list (string * NodeClass).

(** [nodeTypes.set(type, nodeClass)]: a present key keeps its place and
    gets the new value, a new key goes to the end. *)
Fixpoint mapSet (type : string) (nodeClass : NodeClass) (m : t) : t :=
  match m with
  | [] => [(type, nodeClass)]
  | (k, v) :: rest =>
      if bool_decide (k = type) then (k, nodeClass) :: rest
      else (k, v) :: mapSet type nodeClass rest
  end.

(** [nodeTypes.get(type)] *)
Definition mapGet (type : string) (m : t) : option NodeClass :=
  snd <$> List.find (fun kv => bool_decide (kv.1 = type)) m.

Definition registerDefaultNodes (m : t) : t :=
  mapSet "deploy" DeployActionNode
    (mapSet "test" TestActionNode
       (mapSet "autofix" AutoFixActionNode
          (mapSet "analysis" AnalysisActionNode m))).

(** [constructor()] *)
Definition new : t := registerDefaultNodes [].

Definition register (type : string) (nodeClass : NodeClass) (f : t) : t :=
  mapSet type nodeClass f.

(** [create(type)]: [None] is [null]; [stamp] is the clock value the
    node's constructor reads. *)
Definition create (type : string) (stamp : Z) (f : t)
  : option ActionNode :=
  match mapGet type f with
  | None => None
  | Some nodeClass => Some (nodeClass stamp)
  end.

Definition getTypes (f : t) : list string := map fst f.

(** A factory is reachable when [register] calls lead to it from a
    freshly constructed one. *)
Definition reachable (f : t) : Prop :=
  ∃ calls : list (string * NodeClass),
    f = fold_left (fun acc c => register c.1 c.2 acc) calls new.

End ActionNodeFactory.

(** ** FlowValidator (flow-validators.ts) *)

Module FlowValidator.

(** [ValidationError] and [ValidationWarning]; the constant [severity]
    member is the record type itself. *)
Record ValidationError := mkVError {
  ve_message : string;
  ve_code : string;
  ve_stepId : option string
}.

Record ValidationWarning := mkVWarning {
  vw_message : string;
  vw_code : string;
  vw_stepId : option string
}.

Record ValidationResult := mkVResult {
  valid : bool;
  errors : list ValidationError;
  warnings : list ValidationWarning
}.

(** The code points that [String.prototype.trim] strips: the WhiteSpace
    and LineTerminator productions of ECMAScript, that is TAB, LF, VT,
    FF, CR, SP, U+00A0, U+1680, U+2000 to U+200A, U+2028, U+2029,
    U+202F, U+205F, U+3000 and U+FEFF. A code point is given by the
    bytes of its UTF-8 encoding. *)
Definition isWhiteSpace (codePoint : list Ascii.ascii) : bool :=
  match map Ascii.nat_of_ascii codePoint with
  | [b] => (9 <=? b) && (b <=? 13) || (b =? 32)
  | [b1; b2] => (b1 =? 194) && (b2 =? 160)
  | [b1; b2; b3] =>
      (b1 =? 225) && (b2 =? 154) && (b3 =? 128)
      || (b1 =? 226) && (b2 =? 128)
         && ((128 <=? b3) && (b3 <=? 138)
             || (b3 =? 168) || (b3 =? 169) || (b3 =? 175))
      || (b1 =? 226) && (b2 =? 129) && (b3 =? 159)
      || (b1 =? 227) && (b2 =? 128) && (b3 =? 128)
      || (b1 =? 239) && (b2 =? 187) && (b3 =? 191)
  | _ => false
  end%nat.

(** Takes the leading code points accepted by [ws] off a string; the
    code points [ws] is asked about take one to three bytes. *)
Fixpoint stripLeading (ws : list Ascii.ascii -> bool) (s : string)
  : string :=
  match s with
  | EmptyString => EmptyString
  | String c1 r1 =>
      if ws [c1] then stripLeading ws r1
      else
        match r1 with
        | EmptyString => s
        | String c2 r2 =>
            if ws [c1; c2] then stripLeading ws r2
            else
              match r2 with
              | EmptyString => s
              | String c3 r3 =>
                  if ws [c1; c2; c3] then stripLeading ws r3 else s
              end
        end
  end.

Definition trimStart (s : string) : string := stripLeading isWhiteSpace s.

(** [s.trim()]. The trailing white space is taken off the reversed
    string, where the bytes of a code point come last byte first. *)
Definition trim (s : string) : string :=
  String.rev
    (stripLeading (fun codePoint => isWhiteSpace (rev codePoint))
       (String.rev (trimStart s))).

(** [!name || name.trim().length === 0] *)
Definition blank (name : string) : bool :=
  bool_decide (name = "") || (String.length (trim name) =? 0)%nat.

(** [validateStep], lines 663-725. *)
Definition validateStep (step : WorkflowStep)
    (allSteps : list WorkflowStep) : ValidationResult :=
  let e1 :=
    if bool_decide (ws_id step = "")
    then [mkVError "Step must have an ID" "MISSING_STEP_ID"
            (Some (ws_id step))]
    else [] in
  let e2 :=
    if blank (ws_name step)
    then [mkVError "Step must have a name" "MISSING_STEP_NAME"
            (Some (ws_id step))]
    else [] in
  let e3 :=
    if bool_decide (ws_type step = "")
    then [mkVError "Step must have a type" "MISSING_STEP_TYPE"
            (Some (ws_id step))]
    else [] in
  let e4 :=
    flat_map
      (fun depId =>
         let depExists :=
           existsb (fun s => bool_decide (ws_id s = depId)) allSteps in
         if negb depExists
         then [mkVError ("Step depends on non-existent step: " +:+ depId)
                 "INVALID_DEPENDENCY" (Some (ws_id step))]
         else [])
      (ws_dependencies step) in
  let w :=
    match ws_config step with
    | None => [mkVWarning "Step has no configuration" "NO_CONFIG"
                 (Some (ws_id step))]
    | Some _ => []
    end in
  let errs := e1 ++ e2 ++ e3 ++ e4 in
  {| valid := bool_decide (length errs = 0%nat);
     errors := errs; warnings := w |}.

(** The search state of [detectCircularDependencies]: the two sets, the
    [path] array the recursive calls share, and the [cycles] array. *)
Record Search := mkSearch {
  marks : Marks;
  path : list string;
  cycles : list string
}.

(** [graph.set(step.id, step.dependencies)] for each step in turn: a
    later step with the same id replaces the earlier entry. *)
Definition buildGraph (steps : list WorkflowStep)
  : gmap string (list string) :=
  fold_left (fun g step => <[ws_id step := ws_dependencies step]> g)
            steps ∅.

(** [path.indexOf(x)]: -1 when absent. *)
Fixpoint indexOfFrom (i : Z) (l : list string) (x : string) : Z :=
  match l with
  | [] => -1
  | y :: rest => if bool_decide (y = x) then i else indexOfFrom (i + 1) rest x
  end.

Definition indexOf (l : list string) (x : string) : Z := indexOfFrom 0 l x.

(** [path.slice(start)]: a negative [start] counts from the end. *)
Definition slice (l : list string) (start : Z) : list string :=
  let len := Z.of_nat (length l) in
  let k := if start <? 0 then Z.max (len + start) 0 else Z.min start len in
  drop (Z.to_nat k) l.

(** [a.join(sep)] *)
Definition join (sep : string) (l : list string) : string :=
  String.concat sep l.

(** The [for (const neighbor of neighbors)] loop of [dfs], with [rec]
    the recursive call. When the loop ends without a cycle the node is
    taken off the recursion stack and off the path; when a cycle is
    found the function returns at once and leaves both as they are. *)
Fixpoint neighborLoop (rec : string -> Search -> option (bool * Search))
    (nodeId : string) (neighbors : list string) (s : Search)
  : option (bool * Search) :=
  match neighbors with
  | [] =>
      Some (false, {| marks := leave nodeId (marks s);
                      path := removelast (path s);
                      cycles := cycles s |})
  | neighbor :: rest =>
      if negb (bool_decide (neighbor ∈ visited (marks s))) then
        match rec neighbor s with
        | None => None
        | Some (true, s') => Some (true, s')
        | Some (false, s') => neighborLoop rec nodeId rest s'
        end
      else if bool_decide (neighbor ∈ recursionStack (marks s)) then
        let cycleStart := indexOf (path s) neighbor in
        let cycle := join " -> " (slice (path s) cycleStart) in
        Some (true, {| marks := marks s; path := path s;
                       cycles := cycles s ++ [cycle] |})
      else neighborLoop rec nodeId rest s
  end.

Fixpoint dfs (fuel : nat) (graph : gmap string (list string))
    (nodeId : string) (s : Search) : option (bool * Search) :=
  match fuel with
  | O => None
  | S fuel' =>
      let s1 := {| marks := enter nodeId (marks s);
                   path := path s ++ [nodeId];
                   cycles := cycles s |} in
      let neighbors := default [] (graph !! nodeId) in
      neighborLoop (dfs fuel' graph) nodeId neighbors s1
  end.

(** The final [for (const step of steps)] loop: every call gets a fresh
    [path]; the value [dfs] returns is not used. *)
Fixpoint sweep (fuel : nat) (graph : gmap string (list string))
    (todo : list WorkflowStep) (s : Search) : option Search :=
  match todo with
  | [] => Some s
  | step :: rest =>
      if negb (bool_decide (ws_id step ∈ visited (marks s))) then
        match dfs fuel graph (ws_id step)
                {| marks := marks s; path := []; cycles := cycles s |} with
        | None => None
        | Some (_, s') => sweep fuel graph rest s'
        end
      else sweep fuel graph rest s
  end.

(** [detectCircularDependencies], lines 776-821. *)
Definition detectCircularDependencies (steps : list WorkflowStep)
  : option (list string) :=
  cycles <$> sweep (dfsFuel steps) (buildGraph steps) steps
               {| marks := noMarks; path := []; cycles := [] |}.

(** [validate], lines 603-658. [workflow.steps] is always an array. *)
Definition validate (workflow : Workflow) : option ValidationResult :=
  let e1 :=
    if bool_decide (wf_id workflow = "")
    then [mkVError "Workflow must have an ID" "MISSING_ID" None] else [] in
  let e2 :=
    if blank (wf_name workflow)
    then [mkVError "Workflow must have a name" "MISSING_NAME" None]
    else [] in
  let e3 :=
    if bool_decide (length (wf_steps workflow) = 0%nat)
    then [mkVError "Workflow must have at least one step" "NO_STEPS" None]
    else [] in
  let perStep :=
    map (fun step => validateStep step (wf_steps workflow))
        (wf_steps workflow) in
  let e4 := flat_map errors perStep in
  let w := flat_map warnings perStep in
  match detectCircularDependencies (wf_steps workflow) with
  | None => None
  | Some circularDeps =>
      let e5 :=
        if (0 <? length circularDeps)%nat
        then [mkVError ("Circular dependencies detected: "
                          +:+ join ", " circularDeps)
                "CIRCULAR_DEPS" None]
        else [] in
      let errs := e1 ++ e2 ++ e3 ++ e4 ++ e5 in
      Some {| valid := bool_decide (length errs = 0%nat);
              errors := errs; warnings := w |}
  end.

Definition validTypes : list string :=
  ["analysis"; "fix"; "test"; "deploy"; "custom"].

(** [canExecute], lines 826-848: [(executable, reason)]. *)
Definition canExecute (workflow : Workflow)
  : option (bool * option string) :=
  match validate workflow with
  | None => None
  | Some validation =>
      if negb (valid validation) then
        Some (false,
              Some (match errors validation with
                    | e :: _ => ve_message e
                    | [] => "Validation failed"
                    end))
      else
        match List.find (fun step =>
                           negb (bool_decide (ws_type step ∈ validTypes)))
                        (wf_steps workflow) with
        | Some step =>
            Some (false, Some ("Invalid step type: " +:+ ws_type step))
        | None => Some (true, None)
        end
  end.

(** [validateActionNode], lines 730-771. [node.inputs] and
    [node.outputs] are arrays, so [!node.inputs] is false. *)
Definition validateActionNode (node : ActionNodes.ActionNode)
  : ValidationResult :=
  let e1 :=
    if bool_decide (ActionNodes.an_id node = "")
    then [mkVError "Action node must have an ID" "MISSING_NODE_ID" None]
    else [] in
  let e2 :=
    if bool_decide (ActionNodes.an_type node = "")
    then [mkVError "Action node must have a type" "MISSING_NODE_TYPE" None]
    else [] in
  let w1 :=
    if bool_decide (length (ActionNodes.an_inputs node) = 0%nat)
    then [mkVWarning "Action node has no inputs" "NO_INPUTS" None]
    else [] in
  let w2 :=
    if bool_decide (length (ActionNodes.an_outputs node) = 0%nat)
    then [mkVWarning "Action node has no outputs" "NO_OUTPUTS" None]
    else [] in
  let errs := e1 ++ e2 in
  {| valid := bool_decide (length errs = 0%nat);
     errors := errs; warnings := w1 ++ w2 |}.

End FlowValidator.

(** ** FlowExecutor (flow-executor.ts) *)

Module FlowExecutor.

(** [ExecutionOptions]: every member is optional. *)
Record ExecutionOptions := mkExecutionOptions {
  o_verbose : option bool;
  o_timeout : option Z;
  o_continueOnError : option bool;
  o_parallel : option bool
}.

(** [Required<ExecutionOptions>] *)
Record Options := mkOptions {
  verbose : bool;
  timeout : Z;
  continueOnError : bool;
  parallel : bool
}.

(** [constructor(options = {})] *)
Definition new (options : ExecutionOptions) : Options :=
  {| verbose := default false (o_verbose options);
     timeout := default 300000 (o_timeout options);
     continueOnError := default false (o_continueOnError options);
     parallel := default false (o_parallel options) |}.

(** [executeStepByType], lines 523-539: the result of the returned
    promise, [inr] when the function throws. *)
Definition executeStepByType (step : WorkflowStep) : Payload + Error :=
  if bool_decide (ws_type step = "analysis") then inl [("analyzed", true)]
  else if bool_decide (ws_type step = "fix") then inl [("fixed", true)]
  else if bool_decide (ws_type step = "test") then inl [("tested", true)]
  else if bool_decide (ws_type step = "deploy") then inl [("deployed", true)]
  else if bool_decide (ws_type step = "custom") then inl [("executed", true)]
  else inr (mkError ("Unknown step type: " +:+ ws_type step)).

(** [dependenciesMet], lines 544-549. *)
Definition dependenciesMet (step : WorkflowStep)
    (completed : gmap string StepResult) : bool :=
  forallb (fun depId =>
             match completed !! depId with
             | Some result => success result
             | None => false
             end)
          (ws_dependencies step).

(** [allStepsSucceeded], lines 554-556. *)
Definition allStepsSucceeded (results : gmap string StepResult) : bool :=
  forallb success (map snd (map_to_list results)).

(** What a run does, in order: [Started] when [executeStep] is called
    for a step, [Recorded] when [completedSteps.set] stores its result.
    The log is not in the source; it is kept to state ordering and
    "never attempted" properties. *)
Inductive Event :=
| Started (stepId : string)
| Recorded (stepId : string) (ok : bool).

(** The state a run mutates: the [ExecutionContext] members, the clock
    reads made so far, the log, and the rejections nobody handles (the
    promises returned by [promise.then(...)] whose callback threw). *)
Record Machine := mkMachine {
  completedSteps : gmap string StepResult;
  currentStep : option WorkflowStep;
  ticks : nat;
  log : list Event;
  unhandled : list Error
}.

(** How an [async] method finishes. *)
Inductive Completion :=
| Returned
| Thrown (e : Error).

(** The promise [executeStep] returns, as seen right after the call:
    already resolved when the timeout check threw (no [await] was
    reached), otherwise suspended at [await this.executeStepByType(step)]
    with the step's start time and the outcome that promise carries. *)
Inductive Promise :=
| Resolved (result : StepResult)
| Awaiting (stepStart : Z) (outcome : Payload + Error).

Record InFlight := mkInFlight {
  if_id : string;
  if_step : WorkflowStep;
  if_promise : Promise
}.

(** The bookkeeping of [executeParallel]: [pending] is a [Set] and
    [executing] a [Map], both iterated in insertion order. *)
Record Par := mkPar {
  mach : Machine;
  pending : list string;
  executing : list InFlight;
  round : nat
}.

(** [new Set(ids)]: the first occurrence of each id, in order. *)
Fixpoint dedup (seen : gset string) (ids : list string) : list string :=
  match ids with
  | [] => []
  | x :: rest =>
      if bool_decide (x ∈ seen) then dedup seen rest
      else x :: dedup ({[x]} ∪ seen) rest
  end.

Section Run.
Variable now : nat -> Z.
Variable options : Options.
(** [context.startTime] *)
Variable startTime : Z.

(** [executeStep] up to its first suspension: two clock reads, then
    the timeout check. *)
Definition executeStepStart (step : WorkflowStep) (t : nat)
  : Promise * nat :=
  let stepStart := now t in
  let elapsed := now (S t) - startTime in
  if elapsed >? timeout options then
    let err := mkError "Workflow execution timeout" in
    (Resolved {| stepId := ws_id step; success := false; output := None;
                 duration := now (S (S t)) - stepStart;
                 error := Some err |},
     S (S (S t)))
  else (Awaiting stepStart (executeStepByType step), S (S t)).

(** [executeStep] after the [await]: one clock read for [duration]. *)
Definition executeStepFinish (step : WorkflowStep) (stepStart : Z)
    (outcome : Payload + Error) (t : nat) : StepResult * nat :=
  let d := now t - stepStart in
  match outcome with
  | inl out =>
      ({| stepId := ws_id step; success := true; output := Some out;
          duration := d; error := None |}, S t)
  | inr err =>
      ({| stepId := ws_id step; success := false; output := None;
          duration := d; error := Some err |}, S t)
  end.

Definition settlePromise (step : WorkflowStep) (p : Promise) (t : nat)
  : StepResult * nat :=
  match p with
  | Resolved result => (result, t)
  | Awaiting stepStart outcome =>
      executeStepFinish step stepStart outcome t
  end.

(** [await this.executeStep(step, context)], lines 473-518. *)
Definition executeStep (step : WorkflowStep) (t : nat)
  : StepResult * nat :=
  let '(p, t') := executeStepStart step t in
  settlePromise step p t'.

(** [executeSequential], lines 404-422. *)
Fixpoint executeSequential (steps : list WorkflowStep) (m : Machine)
  : Completion * Machine :=
  match steps with
  | [] => (Returned, m)
  | step :: rest =>
      let m1 := {| completedSteps := completedSteps m;
                   currentStep := Some step; ticks := ticks m;
                   log := log m; unhandled := unhandled m |} in
      if negb (dependenciesMet step (completedSteps m1)) then
        (Thrown (mkError ("Dependencies not met for step: "
                            +:+ ws_name step)), m1)
      else
        let '(result, t') := executeStep step (ticks m1) in
        let m2 := {| completedSteps :=
                       <[ws_id step := result]> (completedSteps m1);
                     currentStep := Some step; ticks := t';
                     log := log m1 ++ [Started (ws_id step);
                                       Recorded (ws_id step)
                                                (success result)];
                     unhandled := unhandled m1 |} in
        if negb (success result) && negb (continueOnError options) then
          (Thrown (mkError ("Step failed: " +:+ ws_name step)), m2)
        else executeSequential rest m2
  end.

(** *** Parallel mode, lines 427-468 *)

(** The [ready] array: the pending ids whose step has its dependencies
    met. [steps.find(...)!] always finds a step, since [pending] holds
    ids of [steps] only. *)
Definition readySteps (steps : list WorkflowStep) (p : Par)
  : list string :=
  List.filter
    (fun stepId =>
       match findStep steps stepId with
       | Some step => dependenciesMet step (completedSteps (mach p))
       | None => false
       end)
    (pending p).

(** One iteration of [for (const stepId of ready)]: the step leaves
    [pending], [executeStep] runs up to its first suspension, and the
    promise enters [executing] ([stepId] was pending, so it is not a
    key of [executing] and [set] appends). *)
Definition startStep (steps : list WorkflowStep) (p : Par)
    (stepId : string) : Par :=
  match findStep steps stepId with
  | None => p
  | Some step =>
      let m := mach p in
      let '(promise, t') := executeStepStart step (ticks m) in
      {| mach := {| completedSteps := completedSteps m;
                    currentStep := Some step; ticks := t';
                    log := log m ++ [Started stepId];
                    unhandled := unhandled m |};
         pending := List.filter (fun x => negb (bool_decide (x = stepId)))
                      (pending p);
         executing := executing p ++ [mkInFlight stepId step promise];
         round := round p |}
  end.

(** The callback given to [promise.then]: it stores the result, takes
    the step out of [executing], and throws when the step failed and
    [continueOnError] is off. Nothing handles the promise [then]
    returns, so that throw is an unhandled rejection. *)
Definition onSettled (e : InFlight) (p : Par) : Par :=
  let m := mach p in
  let '(result, t') := settlePromise (if_step e) (if_promise e) (ticks m) in
  {| mach :=
       {| completedSteps := <[if_id e := result]> (completedSteps m);
          currentStep := currentStep m; ticks := t';
          log := log m ++ [Recorded (if_id e) (success result)];
          unhandled :=
            if negb (success result) && negb (continueOnError options)
            then unhandled m
                   ++ [mkError ("Step failed: " +:+ ws_name (if_step e))]
            else unhandled m |};
     pending := pending p;
     executing := List.filter
                    (fun x => negb (bool_decide (if_id x = if_id e)))
                    (executing p);
     round := round p |}.

(** [await Promise.race(executing.values())] resumes the loop once at
    least one in-flight promise has settled and its callback has run.
    Which promises have settled by then, and in which order, is up to
    the timing of the steps: [sched] picks them, given the round
    number and the in-flight ids. An answer naming no in-flight step
    stands for the first one. *)
Variable sched : nat -> list string -> list string.

Definition settling (n : nat) (inflight : list string) : list string :=
  match List.filter (fun x => bool_decide (x ∈ inflight))
                    (sched n inflight) with
  | [] => take 1 inflight
  | ids => ids
  end.

Definition settleOne (p : Par) (stepId : string) : Par :=
  match List.find (fun e => bool_decide (if_id e = stepId))
                  (executing p) with
  | Some e => onSettled e p
  | None => p
  end.

Definition awaitRace (p : Par) : Par :=
  fold_left settleOne (settling (round p) (map if_id (executing p))) p.

Definition nextRound (p : Par) : Par :=
  {| mach := mach p; pending := pending p; executing := executing p;
     round := S (round p) |}.

(** The [while] loop; [fuel] bounds the number of iterations. *)
Fixpoint parallelLoop (fuel : nat) (steps : list WorkflowStep) (p : Par)
  : option (Completion * Par) :=
  match fuel with
  | O => None
  | S fuel' =>
      if negb ((0 <? length (pending p))%nat
               || (0 <? length (executing p))%nat)
      then Some (Returned, p)
      else
        let ready := readySteps steps p in
        let p1 := fold_left (startStep steps) ready p in
        let p2 := if (0 <? length (executing p1))%nat
                  then awaitRace p1 else p1 in
        if bool_decide (length ready = 0%nat)
           && bool_decide (length (executing p2) = 0%nat)
           && (0 <? length (pending p2))%nat
        then Some (Thrown (mkError
               "Deadlock detected: steps have unmet dependencies"), p2)
        else parallelLoop fuel' steps (nextRound p2)
  end.

Definition parallelFuel (p : Par) : nat :=
  S (2 * length (pending p) + length (executing p)).

Definition executeParallel (steps : list WorkflowStep) (m : Machine)
  : option (Completion * Machine) :=
  let p := {| mach := m; pending := dedup ∅ (stepIds steps);
              executing := []; round := 0 |} in
  match parallelLoop (parallelFuel p) steps p with
  | None => None
  | Some (c, p') => Some (c, mach p')
  end.

End Run.

(** [execute], lines 362-399. The first clock read is
    [context.startTime]; the last one gives [duration]. The final
    [Machine] is returned along with the [WorkflowResult]. *)
Definition execute (now : nat -> Z) (options : Options)
    (sched : nat -> list string -> list string) (workflow : Workflow)
  : option (WorkflowResult * Machine) :=
  let startTime := now 0%nat in
  let m0 := {| completedSteps := ∅; currentStep := None; ticks := 1;
               log := []; unhandled := [] |} in
  let run :=
    if parallel options
    then executeParallel now options startTime sched (wf_steps workflow) m0
    else Some (executeSequential now options startTime
                 (wf_steps workflow) m0) in
  match run with
  | None => None
  | Some (c, m) =>
      let errs := match c with Returned => [] | Thrown e => [e] end in
      let d := now (ticks m) - startTime in
      Some ({| wr_success := bool_decide (length errs = 0%nat)
                             && allStepsSucceeded (completedSteps m);
               stepResults := completedSteps m;
               wr_duration := d;
               errors := errs |}, m)
  end.

(** The schedule of the code as it stands: [executeStepByType] has no
    [await] of its own, so every promise started in a round settles, in
    start order, before the loop resumes. *)
Definition settleAll : nat -> list string -> list string :=
  fun _ inflight => inflight.

End FlowExecutor.

(** ** Vocabulary of the properties *)

(** Dependency [depId] of the step at index [i] is satisfied in [results]:
    it is the id of a step declared before index [i] whose recorded result
    is a success. *)
Definition succeededBefore (steps : list WorkflowStep)
    (results : gmap string StepResult) (i : nat) (depId : string) : Prop :=
  ∃ j prev res,
    (j < i)%nat ∧ steps !! j = Some prev ∧ ws_id prev = depId
    ∧ results !! depId = Some res ∧ success res = true.

(** The error recorded for a step, if any. *)
Definition recordedError (results : gmap string StepResult)
    (step : WorkflowStep) : option Error :=
  results !! ws_id step ≫= error.

(** In a log, every start of a step comes after a record of success of
    each dependency the step declares. *)
Definition startsAfterDependencies (steps : list WorkflowStep)
    (log : list FlowExecutor.Event) : Prop :=
  ∀ i stepId step,
    log !! i = Some (FlowExecutor.Started stepId) →
    findStep steps stepId = Some step →
    ∀ depId, depId ∈ ws_dependencies step →
      ∃ j, (j < i)%nat ∧ log !! j = Some (FlowExecutor.Recorded depId true).

(** In a log, every start of [stepId] comes after a record of success of
    [depId]. *)
Definition startedAfterSuccessOf (log : list FlowExecutor.Event)
    (stepId depId : string) : Prop :=
  ∀ i, log !! i = Some (FlowExecutor.Started stepId) →
       ∃ j, (j < i)%nat ∧ log !! j = Some (FlowExecutor.Recorded depId true).

(** The three-step chain A→B→C of the claims: B depends on A, C depends
    on B, A on nothing, and the three ids differ. *)
Record isChain (A B C : WorkflowStep) : Prop := {
  chain_A : ws_dependencies A = [];
  chain_B : ws_dependencies B = [ws_id A];
  chain_C : ws_dependencies C = [ws_id B];
  chain_AB : ws_id A ≠ ws_id B;
  chain_AC : ws_id A ≠ ws_id C;
  chain_BC : ws_id B ≠ ws_id C
}.

(** The diamond of the claims: B and C depend on A, D on B and C, and the
    four ids differ. *)
Record isDiamond (A B C D : WorkflowStep) : Prop := {
  diamond_A : ws_dependencies A = [];
  diamond_B : ws_dependencies B = [ws_id A];
  diamond_C : ws_dependencies C = [ws_id A];
  diamond_D : ws_dependencies D = [ws_id B; ws_id C];
  diamond_ids : NoDup [ws_id A; ws_id B; ws_id C; ws_id D]
}.

(** [sub] occurs in [s] (what [s.includes(sub)] tests). *)
Definition occursIn (sub s : string) : Prop :=
  ∃ before after, s = before +:+ sub +:+ after.

(** The three-step cycle A→B→C→A of the claims: each step depends on the
    previous one, A on C, and the three ids differ. *)
Record isCycle (A B C : WorkflowStep) : Prop := {
  cycle_A : ws_dependencies A = [ws_id C];
  cycle_B : ws_dependencies B = [ws_id A];
  cycle_C : ws_dependencies C = [ws_id B];
  cycle_AB : ws_id A ≠ ws_id B;
  cycle_AC : ws_id A ≠ ws_id C;
  cycle_BC : ws_id B ≠ ws_id C
}.

(** The state of the sequential loop after a step was executed and
    [completedSteps.set(step.id, result)] stored its result; [t'] is the
    number of clock reads made by then. *)
Definition recordStep (step : WorkflowStep) (result : StepResult) (t' : nat)
    (m : FlowExecutor.Machine) : FlowExecutor.Machine :=
  {| FlowExecutor.completedSteps :=
       <[ws_id step := result]> (FlowExecutor.completedSteps m);
     FlowExecutor.currentStep := Some step;
     FlowExecutor.ticks := t';
     FlowExecutor.log :=
       FlowExecutor.log m
         ++ [FlowExecutor.Started (ws_id step);
             FlowExecutor.Recorded (ws_id step) (success result)];
     FlowExecutor.unhandled := FlowExecutor.unhandled m |}.


(** The result [executeStep] builds when its timeout check throws at a
    step started at clock read [t]. *)
Definition timedOut (now : nat → Z) (step : WorkflowStep) (t : nat)
  : StepResult :=
  {| stepId := ws_id step; success := false; output := None;
     duration := now (S (S t)) - now t;
     error := Some (mkError "Workflow execution timeout") |}.

(** What holds after the loop of a built workflow's [execute] has gone
    through the steps [pre], starting with no result and no error. *)
Record ranThrough (pre : list WorkflowStep) (r : Built.Run) : Prop := {
  rt_dom : dom (Built.results r) = list_to_set (stepIds pre);
  rt_each : ∀ i step, pre !! i = Some step →
    ∃ res, Built.results r !! ws_id step = Some res
           ∧ stepId res = ws_id step
           ∧ (success res = true →
              error res = None
              ∧ ∀ depId, depId ∈ ws_dependencies step →
                         succeededBefore pre (Built.results r) i depId)
           ∧ (success res = false →
              ∃ depId, depId ∈ ws_dependencies step
                ∧ ¬ succeededBefore pre (Built.results r) i depId
                ∧ error res = Some (mkError
                    ("Dependency " +:+ depId +:+ " failed or not completed")));
  rt_failures : Built.failures r = omap (recordedError (Built.results r)) pre;
  rt_ticks : Built.ticks r = (1 + 2 * length pre)%nat
}.

(** [steps.find] reaches a step with this id. *)
Definition found (steps : list WorkflowStep) (stepId : string) : Prop :=
  is_Some (findStep steps stepId).

(** The invariant of the parallel loop: starts are ordered after the
    successes they depend on, and every success in the result map is in
    the log. *)
Definition ordered (steps : list WorkflowStep) (m : FlowExecutor.Machine)
  : Prop :=
  startsAfterDependencies steps (FlowExecutor.log m)
  ∧ ∀ stepId res,
      FlowExecutor.completedSteps m !! stepId = Some res →
      success res = true →
      FlowExecutor.Recorded stepId true ∈ FlowExecutor.log m.

(** Every id the cycle search can meet: the step ids and the dependency
    ids. *)
Definition universe (steps : list WorkflowStep) : gset string :=
  list_to_set (stepIds steps ++ allDependencies steps).

(** The size of the part of the universe not yet visited. *)
Definition unvisited (steps : list WorkflowStep) (m : Marks) : nat :=
  size (universe steps ∖ visited m).

(** What [dfs] and its loop keep: the visited set only grows and stays
    inside the universe. *)
Definition grows (steps : list WorkflowStep) (s s' : FlowValidator.Search)
  : Prop :=
  visited (FlowValidator.marks s) ⊆ visited (FlowValidator.marks s')
  ∧ (visited (FlowValidator.marks s) ⊆ universe steps →
     visited (FlowValidator.marks s') ⊆ universe steps).

(** What the builder's search sees of the validator's search state. *)
Definition seen (r : bool * FlowValidator.Search) : bool * Marks :=
  (r.1, FlowValidator.marks r.2).

(** The validator's search adds a cycle exactly when it answers [true]. *)
Definition cyclesAfter (s s' : FlowValidator.Search) (b : bool) : Prop :=
  if b then FlowValidator.cycles s' ≠ []
  else FlowValidator.cycles s' = FlowValidator.cycles s.

(** [w] is a neighbour of [u] in the graph that
    [detectCircularDependencies] builds from the steps: the step entered
    last under the id [u] lists [w] among its dependencies. *)
Definition dependsOn (steps : list WorkflowStep) (u w : string) : Prop :=
  w ∈ default [] (FlowValidator.buildGraph steps !! u).

(** Some id reaches itself along one or more dependency edges. *)
Definition cyclic (steps : list WorkflowStep) : Prop :=
  ∃ u, tc (dependsOn steps) u u.

(** Every id on the recursion stack has been visited. *)
Definition stackVisited (m : Marks) : Prop :=
  recursionStack m ⊆ visited m.

(** No id that lies on a cycle is finished (visited and off the stack). *)
Definition cycleIdsOpen (steps : list WorkflowStep) (m : Marks) : Prop :=
  ∀ u, tc (dependsOn steps) u u → u ∈ visited m → u ∈ recursionStack m.

(** What a call of [dfs] on [n] from state [s] guarantees when it returns
    [b] in state [s']. *)
Definition dfsPost (steps : list WorkflowStep) (n : string)
    (s : FlowValidator.Search) (b : bool) (s' : FlowValidator.Search)
  : Prop :=
  let m := FlowValidator.marks s in
  let m' := FlowValidator.marks s' in
  stackVisited m'
  ∧ visited m ⊆ visited m'
  ∧ n ∈ visited m'
  ∧ (b = false →
     recursionStack m' = recursionStack m
     ∧ (cycleIdsOpen steps m → cycleIdsOpen steps m'))
  ∧ (b = true →
     (∀ x, x ∈ recursionStack m → rtc (dependsOn steps) x n) →
     cyclic steps).


(** Some step with id [u] lists [w] among its dependencies. *)
Definition declares (steps : list WorkflowStep) (u w : string) : Prop :=
  ∃ step, step ∈ steps ∧ ws_id step = u ∧ w ∈ ws_dependencies step.

(** Every dependency names a step declared earlier in the array. *)
Definition forwardOnly (steps : list WorkflowStep) : Prop :=
  ∀ i step depId,
    steps !! i = Some step → depId ∈ ws_dependencies step →
    ∃ j prev, (j < i)%nat ∧ steps !! j = Some prev ∧ ws_id prev = depId.


(** The configured timeout is never exceeded: no clock read is more than
    [timeout] after the first one, which is [context.startTime]. *)
Definition noTimeout (now : nat → Z) (options : FlowExecutor.Options)
  : Prop :=
  ∀ t, now t - now 0%nat ≤ FlowExecutor.timeout options.

(** Every dependency is an id in [known] or names a step declared
    earlier in the list. *)
Definition forwardFrom (known : gset string) (steps : list WorkflowStep)
  : Prop :=
  ∀ i step depId,
    steps !! i = Some step → depId ∈ ws_dependencies step →
    depId ∈ known
    ∨ ∃ j prev, (j < i)%nat ∧ steps !! j = Some prev ∧ ws_id prev = depId.

(** Every result in the map is a success. *)
Definition allSucceeded (results : gmap string StepResult) : Prop :=
  ∀ stepId res, results !! stepId = Some res → success res = true.

(** The log of a run that starts each step in declaration order and
    records its success before the next one starts. *)
Definition straightLog (steps : list WorkflowStep)
  : list FlowExecutor.Event :=
  flat_map (fun step => [FlowExecutor.Started (ws_id step);
                         FlowExecutor.Recorded (ws_id step) true]) steps.

(** The bookkeeping of the parallel loop: every step id is pending,
    in flight or has a result, and a pending id is neither in flight
    nor has a result. *)
Record parInv (steps : list WorkflowStep) (p : FlowExecutor.Par)
  : Prop := {
  pi_cover : ∀ x,
    x ∈ stepIds steps
    ↔ x ∈ FlowExecutor.pending p
      ∨ x ∈ map FlowExecutor.if_id (FlowExecutor.executing p)
      ∨ x ∈ dom (FlowExecutor.completedSteps (FlowExecutor.mach p));
  pi_pending : ∀ x,
    x ∈ FlowExecutor.pending p →
    (x ∉ map FlowExecutor.if_id (FlowExecutor.executing p))
    ∧ (x ∉ dom (FlowExecutor.completedSteps (FlowExecutor.mach p)))
}.

(** The error of the parallel loop. *)
Definition deadlock : Error :=
  mkError "Deadlock detected: steps have unmet dependencies".

(** What the parallel loop keeps when no step can fail: every stored
    result is a success, every in-flight promise is suspended at a type
    dispatch that will return, and no rejection went unhandled. *)
Record parGood (p : FlowExecutor.Par) : Prop := {
  pg_results :
    allSucceeded (FlowExecutor.completedSteps (FlowExecutor.mach p));
  pg_inflight : ∀ e,
    e ∈ FlowExecutor.executing p →
    ∃ stepStart out,
      FlowExecutor.if_promise e = FlowExecutor.Awaiting stepStart (inl out);
  pg_unhandled : FlowExecutor.unhandled (FlowExecutor.mach p) = []
}.

(** The rejection that a log event leaves unhandled when
    [continueOnError] is off: the record of a failed step. *)
Definition failureOf (steps : list WorkflowStep)
    (ev : FlowExecutor.Event) : option Error :=
  match ev with
  | FlowExecutor.Recorded stepId false =>
      (fun step => mkError ("Step failed: " +:+ ws_name step))
        <$> findStep steps stepId
  | _ => None
  end.

(** The in-flight entries are the ones [startStep] made, and the
    unhandled rejections are the ones the log accounts for. *)
Record parAudit (options : FlowExecutor.Options)
    (steps : list WorkflowStep) (p : FlowExecutor.Par) : Prop := {
  pa_inflight : ∀ e,
    e ∈ FlowExecutor.executing p →
    findStep steps (FlowExecutor.if_id e) = Some (FlowExecutor.if_step e);
  pa_unhandled :
    FlowExecutor.unhandled (FlowExecutor.mach p)
    = if FlowExecutor.continueOnError options then []
      else omap (failureOf steps)
                (FlowExecutor.log (FlowExecutor.mach p))
}.

(** A builder call that only refers back: a custom step may depend on
    the ids of the steps added before it, the other calls are free. *)
Definition backward (b : WorkflowBuilder.t) (c : WorkflowBuilder.call)
  : Prop :=
  match c with
  | WorkflowBuilder.AddCustomStep _ _ dependencies =>
      ∀ depId, depId ∈ dependencies →
               depId ∈ stepIds (WorkflowBuilder.steps b)
  | _ => True
  end.

(** Every call of the chain refers back, each seen from the builder
    state it is applied to. *)
Fixpoint allBackward (cs : list WorkflowBuilder.call)
    (b : WorkflowBuilder.t) : Prop :=
  match cs with
  | [] => True
  | c :: rest => backward b c ∧ allBackward rest (WorkflowBuilder.apply c b)
  end.

(** The call adds one of the four built-in steps or sets the
    description. *)
Definition noCustomStep (c : WorkflowBuilder.call) : Prop :=
  match c with
  | WorkflowBuilder.AddCustomStep _ _ _ => False
  | _ => True
  end.

(** The string is made of white-space code points only: its bytes are
    the UTF-8 encodings of code points that [trim] strips, one after
    the other. *)
Definition onlyWhiteSpace (s : string) : Prop :=
  ∃ codePoints : list (list Ascii.ascii),
    Forall (fun cp => FlowValidator.isWhiteSpace cp = true) codePoints
    ∧ String.list_ascii_of_string s = concat codePoints.

(** [executeStep], called for [step] after [t] clock reads, passes its
    timeout check and the type dispatch returns: the step succeeds. *)
Definition succeedsAt (now : nat → Z) (options : FlowExecutor.Options)
    (step : WorkflowStep) (t : nat) : Prop :=
  now (S t) - now 0%nat ≤ FlowExecutor.timeout options
  ∧ ws_type step ∈ FlowValidator.validTypes.

(** [executeStep], called for [step] after [t] clock reads, fails: the
    timeout check throws or the type dispatch does. *)
Definition failsAt (now : nat → Z) (options : FlowExecutor.Options)
    (step : WorkflowStep) (t : nat) : Prop :=
  FlowExecutor.timeout options < now (S t) - now 0%nat
  ∨ ws_type step ∉ FlowValidator.validTypes.

(** The warning [validateStep] gives for a step without configuration. *)
Definition noConfigWarning (step : WorkflowStep)
  : option FlowValidator.ValidationWarning :=
  match ws_config step with
  | None => Some (FlowValidator.mkVWarning "Step has no configuration"
                    "NO_CONFIG" (Some (ws_id step)))
  | Some _ => None
  end.

(** What [executeStep] can store for [step]: a success carrying the
    payload of the type dispatch, or a failure carrying either the
    timeout error or the error the type dispatch threw. *)
Definition resultOf (step : WorkflowStep) (res : StepResult) : Prop :=
  stepId res = ws_id step
  ∧ ((success res = true ∧ error res = None
      ∧ ∃ out, FlowExecutor.executeStepByType step = inl out
               ∧ output res = Some out)
     ∨ (success res = false ∧ output res = None
        ∧ (error res = Some (mkError "Workflow execution timeout")
           ∨ (FlowExecutor.executeStepByType step
                = inr (mkError ("Unknown step type: " +:+ ws_type step))
              ∧ error res
                = Some (mkError ("Unknown step type: "
                                   +:+ ws_type step)))))).

(** Every stored result is keyed by the id of a step of the workflow
    and is a result [executeStep] can store for it. *)
Definition resultsOf (steps : list WorkflowStep)
    (results : gmap string StepResult) : Prop :=
  ∀ stepId res,
    results !! stepId = Some res →
    ∃ step, step ∈ steps ∧ ws_id step = stepId ∧ resultOf step res.

(** The in-flight entries are the ones [startStep] made: the step is
    the one found under the id, and a promise that is already resolved
    holds a result of that step. *)
Record parResults (steps : list WorkflowStep) (p : FlowExecutor.Par)
  : Prop := {
  pr_results :
    resultsOf steps (FlowExecutor.completedSteps (FlowExecutor.mach p));
  pr_inflight : ∀ e,
    e ∈ FlowExecutor.executing p →
    FlowExecutor.if_step e ∈ steps
    ∧ ws_id (FlowExecutor.if_step e) = FlowExecutor.if_id e
    ∧ match FlowExecutor.if_promise e with
      | FlowExecutor.Resolved res => resultOf (FlowExecutor.if_step e) res
      | FlowExecutor.Awaiting _ outcome =>
          outcome = FlowExecutor.executeStepByType (FlowExecutor.if_step e)
      end
}.

(** The ids a log shows started, and the ids it shows recorded, in
    order. *)
Definition startedIds (log : list FlowExecutor.Event) : list string :=
  omap (fun ev => match ev with
                  | FlowExecutor.Started stepId => Some stepId
                  | _ => None
                  end) log.

Definition recordedIds (log : list FlowExecutor.Event) : list string :=
  omap (fun ev => match ev with
                  | FlowExecutor.Recorded stepId _ => Some stepId
                  | _ => None
                  end) log.

(** In a log, every record of a step comes after a start of it. *)
Definition recordsFollowStarts (log : list FlowExecutor.Event) : Prop :=
  ∀ j stepId ok,
    log !! j = Some (FlowExecutor.Recorded stepId ok) →
    ∃ i, (i < j)%nat ∧ log !! i = Some (FlowExecutor.Started stepId).

(** The parallel loop handles every id once: a pending id was never
    started, an in-flight id was started and not yet recorded, no id is
    started or recorded twice. *)
Record parOnce (p : FlowExecutor.Par) : Prop := {
  po_pending :
    NoDup (FlowExecutor.pending p
             ++ startedIds (FlowExecutor.log (FlowExecutor.mach p)));
  po_inflight :
    NoDup (map FlowExecutor.if_id (FlowExecutor.executing p)
             ++ recordedIds (FlowExecutor.log (FlowExecutor.mach p)));
  po_started : ∀ x,
    x ∈ map FlowExecutor.if_id (FlowExecutor.executing p) →
    x ∈ startedIds (FlowExecutor.log (FlowExecutor.mach p));
  po_recorded : ∀ x,
    x ∈ recordedIds (FlowExecutor.log (FlowExecutor.mach p)) →
    x ∈ startedIds (FlowExecutor.log (FlowExecutor.mach p));
  po_order : recordsFollowStarts (FlowExecutor.log (FlowExecutor.mach p))
}.

(** * Properties *)

(** ** WorkflowBuilder: generated ids *)

Section BuilderFacts.
Import WorkflowBuilder.

Lemma chain_snoc cs c b : chain (cs ++ [c]) b = apply c (chain cs b).
Proof. unfold chain. by rewrite fold_left_app. Qed.

Lemma apply_steps c b :
  steps (apply c b) = steps b
  ∨ ∃ step, steps (apply c b) = steps b ++ [step]
            ∧ ws_id step = nextStepId b.
Proof. destruct c; simpl; eauto. Qed.

(** The step at index [i] of a reachable builder has id [step_(i+1)]. *)
Lemma reachable_ids b :
  reachable b →
  ∀ i step, steps b !! i = Some step →
            ws_id step = "step_" +:+ pretty (i + 1)%nat.
Proof.
  intros (name & stamp & cs & ->).
  induction cs as [|c cs IH] using rev_ind; intros i step Hi.
  - by destruct i.
  - rewrite chain_snoc in Hi.
    destruct (apply_steps c (chain cs (new name stamp)))
      as [Heq | (s & Heq & Hid)]; rewrite Heq in Hi; [by eauto|].
    apply lookup_snoc_Some in Hi as [[_ Hi] | [-> <-]]; [by eauto|].
    exact Hid.
Qed.

Lemma step_id_nonempty (n : nat) : "step_" +:+ pretty n ≠ "".
Proof. discriminate. Qed.

Lemma reachable_NoDup b : reachable b → NoDup (stepIds (steps b)).
Proof.
  intros Hb. apply NoDup_alt. intros i j x Hi Hj.
  unfold stepIds in Hi, Hj. rewrite list_lookup_fmap in Hi, Hj.
  destruct (steps b !! i) as [si|] eqn:Ei; [|done].
  destruct (steps b !! j) as [sj|] eqn:Ej; [|done].
  simpl in Hi, Hj.
  pose proof (reachable_ids b Hb i si Ei) as Hsi.
  pose proof (reachable_ids b Hb j sj Ej) as Hsj.
  assert (pretty (i + 1)%nat = pretty (j + 1)%nat) as Hp.
  { eapply (inj (String.app "step_")). congruence. }
  apply (inj pretty) in Hp. lia.
Qed.

Lemma reachable_apply c b : reachable b → reachable (apply c b).
Proof.
  intros (name & stamp & cs & ->). exists name, stamp, (cs ++ [c]).
  by rewrite chain_snoc.
Qed.

Lemma reachable_new name stamp : reachable (new name stamp).
Proof. by exists name, stamp, []. Qed.

Lemma nextStepId_fresh b : reachable b → nextStepId b ∉ stepIds (steps b).
Proof.
  intros Hb Hin. unfold stepIds in Hin.
  apply list_elem_of_fmap in Hin as (s & Hs & Hin).
  apply list_elem_of_lookup in Hin as [i Hi].
  pose proof (lookup_lt_Some _ _ _ Hi) as Hlt.
  rewrite (reachable_ids b Hb i s Hi) in Hs. unfold nextStepId in Hs.
  apply (inj (String.app "step_")) in Hs. apply (inj pretty) in Hs. lia.
Qed.

Lemma reachable_prevStepId b prev :
  reachable b → last (steps b) = Some prev →
  prevStepId b = ws_id prev ∧ chainTo (prevStepId b) = [ws_id prev].
Proof.
  intros Hb Hlast. unfold prevStepId, chainTo. rewrite Hlast. split; [done|].
  rewrite last_lookup in Hlast.
  rewrite (reachable_ids b Hb _ _ Hlast).
  by rewrite bool_decide_eq_false_2 by apply step_id_nonempty.
Qed.

End BuilderFacts.

(** C9, as amended. For a builder reached by any chain of calls, each
    built-in call appends one step whose id is [step_(n+1)], different from
    every id already present. [addAutoFixStep], [addTestStep] and
    [addDeployStep] give it the dependency list holding exactly the id of
    the step added last, or the empty list when there is none;
    [addAnalysisStep] always gives it the empty dependency list. *)
Theorem C9_builtin_step_chaining
    (k : WorkflowBuilder.builtin) (config : Config) (b : WorkflowBuilder.t) :
  WorkflowBuilder.reachable b →
  ∃ step,
    WorkflowBuilder.steps (WorkflowBuilder.addBuiltin k config b)
      = WorkflowBuilder.steps b ++ [step]
    ∧ ws_id step
      = "step_" +:+ pretty (length (WorkflowBuilder.steps b) + 1)%nat
    ∧ (ws_id step ∉ stepIds (WorkflowBuilder.steps b))
    ∧ ws_dependencies step
      = match k, last (WorkflowBuilder.steps b) with
        | WorkflowBuilder.Analysis, _ => []
        | _, Some prev => [ws_id prev]
        | _, None => []
        end.
Proof.
  intros Hb.
  pose proof (nextStepId_fresh b Hb) as Hfresh.
  assert (∀ prev, last (WorkflowBuilder.steps b) = Some prev →
                  WorkflowBuilder.chainTo (WorkflowBuilder.prevStepId b)
                  = [ws_id prev]) as Hprev.
  { intros prev Hl. by apply reachable_prevStepId. }
  assert (last (WorkflowBuilder.steps b) = None →
          WorkflowBuilder.chainTo (WorkflowBuilder.prevStepId b) = []) as Hnone.
  { intros Hl. unfold WorkflowBuilder.prevStepId. by rewrite Hl. }
  destruct k; simpl; eexists; (split; [reflexivity|]);
    (split; [reflexivity|]); (split; [exact Hfresh|]); simpl; try done;
    destruct (last (WorkflowBuilder.steps b)) as [prev|] eqn:El; auto.
Qed.

Lemma C9_builtin_step_chaining_witness :
  ∃ step,
    WorkflowBuilder.steps
      (WorkflowBuilder.addBuiltin WorkflowBuilder.Test []
         (WorkflowBuilder.addAnalysisStep [] (WorkflowBuilder.new None 0)))
      = WorkflowBuilder.steps
          (WorkflowBuilder.addAnalysisStep [] (WorkflowBuilder.new None 0))
        ++ [step]
    ∧ ws_id step = "step_2"
    ∧ ws_dependencies step = ["step_1"].
Proof.
  destruct (C9_builtin_step_chaining WorkflowBuilder.Test []
              (WorkflowBuilder.addAnalysisStep [] (WorkflowBuilder.new None 0)))
    as (step & Hsteps & Hid & _ & Hdeps).
  - by exists None, 0, [WorkflowBuilder.AddAnalysisStep []].
  - exists step. split; [exact Hsteps|]. split; [exact Hid|]. exact Hdeps.
Defined.

(** C9 as stated fails: after one step has been added, [addAnalysisStep]
    adds a step whose dependency list is empty, not the list holding the
    preceding step's id [step_1]. *)
Lemma C9_analysis_does_not_chain :
  let b := WorkflowBuilder.addAnalysisStep [] (WorkflowBuilder.new None 0) in
  WorkflowBuilder.prevStepId b = "step_1"
  ∧ ¬ ∃ step,
        WorkflowBuilder.steps
          (WorkflowBuilder.addBuiltin WorkflowBuilder.Analysis [] b)
          = WorkflowBuilder.steps b ++ [step]
        ∧ ws_dependencies step = [WorkflowBuilder.prevStepId b].
Proof.
  split; [reflexivity|].
  intros (step & Hsteps & Hdeps).
  simpl in Hsteps. injection Hsteps as <-. discriminate Hdeps.
Qed.

(** ** The [execute] method of a built workflow *)

Section BuiltFacts.
Import Built.
Variable now : nat → Z.

Lemma firstUnmet_None deps results :
  firstUnmet deps results = None →
  ∀ depId, depId ∈ deps →
           ∃ res, results !! depId = Some res ∧ success res = true.
Proof.
  induction deps as [|d deps IH]; simpl; intros Hf depId Hin.
  - by apply elem_of_nil in Hin.
  - destruct (results !! d) as [r|] eqn:Ed; [|done].
    destruct (success r) eqn:Es; [|done].
    apply elem_of_cons in Hin as [->|Hin]; eauto.
Qed.

Lemma firstUnmet_Some deps results depId :
  firstUnmet deps results = Some depId →
  depId ∈ deps
  ∧ ¬ ∃ res, results !! depId = Some res ∧ success res = true.
Proof.
  induction deps as [|d deps IH]; simpl; [done|]. intros Hf.
  destruct (results !! d) as [r|] eqn:Ed.
  - destruct (success r) eqn:Es.
    + destruct (IH Hf) as [Hin Hno]. split; [by right|done].
    + injection Hf as <-. split; [by left|].
      intros (res & Hres & Hok). congruence.
  - injection Hf as <-. split; [by left|].
    intros (res & Hres & Hok). congruence.
Qed.

Lemma succeededBefore_snoc pre step results res i depId :
  ws_id step ∉ stepIds pre → (i ≤ length pre)%nat →
  succeededBefore (pre ++ [step]) (<[ws_id step := res]> results) i depId
  ↔ succeededBefore pre results i depId.
Proof.
  intros Hfresh Hi.
  assert (∀ j prev, (j < i)%nat → pre !! j = Some prev →
                    ws_id prev ≠ ws_id step) as Hne.
  { intros j prev _ Hj Heq. apply Hfresh. unfold stepIds.
    apply list_elem_of_fmap. exists prev. split; [done|].
    by eapply list_elem_of_lookup_2. }
  split; intros (j & prev & r' & Hj & Hprev & Hid & Hres & Hok);
    exists j, prev, r'.
  - rewrite lookup_app_l in Hprev by lia.
    subst depId. rewrite lookup_insert_ne in Hres by (symmetry; eauto).
    done.
  - rewrite lookup_app_l by lia. subst depId.
    rewrite lookup_insert_ne by (symmetry; eauto). done.
Qed.

Lemma omap_recordedError_insert pre step res results :
  ws_id step ∉ stepIds pre →
  omap (recordedError (<[ws_id step := res]> results)) pre
  = omap (recordedError results) pre.
Proof.
  intros Hfresh. induction pre as [|s pre IH]; [done|].
  unfold stepIds in Hfresh. rewrite fmap_cons in Hfresh.
  apply not_elem_of_cons in Hfresh as [Hne Hfresh].
  change (s :: pre) with ([s] ++ pre). rewrite !omap_app, IH by done.
  f_equal. simpl. unfold recordedError. by rewrite lookup_insert_ne.
Qed.

Lemma ranThrough_nil :
  ranThrough [] {| ticks := 1; results := ∅; failures := [] |}.
Proof.
  split; simpl; [by rewrite dom_empty_L| |done|done].
  intros i step Hi. by rewrite lookup_nil in Hi.
Qed.

(** One iteration stores one result under the step's id. *)
Lemma runStep_spec r step :
  ∃ res,
    results (runStep now r step) = <[ws_id step := res]> (results r)
    ∧ failures (runStep now r step) = failures r ++ option_list (error res)
    ∧ ticks (runStep now r step) = S (S (ticks r))
    ∧ stepId res = ws_id step
    ∧ (success res = true →
       error res = None
       ∧ ∀ depId, depId ∈ ws_dependencies step →
           ∃ res', results r !! depId = Some res' ∧ success res' = true)
    ∧ (success res = false →
       ∃ depId, depId ∈ ws_dependencies step
         ∧ (¬ ∃ res', results r !! depId = Some res' ∧ success res' = true)
         ∧ error res = Some (mkError
             ("Dependency " +:+ depId +:+ " failed or not completed"))).
Proof.
  unfold runStep.
  destruct (firstUnmet (ws_dependencies step) (results r)) as [bad|] eqn:Ef;
    eexists; (split; [reflexivity|]); simpl.
  - split; [done|]. split; [done|]. split; [done|]. split; [done|].
    intros _. apply firstUnmet_Some in Ef as [Hin Hno]. eauto.
  - split; [by rewrite app_nil_r|]. split; [done|]. split; [done|].
    split; [|done]. intros _. split; [done|]. by apply firstUnmet_None.
Qed.

Lemma ranThrough_snoc pre step r :
  ws_id step ∉ stepIds pre →
  ranThrough pre r → ranThrough (pre ++ [step]) (runStep now r step).
Proof.
  intros Hfresh [Hdom Heach Hfail Hticks].
  assert (∀ depId res, results r !! depId = Some res → success res = true →
                       succeededBefore pre (results r) (length pre) depId)
    as Hearlier.
  { intros depId res Hres Hok.
    assert (depId ∈ stepIds pre) as Hin.
    { rewrite <- (elem_of_list_to_set (C := gset string)), <- Hdom.
      apply elem_of_dom. eauto. }
    apply list_elem_of_fmap in Hin as (prev & -> & Hin).
    apply list_elem_of_lookup in Hin as [j Hj].
    exists j, prev, res. split; [by eapply lookup_lt_Some|done]. }
  destruct (runStep_spec r step)
    as (new & Hr & Hf & Ht & Hsid & Hok & Hko).
  split; rewrite ?Hr.
  - rewrite dom_insert_L, Hdom. unfold stepIds.
    rewrite fmap_app, list_to_set_app_L. simpl.
    rewrite union_empty_r_L. apply (comm_L _).
  - intros i s Hi. apply lookup_snoc_Some in Hi as [[Hlt Hi] | [-> <-]].
    + destruct (Heach i s Hi) as (res & Hres & Hsid' & Hok' & Hko').
      assert (ws_id s ≠ ws_id step) as Hne.
      { intros Heq. apply Hfresh. rewrite <- Heq. unfold stepIds.
        apply list_elem_of_fmap. exists s. split; [done|].
        by eapply list_elem_of_lookup_2. }
      exists res. rewrite lookup_insert_ne by done.
      split; [done|]. split; [done|]. split.
      * intros Hs. destruct (Hok' Hs) as [He Hall]. split; [done|].
        intros depId Hin. apply succeededBefore_snoc; [done|lia|].
        by apply Hall.
      * intros Hs. destruct (Hko' Hs) as (depId & Hin & Hno & He).
        exists depId. split; [done|]. split; [|done].
        by rewrite succeededBefore_snoc by (done || lia).
    + exists new. rewrite lookup_insert_eq.
      split; [done|]. split; [done|]. split.
      * intros Hs. destruct (Hok Hs) as [He Hall]. split; [done|].
        intros depId Hin. rewrite succeededBefore_snoc by (done || lia).
        destruct (Hall depId Hin) as (res' & Hres' & Hok'). eauto.
      * intros Hs. destruct (Hko Hs) as (depId & Hin & Hno & He).
        exists depId. split; [done|]. split; [|done].
        rewrite succeededBefore_snoc by (done || lia).
        intros (j & prev & res' & _ & _ & _ & Hres' & Hok').
        apply Hno. eauto.
  - rewrite Hf, omap_app, omap_recordedError_insert, <- Hfail by done.
    f_equal. simpl. unfold recordedError. rewrite lookup_insert_eq. simpl.
    by destruct (error new).
  - rewrite Ht, Hticks, length_app. simpl. lia.
Qed.

Lemma ranThrough_all steps :
  NoDup (stepIds steps) →
  ranThrough steps
    (runSteps now steps {| ticks := 1; results := ∅; failures := [] |}).
Proof.
  induction steps as [|step pre IH] using rev_ind; intros Hnd.
  - apply ranThrough_nil.
  - unfold stepIds in Hnd. rewrite fmap_app in Hnd.
    apply NoDup_app in Hnd as (Hpre & Hfresh & _).
    unfold runSteps. rewrite fold_left_app. simpl.
    apply ranThrough_snoc; [|by apply IH].
    intros Hin. apply (Hfresh _ Hin). simpl. by left.
Qed.

End BuiltFacts.

(** C10. The [execute] method of a workflow built by the builder goes
    through every step and stores exactly one result per step: the keys of
    the result map are the step ids, one entry each. A step's result is a
    failure exactly when one of its dependencies is not the id of an
    earlier step with a successful result (missing or failed); the error
    list holds the errors of the failed steps, in declaration order, and a
    result carries an error exactly when it is a failure. *)
Theorem C10_built_execute_records_every_step
    (now : nat → Z) (b : WorkflowBuilder.t) :
  WorkflowBuilder.reachable b →
  let w := WorkflowBuilder.build b in
  let r := Built.execute now w in
  dom (stepResults r) = list_to_set (stepIds (wf_steps w))
  ∧ size (stepResults r) = length (wf_steps w)
  ∧ (∀ i step, wf_steps w !! i = Some step →
       ∃ res, stepResults r !! ws_id step = Some res
              ∧ stepId res = ws_id step
              ∧ (success res = false ↔
                 ∃ depId, depId ∈ ws_dependencies step
                   ∧ ¬ succeededBefore (wf_steps w) (stepResults r) i depId)
              ∧ (success res = false ↔ is_Some (error res)))
  ∧ errors r = omap (recordedError (stepResults r)) (wf_steps w).
Proof.
  intros Hb w r.
  pose proof (reachable_NoDup b Hb) as Hnd.
  destruct (ranThrough_all now (wf_steps w) Hnd) as [Hdom Heach Hfail _].
  assert (dom (stepResults r) = list_to_set (stepIds (wf_steps w))) as Hd
    by exact Hdom.
  split; [exact Hd|]. split.
  - rewrite <- size_dom, Hd, size_list_to_set by exact Hnd.
    unfold stepIds. by rewrite length_fmap.
  - split; [|exact Hfail].
    intros i step Hi.
    destruct (Heach i step Hi) as (res & Hres & Hsid & Hok & Hko).
    exists res. split; [exact Hres|]. split; [exact Hsid|]. split; split.
    + intros Hs. destruct (Hko Hs) as (depId & Hin & Hno & _). eauto.
    + intros (depId & Hin & Hno). destruct (success res) eqn:Es; [|done].
      destruct (Hok eq_refl) as [_ Hall]. destruct Hno. by apply Hall.
    + intros Hs. destruct (Hko Hs) as (depId & _ & _ & ->). eauto.
    + intros [e He]. destruct (success res) eqn:Es; [|done].
      destruct (Hok eq_refl) as [Hnone _]. congruence.
Qed.

Lemma C10_built_execute_records_every_step_witness :
  let w := WorkflowBuilder.build
             (WorkflowBuilder.chain
                [WorkflowBuilder.AddAnalysisStep [];
                 WorkflowBuilder.AddCustomStep "lint" [] ["ghost"];
                 WorkflowBuilder.AddTestStep []]
                (WorkflowBuilder.new None 0)) in
  let r := Built.execute (fun n => Z.of_nat n) w in
  size (stepResults r) = 3%nat
  ∧ errors r = omap (recordedError (stepResults r)) (wf_steps w).
Proof.
  destruct (C10_built_execute_records_every_step (fun n => Z.of_nat n)
              (WorkflowBuilder.chain
                 [WorkflowBuilder.AddAnalysisStep [];
                  WorkflowBuilder.AddCustomStep "lint" [] ["ghost"];
                  WorkflowBuilder.AddTestStep []]
                 (WorkflowBuilder.new None 0)))
    as (_ & Hsize & _ & Herr).
  - by exists None, 0,
        [WorkflowBuilder.AddAnalysisStep [];
         WorkflowBuilder.AddCustomStep "lint" [] ["ghost"];
         WorkflowBuilder.AddTestStep []].
  - split; [exact Hsize | exact Herr].
Defined.

(** ** FlowExecutor: the run always returns *)

Section ExecutorTotal.
Import FlowExecutor.
Variable now : nat → Z.
Variable options : Options.
Variable startTime : Z.
Variable sched : nat → list string → list string.
Variable steps : list WorkflowStep.

Local Abbreviation startStep := (startStep now options startTime steps).
Local Abbreviation onSettled := (onSettled now options).
Local Abbreviation settleOne := (settleOne now options).
Local Abbreviation awaitRace := (awaitRace now options sched).

Lemma allStepsSucceeded_spec (results : gmap string StepResult) :
  allStepsSucceeded results = true
  ↔ ∀ stepId res, results !! stepId = Some res → success res = true.
Proof.
  unfold allStepsSucceeded. rewrite forallb_forall. split.
  - intros H stepId res Hres. apply H. apply in_map_iff.
    exists (stepId, res). split; [done|].
    apply list_elem_of_In. by apply elem_of_map_to_list.
  - intros H res Hin. apply in_map_iff in Hin as ([stepId res'] & <- & Hin).
    apply list_elem_of_In, elem_of_map_to_list in Hin. by eapply H.
Qed.

(** Starting a step found in [steps]. *)
Lemma startStep_found p stepId step :
  findStep steps stepId = Some step →
  ∃ promise t',
    executeStepStart now options startTime step (ticks (mach p))
      = (promise, t')
    ∧ startStep p stepId
      = {| mach := {| completedSteps := completedSteps (mach p);
                      currentStep := Some step; ticks := t';
                      log := log (mach p) ++ [Started stepId];
                      unhandled := unhandled (mach p) |};
           pending := List.filter
                        (fun x => negb (bool_decide (x = stepId)))
                        (pending p);
           executing := executing p ++ [mkInFlight stepId step promise];
           round := round p |}.
Proof.
  intros Hf. unfold FlowExecutor.startStep. rewrite Hf.
  destruct (executeStepStart now options startTime step (ticks (mach p)))
    as [promise t']. eauto.
Qed.

Lemma startSteps_shape ready p :
  Forall (found steps) ready →
  let p1 := fold_left startStep ready p in
  pending p1
    = List.filter (fun x => negb (bool_decide (x ∈ ready))) (pending p)
  ∧ length (executing p1) = (length (executing p) + length ready)%nat
  ∧ completedSteps (mach p1) = completedSteps (mach p)
  ∧ round p1 = round p.
Proof.
  intros Hall. revert p. induction Hall as [|x ready [step Hx] _ IH];
    intros p; simpl.
  - split; [|by rewrite Nat.add_0_r].
    induction (pending p) as [|y l IHl]; [done|]. simpl. by f_equal.
  - destruct (startStep_found p x step Hx) as (promise & t' & _ & ->).
    match goal with |- context [fold_left _ ready ?q] =>
      destruct (IH q) as (Hp & He & Hc & Hr) end.
    simpl in *. rewrite Hp, He, Hc, Hr, length_app. simpl.
    split; [|split; [lia|done]].
    clear. induction (pending p) as [|y l IHl]; [done|]. simpl.
    destruct (bool_decide_reflect (y = x)) as [->|Hne]; simpl.
    + rewrite (bool_decide_eq_true_2 (x ∈ x :: ready)) by (by left).
      simpl. exact IHl.
    + destruct (bool_decide_reflect (y ∈ ready)) as [Hin|Hnin]; simpl.
      * rewrite (bool_decide_eq_true_2 (y ∈ x :: ready)) by (by right).
        simpl. exact IHl.
      * rewrite (bool_decide_eq_false_2 (y ∈ x :: ready)).
        2:{ intros [?|?]%elem_of_cons; done. }
        simpl. by rewrite IHl.
Qed.

Lemma readySteps_found p : Forall (found steps) (readySteps steps p).
Proof.
  apply Forall_forall. intros x Hin. apply list_elem_of_In in Hin.
  unfold readySteps in Hin. apply filter_In in Hin as [_ Hx].
  unfold found. by destruct (findStep steps x).
Qed.

Lemma filter_split_length {A} (f : A → bool) (l : list A) :
  (length (List.filter f l) + length (List.filter (fun x => negb (f x)) l)
   = length l)%nat.
Proof. induction l as [|x l IH]; [done|]. simpl. destruct (f x); simpl; lia. Qed.

(** After the start phase the ready steps have moved from [pending] to
    [executing]. *)
Lemma startReady_lengths p :
  let ready := readySteps steps p in
  let p1 := fold_left startStep ready p in
  (length (pending p1) + length ready = length (pending p))%nat
  ∧ length (executing p1) = (length (executing p) + length ready)%nat.
Proof.
  intros ready p1.
  destruct (startSteps_shape ready p (readySteps_found p))
    as (Hp & He & _ & _).
  split; [|exact He]. fold p1 in Hp. rewrite Hp.
  rewrite <- (filter_split_length
                (fun x => match findStep steps x with
                          | Some step =>
                              dependenciesMet step (completedSteps (mach p))
                          | None => false
                          end) (pending p)).
  fold (readySteps steps p). fold ready. rewrite Nat.add_comm. f_equal.
  apply (f_equal (@length string)).
  apply filter_ext_in. intros x Hx. f_equal.
  destruct (findStep steps x) as [step|] eqn:Ef.
  - destruct (dependenciesMet step (completedSteps (mach p))) eqn:Ed.
    + apply bool_decide_eq_true_2, list_elem_of_In, filter_In.
      split; [done|]. by rewrite Ef.
    + apply bool_decide_eq_false_2. intros Hin%list_elem_of_In.
      apply filter_In in Hin as [_ Hin]. rewrite Ef in Hin. congruence.
  - apply bool_decide_eq_false_2. intros Hin%list_elem_of_In.
    apply filter_In in Hin as [_ Hin]. by rewrite Ef in Hin.
Qed.

Lemma filter_length_le {A} (f : A → bool) (l : list A) :
  (length (List.filter f l) ≤ length l)%nat.
Proof. induction l as [|x l IH]; [done|]. simpl. destruct (f x); simpl; lia. Qed.

Lemma filter_length_lt {A} (f : A → bool) (l : list A) x :
  In x l → f x = false → (length (List.filter f l) < length l)%nat.
Proof.
  induction l as [|y l IH]; [done|]. intros [->|Hin] Hx; simpl.
  - rewrite Hx. pose proof (filter_length_le f l). lia.
  - specialize (IH Hin Hx). destruct (f y); simpl; lia.
Qed.

Lemma onSettled_shape e p :
  pending (onSettled e p) = pending p
  ∧ round (onSettled e p) = round p
  ∧ executing (onSettled e p)
    = List.filter (fun x => negb (bool_decide (if_id x = if_id e)))
                  (executing p).
Proof.
  unfold FlowExecutor.onSettled.
  by destruct (settlePromise now (if_step e) (if_promise e) (ticks (mach p))).
Qed.

Lemma settleOne_le p stepId :
  pending (settleOne p stepId) = pending p
  ∧ round (settleOne p stepId) = round p
  ∧ (length (executing (settleOne p stepId)) ≤ length (executing p))%nat.
Proof.
  unfold FlowExecutor.settleOne.
  destruct (List.find _ (executing p)) as [e|]; [|done].
  destruct (onSettled_shape e p) as (-> & -> & ->).
  split; [done|]. split; [done|]. apply filter_length_le.
Qed.

Lemma settleOne_lt p stepId :
  stepId ∈ map if_id (executing p) →
  (length (executing (settleOne p stepId)) < length (executing p))%nat.
Proof.
  intros Hin. apply list_elem_of_In, in_map_iff in Hin as (e & He & Hin).
  unfold FlowExecutor.settleOne.
  destruct (List.find _ (executing p)) as [e'|] eqn:Ef.
  - apply find_some in Ef as [Hin' Hid].
    destruct (onSettled_shape e' p) as (_ & _ & ->).
    apply (filter_length_lt _ _ e'); [done|].
    by rewrite bool_decide_eq_true_2.
  - apply (find_none _ _ Ef) in Hin.
    apply bool_decide_eq_false in Hin. done.
Qed.

Lemma settleMany_le ids p :
  pending (fold_left settleOne ids p) = pending p
  ∧ round (fold_left settleOne ids p) = round p
  ∧ (length (executing (fold_left settleOne ids p))
     ≤ length (executing p))%nat.
Proof.
  revert p. induction ids as [|x ids IH]; intros p; simpl; [done|].
  destruct (IH (settleOne p x)) as (-> & -> & Hle).
  destruct (settleOne_le p x) as (-> & -> & Hle'). split; [done|].
  split; [done|]. lia.
Qed.

Lemma settling_head n inflight :
  inflight ≠ [] →
  ∃ x rest, settling sched n inflight = x :: rest ∧ x ∈ inflight.
Proof.
  intros Hne. unfold settling.
  destruct (List.filter _ (sched n inflight)) as [|x rest] eqn:Ef.
  - destruct inflight as [|y l]; [done|]. exists y, []. simpl.
    split; [done|by left].
  - exists x, rest. split; [done|].
    assert (In x (List.filter (fun x => bool_decide (x ∈ inflight))
                              (sched n inflight))) as Hin
      by (rewrite Ef; by left).
    apply filter_In in Hin as [_ Hin]. by apply bool_decide_eq_true in Hin.
Qed.

(** Waiting for the race takes at least one step out of [executing]. *)
Lemma awaitRace_lt p :
  executing p ≠ [] →
  pending (awaitRace p) = pending p
  ∧ (length (executing (awaitRace p)) < length (executing p))%nat.
Proof.
  intros Hne. unfold FlowExecutor.awaitRace.
  destruct (settling_head (round p) (map if_id (executing p)))
    as (x & rest & -> & Hin).
  { by destruct (executing p). }
  simpl. destruct (settleMany_le rest (settleOne p x)) as (-> & _ & Hle).
  destruct (settleOne_le p x) as (-> & _ & _).
  pose proof (settleOne_lt p x Hin). split; [done|lia].
Qed.

(** The loop ends for every schedule once the fuel exceeds twice the
    number of pending steps plus the number of in-flight steps. *)
Lemma parallelLoop_total fuel p :
  (2 * length (pending p) + length (executing p) < fuel)%nat →
  is_Some (parallelLoop now options startTime sched fuel steps p).
Proof.
  revert p. induction fuel as [|fuel IH]; intros p Hfuel; [lia|].
  simpl.
  destruct (negb _) eqn:Hcond; [by eexists|].
  destruct (startReady_lengths p) as [Hp He].
  set (ready := readySteps steps p) in *.
  set (p1 := fold_left startStep ready p) in *.
  destruct (0 <? length (executing p1))%nat eqn:Hex.
  - apply Nat.ltb_lt in Hex.
    destruct (awaitRace_lt p1) as [Hp2 He2].
    { intros Hnil. rewrite Hnil in Hex. simpl in Hex. lia. }
    destruct (_ && _); [by eexists|].
    apply IH. simpl. rewrite Hp2. lia.
  - apply Nat.ltb_ge in Hex.
    destruct (_ && _) eqn:Hdead; [by eexists|].
    exfalso.
    assert (length ready = 0%nat) as Hr by lia.
    assert (length (executing p1) = 0%nat) as He1 by lia.
    rewrite Hr, He1 in Hdead. simpl in Hdead.
    rewrite ?bool_decide_eq_true_2 in Hdead by done. simpl in Hdead.
    apply negb_false_iff, orb_true_iff in Hcond as [Hc|Hc];
      apply Nat.ltb_lt in Hc; apply Nat.ltb_ge in Hdead; lia.
Qed.

Lemma executeParallel_total m :
  is_Some (executeParallel now options startTime sched steps m).
Proof.
  unfold executeParallel.
  match goal with |- context [parallelLoop _ _ _ _ ?f _ ?p] =>
    destruct (parallelLoop_total f p) as [[c p'] ->] end.
  - unfold parallelFuel. lia.
  - by eexists.
Qed.

End ExecutorTotal.

(** C1. Every call of [FlowExecutor.execute], in either mode, for every
    clock and every schedule, returns a [WorkflowResult]; its [success]
    flag is true exactly when its error list is empty and every result in
    its step-result map is a success. *)
Theorem C1_success_iff_no_error_and_all_steps_succeeded
    (now : nat → Z) (options : FlowExecutor.Options)
    (sched : nat → list string → list string) (workflow : Workflow) :
  ∃ r m,
    FlowExecutor.execute now options sched workflow = Some (r, m)
    ∧ (wr_success r = true
       ↔ errors r = []
         ∧ ∀ stepId res, stepResults r !! stepId = Some res →
                         success res = true).
Proof.
  unfold FlowExecutor.execute.
  assert (∃ c m,
    (if FlowExecutor.parallel options
     then FlowExecutor.executeParallel now options (now 0%nat) sched
            (wf_steps workflow)
            {| FlowExecutor.completedSteps := ∅;
               FlowExecutor.currentStep := None; FlowExecutor.ticks := 1;
               FlowExecutor.log := []; FlowExecutor.unhandled := [] |}
     else Some (FlowExecutor.executeSequential now options (now 0%nat)
                  (wf_steps workflow)
                  {| FlowExecutor.completedSteps := ∅;
                     FlowExecutor.currentStep := None; FlowExecutor.ticks := 1;
                     FlowExecutor.log := []; FlowExecutor.unhandled := [] |}))
    = Some (c, m)) as (c & m & ->).
  { destruct (FlowExecutor.parallel options).
    - match goal with |- context [FlowExecutor.executeParallel _ _ _ _ _ ?m0] =>
        destruct (executeParallel_total now options (now 0%nat) sched
                    (wf_steps workflow) m0) as [[c m] ->] end.
      eauto.
    - destruct (FlowExecutor.executeSequential _ _ _ _ _) as [c m]. eauto. }
  eexists _, m. split; [reflexivity|]. simpl.
  rewrite andb_true_iff, allStepsSucceeded_spec, bool_decide_eq_true.
  destruct c; simpl; intuition (try done; try discriminate).
Qed.

(** ** FlowExecutor: sequential mode *)

Section SequentialFacts.
Import FlowExecutor.
Variable now : nat → Z.
Variable options : Options.
Variable startTime : Z.


Lemma executeSequential_failed step rest m res t' :
  dependenciesMet step (completedSteps m) = true →
  executeStep now options startTime step (ticks m) = (res, t') →
  success res = false → continueOnError options = false →
  executeSequential now options startTime (step :: rest) m
  = (Thrown (mkError ("Step failed: " +:+ ws_name step)),
     recordStep step res t' m).
Proof.
  intros Hd He Hs Hc. simpl. rewrite Hd, He. simpl. unfold recordStep.
  by rewrite Hs, Hc.
Qed.

Lemma executeSequential_next step rest m res t' :
  dependenciesMet step (completedSteps m) = true →
  executeStep now options startTime step (ticks m) = (res, t') →
  success res = true ∨ continueOnError options = true →
  executeSequential now options startTime (step :: rest) m
  = executeSequential now options startTime rest (recordStep step res t' m).
Proof.
  intros Hd He Hs. simpl. rewrite Hd, He. simpl. unfold recordStep.
  destruct Hs as [Hs|Hs]; rewrite Hs; [done|]. by rewrite andb_false_r.
Qed.

(** When the timeout is exceeded [executeStep] does not reach the type
    dispatch: the result is a failure carrying the timeout error. *)
Lemma executeStep_timeout step t :
  timeout options < now (S t) - startTime →
  executeStep now options startTime step t
  = ({| stepId := ws_id step; success := false; output := None;
        duration := now (S (S t)) - now t;
        error := Some (mkError "Workflow execution timeout") |},
     S (S (S t))).
Proof.
  intros Hlt. unfold executeStep, executeStepStart.
  replace (now (S t) - startTime >? timeout options) with true; [done|].
  symmetry. apply Z.gtb_lt. lia.
Qed.

Lemma dependenciesMet_nil step completed :
  ws_dependencies step = [] → dependenciesMet step completed = true.
Proof. unfold dependenciesMet. by intros ->. Qed.

Lemma dependenciesMet_single step completed depId :
  ws_dependencies step = [depId] →
  dependenciesMet step completed
  = match completed !! depId with
    | Some res => success res
    | None => false
    end.
Proof.
  unfold dependenciesMet. intros ->. simpl.
  destruct (completed !! depId) as [res|]; [|done]. by rewrite andb_true_r.
Qed.

End SequentialFacts.

(** ** FlowExecutor: when a step succeeds and when it fails *)

Section StepOutcome.
Import FlowExecutor.
Variable now : nat → Z.
Variable options : Options.

Lemma executeStep_succeedsAt step t :
  succeedsAt now options step t →
  ∃ res, executeStep now options (now 0%nat) step t = (res, S (S (S t)))
         ∧ stepId res = ws_id step ∧ success res = true.
Proof.
  intros [Hnt Hty]. unfold executeStep, executeStepStart.
  replace (now (S t) - now 0%nat >? timeout options) with false.
  2:{ symmetry. rewrite Z.gtb_ltb. by apply Z.ltb_ge. }
  unfold settlePromise, executeStepFinish, executeStepByType.
  unfold FlowValidator.validTypes in Hty.
  repeat (apply elem_of_cons in Hty as [->|Hty]; [by eexists|]).
  by apply elem_of_nil in Hty.
Qed.

Lemma executeStep_failsAt step t :
  failsAt now options step t →
  ∃ res, executeStep now options (now 0%nat) step t = (res, S (S (S t)))
         ∧ stepId res = ws_id step ∧ success res = false.
Proof.
  intros Hfail.
  destruct (decide (timeout options < now (S t) - now 0%nat)) as [Hlt|Hge].
  { rewrite (executeStep_timeout now options (now 0%nat) step t Hlt).
    by eexists. }
  destruct Hfail as [Hlt|Hty]; [done|].
  unfold executeStep, executeStepStart.
  replace (now (S t) - now 0%nat >? timeout options) with false.
  2:{ symmetry. rewrite Z.gtb_ltb. apply Z.ltb_ge. lia. }
  unfold settlePromise, executeStepFinish, executeStepByType.
  unfold FlowValidator.validTypes in Hty.
  repeat (apply not_elem_of_cons in Hty as [? Hty]).
  rewrite !bool_decide_eq_false_2 by done. by eexists.
Qed.
End StepOutcome.

(** C2. Sequential mode, continue-on-error off, chain A→B→C. When A's
    execution succeeds and B's execution fails (its timeout check or its
    type dispatch throws), the run returns a failed workflow result: the
    result map holds exactly the results of A and B, B's result is
    stored as a failure and is the only failed one, C has no entry and
    was never started, and the error list is B's step failure. The
    clock is read once before the loop, A's [executeStep] starts after
    that read and makes three, so B's starts after four. *)
Theorem C2_fail_fast_stops_after_failed_step
    (now : nat → Z) (options : FlowExecutor.Options)
    (sched : nat → list string → list string)
    (wid wname : string) (descr : option string) (A B C : WorkflowStep) :
  isChain A B C →
  FlowExecutor.parallel options = false →
  FlowExecutor.continueOnError options = false →
  succeedsAt now options A 1 →
  failsAt now options B 4 →
  ∃ r m resB,
    FlowExecutor.execute now options sched
      (mkWorkflow wid wname descr [A; B; C]) = Some (r, m)
    ∧ wr_success r = false
    ∧ dom (stepResults r) = {[ws_id A; ws_id B]}
    ∧ stepResults r !! ws_id B = Some resB
    ∧ success resB = false
    ∧ stepResults r !! ws_id C = None
    ∧ (∀ stepId res, stepResults r !! stepId = Some res →
                     success res = false → stepId = ws_id B)
    ∧ (FlowExecutor.Started (ws_id C) ∉ FlowExecutor.log m)
    ∧ errors r = [mkError ("Step failed: " +:+ ws_name B)].
Proof.
  intros [HA HB HC HAB HAC HBC] Hpar Hcoe HokA HfailB.
  unfold FlowExecutor.execute. rewrite Hpar. cbn [wf_steps].
  set (m0 := FlowExecutor.mkMachine ∅ None 1 [] []).
  destruct (executeStep_succeedsAt now options A 1 HokA)
    as (rA & EA & _ & HsA).
  rewrite (executeSequential_next _ _ _ _ _ _ rA 4%nat)
    by (done || (by apply dependenciesMet_nil) || (by left)).
  set (m1 := recordStep A rA 4 m0).
  assert (FlowExecutor.dependenciesMet B (FlowExecutor.completedSteps m1)
          = true) as HdB.
  { rewrite (dependenciesMet_single _ _ _ HB). simpl.
    by rewrite lookup_insert_eq. }
  destruct (executeStep_failsAt now options B 4 HfailB)
    as (rB & EB & _ & HsB).
  rewrite (executeSequential_failed _ _ _ _ _ _ rB 7%nat) by done.
  eexists _, _, rB. split; [reflexivity|]. simpl.
  split; [done|]. split.
  { rewrite !dom_insert_L, dom_empty_L.
    rewrite union_empty_r_L. apply (comm_L _). }
  split; [by rewrite lookup_insert_eq|]. split; [done|]. split.
  { rewrite !lookup_insert_ne by done. apply lookup_empty. }
  split.
  { intros stepId res Hres Hfail.
    destruct (decide (stepId = ws_id B)) as [|Hne]; [done|].
    rewrite lookup_insert_ne in Hres by done.
    destruct (decide (stepId = ws_id A)) as [->|Hne'].
    - rewrite lookup_insert_eq in Hres. congruence.
    - rewrite lookup_insert_ne in Hres by done.
      by rewrite lookup_empty in Hres. }
  split; [|done].
  rewrite HsA. intros Hin.
  repeat (apply elem_of_cons in Hin as [Hin|Hin];
          [congruence|]).
  by apply elem_of_nil in Hin.
Qed.

Lemma C2_fail_fast_stops_after_failed_step_witness :
  ∃ r m resB,
    FlowExecutor.execute (fun n => Z.of_nat n)
      (FlowExecutor.new
         (FlowExecutor.mkExecutionOptions None (Some 3) None None))
      FlowExecutor.settleAll
      (mkWorkflow "w" "chain" None
         [mkStep "A" "analysis" "a" (Some []) [];
          mkStep "B" "fix" "b" (Some []) ["A"];
          mkStep "C" "test" "c" (Some []) ["B"]]) = Some (r, m)
    ∧ wr_success r = false
    ∧ stepResults r !! "B" = Some resB
    ∧ success resB = false
    ∧ stepResults r !! "C" = None
    ∧ errors r = [mkError "Step failed: b"].
Proof.
  destruct (C2_fail_fast_stops_after_failed_step (fun n => Z.of_nat n)
              (FlowExecutor.new
                 (FlowExecutor.mkExecutionOptions None (Some 3) None None))
              FlowExecutor.settleAll "w" "chain" None
              (mkStep "A" "analysis" "a" (Some []) [])
              (mkStep "B" "fix" "b" (Some []) ["A"])
              (mkStep "C" "test" "c" (Some []) ["B"]))
    as (r & m & resB & Hrun & Hs & _ & HB & HfB & HC & _ & _ & He).
  - by split.
  - reflexivity.
  - reflexivity.
  - split; [simpl; lia|].
    apply (bool_decide_unpack _). vm_compute. exact I.
  - left. simpl. lia.
  - exists r, m, resB. repeat split; assumption.
Defined.




(** C6, as amended. Sequential mode: when the timeout is already exceeded
    at the moment a step with met dependencies is started, the type
    dispatch is not reached and the step is stored in the result map as a
    failed result carrying the error "Workflow execution timeout". With
    continue-on-error off the run ends there with the error "Step failed:
    <name>" and no later step is started; with continue-on-error on the
    loop goes on with the next step. *)
Theorem C6_timeout_is_recorded_as_step_failure
    (now : nat → Z) (options : FlowExecutor.Options) (startTime : Z)
    (step : WorkflowStep) (rest : list WorkflowStep)
    (m : FlowExecutor.Machine) :
  FlowExecutor.dependenciesMet step (FlowExecutor.completedSteps m) = true →
  FlowExecutor.timeout options
    < now (S (FlowExecutor.ticks m)) - startTime →
  let res := timedOut now step (FlowExecutor.ticks m) in
  let m' := recordStep step res (S (S (S (FlowExecutor.ticks m)))) m in
  FlowExecutor.executeStep now options startTime step (FlowExecutor.ticks m)
  = (res, S (S (S (FlowExecutor.ticks m))))
  ∧ FlowExecutor.completedSteps m' !! ws_id step = Some res
  ∧ FlowExecutor.executeSequential now options startTime (step :: rest) m
    = if FlowExecutor.continueOnError options
      then FlowExecutor.executeSequential now options startTime rest m'
      else (FlowExecutor.Thrown (mkError ("Step failed: " +:+ ws_name step)),
            m').
Proof.
  intros Hd Hlt res m'.
  pose proof (executeStep_timeout now options startTime step
                (FlowExecutor.ticks m) Hlt) as He.
  split; [exact He|]. split; [apply lookup_insert_eq|].
  destruct (FlowExecutor.continueOnError options) eqn:Hcoe.
  - by rewrite (executeSequential_next _ _ _ _ _ _ _ _ Hd He (or_intror Hcoe)).
  - by rewrite (executeSequential_failed _ _ _ _ _ _ _ _ Hd He eq_refl Hcoe).
Qed.

Lemma C6_timeout_is_recorded_as_step_failure_witness :
  ∃ res m',
    FlowExecutor.executeSequential (fun n => 100 * Z.of_nat n)
      (FlowExecutor.new
         (FlowExecutor.mkExecutionOptions None (Some 10) None None))
      0 (mkStep "A" "analysis" "a" (Some []) [] :: [])
      (FlowExecutor.mkMachine ∅ None 1 [] [])
    = (FlowExecutor.Thrown (mkError "Step failed: a"), m')
    ∧ FlowExecutor.completedSteps m' !! "A" = Some res
    ∧ error res = Some (mkError "Workflow execution timeout").
Proof.
  pose proof (C6_timeout_is_recorded_as_step_failure
                (fun n => 100 * Z.of_nat n)
                (FlowExecutor.new
                   (FlowExecutor.mkExecutionOptions None (Some 10) None None))
                0 (mkStep "A" "analysis" "a" (Some []) []) []
                (FlowExecutor.mkMachine ∅ None 1 [] [])
                eq_refl ltac:(simpl; lia))
    as (_ & Hmap & Hrun).
  eexists _, _. split; [exact Hrun|]. split; [exact Hmap|reflexivity].
Defined.

(** C6 as stated fails. One step, timeout 10 ms, a clock that is at 0 when
    the run starts and at 200 when the step's timeout check reads it: the
    step is in the result map (as a failure), and the error list holds the
    step failure, not a timeout error. *)
Lemma C6_timed_out_step_is_in_the_result_map :
  ∃ r m,
    FlowExecutor.execute (fun n => 100 * Z.of_nat n)
      (FlowExecutor.new
         (FlowExecutor.mkExecutionOptions None (Some 10) None None))
      FlowExecutor.settleAll
      (mkWorkflow "w" "one step" None
         [mkStep "A" "analysis" "a" (Some []) []]) = Some (r, m)
    ∧ (∃ res, stepResults r !! "A" = Some res
              ∧ error res = Some (mkError "Workflow execution timeout"))
    ∧ errors r = [mkError "Step failed: a"]
    ∧ mkError "Workflow execution timeout" ∉ errors r.
Proof.
  eexists _, _. split; [vm_compute; reflexivity|].
  split; [eexists; split; [vm_compute; reflexivity|reflexivity]|].
  split; [reflexivity|].
  intros Hin. apply elem_of_cons in Hin as [Hin|Hin]; [discriminate Hin|].
  by apply elem_of_nil in Hin.
Qed.

(** ** FlowExecutor: parallel mode *)

Section ParallelFacts.
Import FlowExecutor.
Variable now : nat → Z.
Variable options : Options.
Variable startTime : Z.
Variable sched : nat → list string → list string.
Variable steps : list WorkflowStep.

Local Abbreviation startStep := (startStep now options startTime steps).
Local Abbreviation onSettled := (onSettled now options).
Local Abbreviation settleOne := (settleOne now options).
Local Abbreviation awaitRace := (awaitRace now options sched).

Lemma dependenciesMet_spec step completed :
  dependenciesMet step completed = true
  ↔ ∀ depId, depId ∈ ws_dependencies step →
             ∃ res, completed !! depId = Some res ∧ success res = true.
Proof.
  unfold dependenciesMet. rewrite forallb_forall. split.
  - intros H depId Hin. apply list_elem_of_In in Hin.
    specialize (H depId Hin).
    destruct (completed !! depId) as [res|]; [eauto|done].
  - intros H depId Hin. apply list_elem_of_In in Hin.
    by destruct (H depId Hin) as (res & -> & ->).
Qed.

Lemma ordered_startStep p stepId step :
  findStep steps stepId = Some step →
  dependenciesMet step (completedSteps (mach p)) = true →
  ordered steps (mach p) → ordered steps (mach (startStep p stepId)).
Proof.
  intros Hf Hmet [Hord Hrec].
  destruct (startStep_found now options startTime steps p stepId step Hf)
    as (promise & t' & _ & ->). simpl.
  split; simpl.
  - intros i sid s Hi Hfind depId Hin.
    apply lookup_snoc_Some in Hi as [[Hlt Hi] | [-> Heq]].
    + destruct (Hord i sid s Hi Hfind depId Hin) as (j & Hj & Hlog).
      exists j. split; [done|]. by apply lookup_app_l_Some.
    + injection Heq as <-. assert (s = step) as -> by congruence.
      destruct (proj1 (dependenciesMet_spec _ _) Hmet depId Hin)
        as (res & Hres & Hok).
      pose proof (Hrec depId res Hres Hok) as Hj.
      apply list_elem_of_lookup in Hj as [j Hj]. exists j.
      split; [by eapply lookup_lt_Some|]. by apply lookup_app_l_Some.
  - intros sid res Hres Hok. apply elem_of_app. left. by eapply Hrec.
Qed.

Lemma ordered_startSteps ready p :
  (∀ x, x ∈ ready →
        ∃ step, findStep steps x = Some step
                ∧ dependenciesMet step (completedSteps (mach p)) = true) →
  ordered steps (mach p) → ordered steps (mach (fold_left startStep ready p)).
Proof.
  revert p. induction ready as [|x ready IH]; intros p Hready Hord; [done|].
  simpl. destruct (Hready x) as (step & Hf & Hmet); [by left|].
  apply IH; [|by eapply ordered_startStep].
  intros y Hy. destruct (Hready y) as (s & Hs & Hm); [by right|].
  exists s. split; [done|].
  destruct (startStep_found now options startTime steps p x step Hf)
    as (promise & t' & _ & ->). done.
Qed.

Lemma ordered_onSettled e p :
  ordered steps (mach p) → ordered steps (mach (onSettled e p)).
Proof.
  intros [Hord Hrec]. unfold FlowExecutor.onSettled.
  destruct (settlePromise now (if_step e) (if_promise e) (ticks (mach p)))
    as [result t']. simpl. split; simpl.
  - intros i sid s Hi Hfind depId Hin.
    apply lookup_snoc_Some in Hi as [[Hlt Hi] | [_ Heq]]; [|done].
    destruct (Hord i sid s Hi Hfind depId Hin) as (j & Hj & Hlog).
    exists j. split; [done|]. by apply lookup_app_l_Some.
  - intros sid res Hres Hok. apply elem_of_app.
    destruct (decide (sid = if_id e)) as [->|Hne].
    + rewrite lookup_insert_eq in Hres. injection Hres as ->.
      right. rewrite Hok. by left.
    + rewrite lookup_insert_ne in Hres by done. left. by eapply Hrec.
Qed.

Lemma ordered_settleMany ids p :
  ordered steps (mach p) → ordered steps (mach (fold_left settleOne ids p)).
Proof.
  revert p. induction ids as [|x ids IH]; intros p Hord; [done|].
  simpl. apply IH. unfold FlowExecutor.settleOne.
  destruct (List.find _ (executing p)); [|done]. by apply ordered_onSettled.
Qed.

Lemma readySteps_met p x :
  x ∈ readySteps steps p →
  ∃ step, findStep steps x = Some step
          ∧ dependenciesMet step (completedSteps (mach p)) = true.
Proof.
  intros Hin. apply list_elem_of_In, filter_In in Hin as [_ Hx].
  destruct (findStep steps x) as [step|]; [eauto|done].
Qed.

(** The loop only throws the deadlock error, and keeps [ordered]. *)
Lemma parallelLoop_ordered fuel p c p' :
  parallelLoop now options startTime sched fuel steps p = Some (c, p') →
  ordered steps (mach p) →
  ordered steps (mach p')
  ∧ (c = Returned
     ∨ c = Thrown (mkError
             "Deadlock detected: steps have unmet dependencies")).
Proof.
  revert p. induction fuel as [|fuel IH]; intros p Hrun Hord; [done|].
  simpl in Hrun.
  destruct (negb _); [injection Hrun as <- <-; by eauto|].
  set (ready := readySteps steps p) in *.
  set (p1 := fold_left startStep ready p) in *.
  assert (ordered steps (mach p1)) as Hord1.
  { apply ordered_startSteps; [|done]. apply readySteps_met. }
  set (p2 := if (0 <? length (executing p1))%nat then awaitRace p1 else p1)
    in *.
  assert (ordered steps (mach p2)) as Hord2.
  { unfold p2. destruct (0 <? _)%nat; [|done].
    by apply ordered_settleMany. }
  destruct (_ && _); [injection Hrun as <- <-; by eauto|].
  by apply (IH (nextRound p2)).
Qed.

End ParallelFacts.

Lemma findStep_here step rest :
  findStep (step :: rest) (ws_id step) = Some step.
Proof. unfold findStep. simpl. by rewrite bool_decide_eq_true_2. Qed.

Lemma findStep_later step rest stepId :
  ws_id step ≠ stepId → findStep (step :: rest) stepId = findStep rest stepId.
Proof.
  intros Hne. unfold findStep. simpl. by rewrite bool_decide_eq_false_2.
Qed.

(** C3. Parallel mode, any clock, any schedule, any workflow: the run
    returns, and in its log every start of a step comes after a recorded
    success of each of the step's declared dependencies. For the diamond
    (A; B and C depend on A; D depends on B and C) this gives: B and C
    start only after A's success is recorded, D only after B's and C's. *)
Theorem C3_parallel_start_follows_dependency_success
    (now : nat → Z) (options : FlowExecutor.Options)
    (sched : nat → list string → list string) (workflow : Workflow) :
  FlowExecutor.parallel options = true →
  ∃ r m,
    FlowExecutor.execute now options sched workflow = Some (r, m)
    ∧ startsAfterDependencies (wf_steps workflow) (FlowExecutor.log m)
    ∧ ∀ A B C D,
        wf_steps workflow = [A; B; C; D] → isDiamond A B C D →
        startedAfterSuccessOf (FlowExecutor.log m) (ws_id B) (ws_id A)
        ∧ startedAfterSuccessOf (FlowExecutor.log m) (ws_id C) (ws_id A)
        ∧ startedAfterSuccessOf (FlowExecutor.log m) (ws_id D) (ws_id B)
        ∧ startedAfterSuccessOf (FlowExecutor.log m) (ws_id D) (ws_id C).
Proof.
  intros Hpar. unfold FlowExecutor.execute. rewrite Hpar.
  set (m0 := FlowExecutor.mkMachine ∅ None 1 [] []).
  destruct (executeParallel_total now options (now 0%nat) sched
              (wf_steps workflow) m0) as [[c m] Hrun].
  rewrite Hrun. eexists _, m. split; [reflexivity|].
  assert (startsAfterDependencies (wf_steps workflow) (FlowExecutor.log m))
    as Hord.
  { unfold FlowExecutor.executeParallel in Hrun.
    destruct (FlowExecutor.parallelLoop _ _ _ _ _ _ _) as [[c' p']|] eqn:Hloop;
      [|done].
    injection Hrun as <- <-.
    eapply parallelLoop_ordered in Hloop as [[Hord _] _]; [done|].
    split; simpl.
    - intros i sid s Hi. by rewrite lookup_nil in Hi.
    - intros sid res Hres. by rewrite lookup_empty in Hres. }
  split; [exact Hord|].
  intros A B C D Hsteps [HA HB HC HD Hids]. rewrite Hsteps in Hord.
  apply NoDup_cons in Hids as [HnA Hids].
  apply NoDup_cons in Hids as [HnB Hids].
  apply NoDup_cons in Hids as [HnC _].
  apply not_elem_of_cons in HnA as [HAB HnA].
  apply not_elem_of_cons in HnA as [HAC HnA].
  apply not_elem_of_cons in HnA as [HAD _].
  apply not_elem_of_cons in HnB as [HBC HnB].
  apply not_elem_of_cons in HnB as [HBD _].
  apply not_elem_of_cons in HnC as [HCD _].
  assert (findStep [A; B; C; D] (ws_id B) = Some B) as HfB.
  { rewrite findStep_later by done. apply findStep_here. }
  assert (findStep [A; B; C; D] (ws_id C) = Some C) as HfC.
  { rewrite !findStep_later by done. apply findStep_here. }
  assert (findStep [A; B; C; D] (ws_id D) = Some D) as HfD.
  { rewrite !findStep_later by done. apply findStep_here. }
  repeat split; intros i Hi.
  - apply (Hord i _ B Hi HfB). rewrite HB. by left.
  - apply (Hord i _ C Hi HfC). rewrite HC. by left.
  - apply (Hord i _ D Hi HfD). rewrite HD. by left.
  - apply (Hord i _ D Hi HfD). rewrite HD. right. by left.
Qed.

Lemma C3_parallel_start_follows_dependency_success_witness :
  ∃ r m,
    FlowExecutor.execute (fun _ => 0)
      (FlowExecutor.new
         (FlowExecutor.mkExecutionOptions None None None (Some true)))
      FlowExecutor.settleAll
      (mkWorkflow "w" "diamond" None
         [mkStep "A" "analysis" "a" (Some []) [];
          mkStep "B" "fix" "b" (Some []) ["A"];
          mkStep "C" "test" "c" (Some []) ["A"];
          mkStep "D" "deploy" "d" (Some []) ["B"; "C"]]) = Some (r, m)
    ∧ FlowExecutor.log m
      = [FlowExecutor.Started "A"; FlowExecutor.Recorded "A" true;
         FlowExecutor.Started "B"; FlowExecutor.Started "C";
         FlowExecutor.Recorded "B" true; FlowExecutor.Recorded "C" true;
         FlowExecutor.Started "D"; FlowExecutor.Recorded "D" true]
    ∧ startedAfterSuccessOf (FlowExecutor.log m) "D" "C".
Proof.
  pose proof (C3_parallel_start_follows_dependency_success (fun _ => 0)
                (FlowExecutor.new
                   (FlowExecutor.mkExecutionOptions None None None (Some true)))
                FlowExecutor.settleAll
                (mkWorkflow "w" "diamond" None
                   [mkStep "A" "analysis" "a" (Some []) [];
                    mkStep "B" "fix" "b" (Some []) ["A"];
                    mkStep "C" "test" "c" (Some []) ["A"];
                    mkStep "D" "deploy" "d" (Some []) ["B"; "C"]])
                eq_refl)
    as (r & m & Hrun & _ & Hdiamond).
  exists r, m. split; [exact Hrun|]. split.
  - vm_compute in Hrun. injection Hrun as <- <-. reflexivity.
  - assert (isDiamond (mkStep "A" "analysis" "a" (Some []) [])
                    (mkStep "B" "fix" "b" (Some []) ["A"])
                    (mkStep "C" "test" "c" (Some []) ["A"])
                    (mkStep "D" "deploy" "d" (Some []) ["B"; "C"])) as Hd.
    { split; [reflexivity | reflexivity | reflexivity | reflexivity |].
      apply (bool_decide_unpack _). vm_compute. exact I. }
    exact (proj2 (proj2 (proj2 (Hdiamond _ _ _ _ eq_refl Hd)))).
Defined.

(** C4: what the code does at the failing input. Parallel mode,
    continue-on-error off, a timeout of 3 ms, a clock that advances 1 ms
    per read, and the steps C, A, and B depending on C. C passes its
    timeout check (2 ms elapsed) and A does not (4 ms elapsed): A's promise
    is already resolved when its callback is attached, so A's failure is
    recorded first, then C's success. After A's failed result is recorded
    the loop goes on and starts B; the error list of the result is empty;
    and the throws in the completion callbacks are left as unhandled
    rejections. The same happens when A fails for having an unknown type.
    In parallel mode the only error the run itself can report is the
    deadlock. *)
Theorem C4_parallel_failure_neither_aborts_nor_is_handled :
  (∃ r m,
     FlowExecutor.execute (fun n => Z.of_nat n)
       (FlowExecutor.new
          (FlowExecutor.mkExecutionOptions None (Some 3) (Some false)
             (Some true)))
       (fun _ inflight => rev inflight)
       (mkWorkflow "w" "independent failure" None
          [mkStep "C" "test" "c" (Some []) [];
           mkStep "A" "analysis" "a" (Some []) [];
           mkStep "B" "fix" "b" (Some []) ["C"]]) = Some (r, m)
     ∧ FlowExecutor.log m
       = [FlowExecutor.Started "C"; FlowExecutor.Started "A";
          FlowExecutor.Recorded "A" false; FlowExecutor.Recorded "C" true;
          FlowExecutor.Started "B"; FlowExecutor.Recorded "B" false]
     ∧ errors r = []
     ∧ wr_success r = false
     ∧ FlowExecutor.unhandled m
       = [mkError "Step failed: a"; mkError "Step failed: b"])
  ∧ (∃ r m,
       FlowExecutor.execute (fun _ => 0)
         (FlowExecutor.new
            (FlowExecutor.mkExecutionOptions None None (Some false)
               (Some true)))
         FlowExecutor.settleAll
         (mkWorkflow "w" "independent failure" None
            [mkStep "A" "bogus" "a" (Some []) [];
             mkStep "C" "test" "c" (Some []) [];
             mkStep "B" "fix" "b" (Some []) ["C"]]) = Some (r, m)
       ∧ FlowExecutor.log m
         = [FlowExecutor.Started "A"; FlowExecutor.Started "C";
            FlowExecutor.Recorded "A" false; FlowExecutor.Recorded "C" true;
            FlowExecutor.Started "B"; FlowExecutor.Recorded "B" true]
       ∧ errors r = []
       ∧ wr_success r = false
       ∧ FlowExecutor.unhandled m = [mkError "Step failed: a"])
  ∧ ∀ now options sched workflow r m,
      FlowExecutor.parallel options = true →
      FlowExecutor.execute now options sched workflow = Some (r, m) →
      ∀ e, e ∈ errors r →
           e = mkError "Deadlock detected: steps have unmet dependencies".
Proof.
  split.
  { eexists _, _. split; [vm_compute; reflexivity|]. by repeat split. }
  split.
  { eexists _, _. split; [vm_compute; reflexivity|]. by repeat split. }
  intros now options sched workflow r m Hpar Hrun e He.
  unfold FlowExecutor.execute in Hrun. rewrite Hpar in Hrun.
  unfold FlowExecutor.executeParallel in Hrun.
  destruct (FlowExecutor.parallelLoop _ _ _ _ _ _ _) as [[c p']|] eqn:Hloop;
    [|done].
  injection Hrun as <- <-. simpl in He.
  eapply parallelLoop_ordered in Hloop as [_ [-> | ->]].
  - by apply elem_of_nil in He.
  - apply elem_of_cons in He as [->|He]; [done|]. by apply elem_of_nil in He.
  - split; simpl.
    + intros i sid s Hi. by rewrite lookup_nil in Hi.
    + intros sid res Hres. by rewrite lookup_empty in Hres.
Qed.

(** ** Cycle detection: the search always returns *)

Section DfsTotal.
Import FlowValidator.
Variable steps : list WorkflowStep.

Lemma universe_size : (size (universe steps) < dfsFuel steps)%nat.
Proof.
  unfold universe, dfsFuel.
  generalize (stepIds steps ++ allDependencies steps). intros l.
  enough (size (list_to_set l : gset string) ≤ length l)%nat by lia.
  induction l as [|x l IH].
  - rewrite list_to_set_nil, size_empty. done.
  - rewrite list_to_set_cons, size_union_alt, size_singleton.
    pose proof (subseteq_size (list_to_set l ∖ {[x]})
                  (list_to_set l : gset string)
                  ltac:(apply subseteq_difference_l; done)) as Hle.
    simpl. lia.
Qed.

Lemma step_id_in_universe step : step ∈ steps → ws_id step ∈ universe steps.
Proof.
  intros Hin. unfold universe. rewrite elem_of_list_to_set, elem_of_app.
  left. unfold stepIds. apply list_elem_of_fmap. eauto.
Qed.

Lemma dependency_in_universe step depId :
  step ∈ steps → depId ∈ ws_dependencies step → depId ∈ universe steps.
Proof.
  intros Hin Hdep. unfold universe. rewrite elem_of_list_to_set, elem_of_app.
  right. unfold allDependencies. apply list_elem_of_In, in_flat_map.
  exists step. by rewrite <- !list_elem_of_In.
Qed.

Lemma fold_graph_lookup (todo : list WorkflowStep)
    (g : gmap string (list string)) k ds :
  fold_left (fun g step => <[ws_id step := ws_dependencies step]> g) todo g
    !! k = Some ds →
  g !! k = Some ds
  ∨ ∃ step, step ∈ todo ∧ ws_id step = k ∧ ws_dependencies step = ds.
Proof.
  revert g. induction todo as [|s todo IH]; intros g Hl; simpl in Hl.
  - by left.
  - destruct (IH _ Hl) as [Hg | (step & Hin & Hid & Hds)].
    + destruct (decide (ws_id s = k)) as [Heq|Hne].
      * rewrite Heq, lookup_insert_eq in Hg. injection Hg as <-.
        right. exists s. split; [by left|done].
      * rewrite lookup_insert_ne in Hg by done. by left.
    + right. exists step. split; [by right|done].
Qed.

Lemma neighbors_in_universe nodeId depId :
  depId ∈ default [] (buildGraph steps !! nodeId) → depId ∈ universe steps.
Proof.
  destruct (buildGraph steps !! nodeId) as [ds|] eqn:Hl; simpl;
    [|by intros ?%elem_of_nil].
  intros Hin. apply fold_graph_lookup in Hl as [Hl | (step & Hs & _ & <-)].
  - by rewrite lookup_empty in Hl.
  - by eapply dependency_in_universe.
Qed.

Lemma unvisited_mono m m' :
  visited m ⊆ visited m' → (unvisited steps m' ≤ unvisited steps m)%nat.
Proof.
  intros Hsub. unfold unvisited. apply subseteq_size.
  intros x [Hx Hn]%elem_of_difference.
  apply elem_of_difference. split; [done|]. intros Hv. by apply Hn, Hsub.
Qed.

Lemma unvisited_enter nodeId m :
  nodeId ∈ universe steps → nodeId ∉ visited m →
  (unvisited steps (enter nodeId m) < unvisited steps m)%nat.
Proof.
  intros Hu Hn. unfold unvisited. apply subset_size. split.
  - intros x [Hx Hv]%elem_of_difference. apply elem_of_difference.
    split; [done|]. intros Hin. apply Hv. simpl. apply elem_of_union. by right.
  - intros Hsub. specialize (Hsub nodeId).
    rewrite !elem_of_difference in Hsub. simpl in Hsub.
    destruct Hsub as [_ Hsub]; [done|]. apply Hsub.
    apply elem_of_union. left. by apply elem_of_singleton.
Qed.

Lemma grows_trans s1 s2 s3 :
  grows steps s1 s2 → grows steps s2 s3 → grows steps s1 s3.
Proof. intros [H1 H1'] [H2 H2']. split; [by etrans|auto]. Qed.

Lemma neighborLoop_total rec fuel nodeId neighbors s :
  (∀ n s0, n ∈ universe steps → n ∉ visited (marks s0) →
           visited (marks s0) ⊆ universe steps →
           (unvisited steps (marks s0) ≤ fuel)%nat →
           ∃ b s1, rec n s0 = Some (b, s1) ∧ grows steps s0 s1) →
  (∀ n, n ∈ neighbors → n ∈ universe steps) →
  visited (marks s) ⊆ universe steps →
  (unvisited steps (marks s) ≤ fuel)%nat →
  ∃ b s', neighborLoop rec nodeId neighbors s = Some (b, s')
          ∧ grows steps s s'.
Proof.
  intros Hrec. revert s.
  induction neighbors as [|n neighbors IH]; intros s Hns Hsub Hfuel; simpl.
  - eexists _, _. split; [done|]. by split.
  - destruct (bool_decide_reflect (n ∈ visited (marks s))) as [Hv|Hv]; simpl.
    + destruct (bool_decide (n ∈ recursionStack (marks s))).
      * eexists _, _. split; [done|]. by split.
      * apply IH; [|done..]. intros x Hx. apply Hns. by right.
    + destruct (Hrec n s) as (b & s1 & -> & Hg); [apply Hns; by left|done..|].
      destruct b; [by eauto|].
      destruct (IH s1) as (b' & s2 & -> & Hg2).
      * intros x Hx. apply Hns. by right.
      * by apply Hg.
      * pose proof (unvisited_mono (marks s) (marks s1) (proj1 Hg)). lia.
      * eexists _, _. split; [done|]. by eapply grows_trans.
Qed.

Lemma dfs_total fuel nodeId s :
  nodeId ∈ universe steps → nodeId ∉ visited (marks s) →
  visited (marks s) ⊆ universe steps →
  (unvisited steps (marks s) ≤ fuel)%nat →
  ∃ b s', dfs fuel (buildGraph steps) nodeId s = Some (b, s')
          ∧ grows steps s s'.
Proof.
  revert nodeId s. induction fuel as [|fuel IH]; intros nodeId s Hu Hn Hsub Hf.
  - pose proof (unvisited_enter nodeId (marks s) Hu Hn). lia.
  - simpl.
    pose proof (unvisited_enter nodeId (marks s) Hu Hn) as Hlt.
    match goal with |- context [neighborLoop _ _ _ ?s1] =>
      destruct (neighborLoop_total (dfs fuel (buildGraph steps)) fuel nodeId
                  (default [] (buildGraph steps !! nodeId)) s1)
        as (b & s' & -> & Hg) end.
    + intros n s0 ????. by apply IH.
    + intros n Hin. by eapply neighbors_in_universe.
    + simpl. intros x [->%elem_of_singleton|Hx]%elem_of_union; auto.
    + simpl.
      change (unvisited steps (enter nodeId (marks s)) ≤ fuel)%nat. lia.
    + eexists _, _. split; [done|]. destruct Hg as [Hg1 Hg2]. simpl in *.
      split.
      * intros x Hx. apply Hg1, elem_of_union. by right.
      * intros Hs. apply Hg2.
        intros x [->%elem_of_singleton|Hx]%elem_of_union; auto.
Qed.

Lemma sweep_cons fuel graph step rest s :
  sweep fuel graph (step :: rest) s
  = if negb (bool_decide (ws_id step ∈ visited (marks s))) then
      match dfs fuel graph (ws_id step)
              {| marks := marks s; path := []; cycles := cycles s |} with
      | None => None
      | Some (_, s') => sweep fuel graph rest s'
      end
    else sweep fuel graph rest s.
Proof. done. Qed.

Lemma sweep_total todo s :
  (∀ step, step ∈ todo → step ∈ steps) →
  visited (marks s) ⊆ universe steps →
  ∃ s', sweep (dfsFuel steps) (buildGraph steps) todo s = Some s'.
Proof.
  revert s. induction todo as [|step todo IH]; intros s Htodo Hsub.
  - by eexists.
  - rewrite sweep_cons.
    destruct (bool_decide_reflect (ws_id step ∈ visited (marks s)))
      as [Hv|Hv]; cbn [negb].
    + apply IH; [|done]. intros x Hx. apply Htodo. by right.
    + destruct (dfs_total (dfsFuel steps) (ws_id step)
                  {| marks := marks s; path := []; cycles := cycles s |})
        as (b & s' & -> & Hg); simpl; try done.
      * apply step_id_in_universe, Htodo. by left.
      * pose proof universe_size.
        pose proof (subseteq_size (universe steps ∖ visited (marks s))
                    (universe steps)
                      ltac:(apply subseteq_difference_l; done)).
        unfold unvisited. lia.
      * apply IH; [|by apply Hg]. intros x Hx. apply Htodo. by right.
Qed.

(** [detectCircularDependencies] returns for every list of steps. *)
Lemma detectCircularDependencies_total :
  is_Some (detectCircularDependencies steps).
Proof.
  unfold detectCircularDependencies.
  destruct (sweep_total steps
              {| marks := noMarks; path := []; cycles := [] |})
    as [s' ->]; [done|done|]. by eexists.
Qed.

End DfsTotal.

Lemma validate_total workflow : is_Some (FlowValidator.validate workflow).
Proof.
  unfold FlowValidator.validate.
  destruct (detectCircularDependencies_total (wf_steps workflow)) as [c ->].
  by eexists.
Qed.

(** ** Cycle detection: the equations of the search *)

Section DfsEquations.
Import FlowValidator.
Variable rec : string → Search → option (bool * Search).
Variable nodeId : string.

Lemma dfs_S fuel graph node s :
  dfs (S fuel) graph node s
  = neighborLoop (dfs fuel graph) node (default [] (graph !! node))
      {| marks := enter node (marks s); path := path s ++ [node];
         cycles := cycles s |}.
Proof. done. Qed.

Lemma neighborLoop_nil s :
  neighborLoop rec nodeId [] s
  = Some (false, {| marks := leave nodeId (marks s);
                    path := removelast (path s); cycles := cycles s |}).
Proof. done. Qed.

Lemma neighborLoop_unvisited n rest s :
  n ∉ visited (marks s) →
  neighborLoop rec nodeId (n :: rest) s
  = match rec n s with
    | None => None
    | Some (true, s') => Some (true, s')
    | Some (false, s') => neighborLoop rec nodeId rest s'
    end.
Proof. intros H. simpl. by rewrite bool_decide_eq_false_2. Qed.

Lemma neighborLoop_back n rest s :
  n ∈ visited (marks s) → n ∈ recursionStack (marks s) →
  neighborLoop rec nodeId (n :: rest) s
  = Some (true, {| marks := marks s; path := path s;
                   cycles := cycles s
                     ++ [join " -> " (slice (path s)
                                        (indexOf (path s) n))] |}).
Proof. intros H1 H2. simpl. by rewrite !bool_decide_eq_true_2. Qed.

Lemma neighborLoop_cross n rest s :
  n ∈ visited (marks s) → n ∉ recursionStack (marks s) →
  neighborLoop rec nodeId (n :: rest) s = neighborLoop rec nodeId rest s.
Proof.
  intros H1 H2. simpl.
  by rewrite bool_decide_eq_true_2, bool_decide_eq_false_2.
Qed.

End DfsEquations.

Lemma string_app_assoc (s1 s2 s3 : string) :
  (s1 +:+ s2) +:+ s3 = s1 +:+ (s2 +:+ s3).
Proof.
  induction s1 as [|c s1 IH]; [done|].
  change (String c ((s1 +:+ s2) +:+ s3) = String c (s1 +:+ (s2 +:+ s3))).
  by rewrite IH.
Qed.

Lemma string_app_empty_r (s : string) : s +:+ "" = s.
Proof.
  induction s as [|c s IH]; [done|].
  change (String c (s +:+ "") = String c s). by rewrite IH.
Qed.

Lemma sweep_skip fuel graph step rest s :
  ws_id step ∈ visited (FlowValidator.marks s) →
  FlowValidator.sweep fuel graph (step :: rest) s
  = FlowValidator.sweep fuel graph rest s.
Proof. intros H. rewrite sweep_cons. by rewrite bool_decide_eq_true_2. Qed.

(** The search on the three-step cycle, started from A (the step declared
    first), finds the cycle; the order of the two other steps does not
    matter. *)
Lemma detect_three_cycle A B C steps :
  isCycle A B C →
  steps = [A; B; C] ∨ steps = [A; C; B] →
  FlowValidator.detectCircularDependencies steps
  = Some [ws_id A +:+ " -> " +:+ ws_id C +:+ " -> " +:+ ws_id B].
Proof.
  intros [HA HB HC HAB HAC HBC] Hsteps.
  unfold FlowValidator.detectCircularDependencies.
  assert (dfsFuel steps = 7%nat) as ->.
  { unfold dfsFuel, allDependencies.
    destruct Hsteps as [-> | ->]; simpl; by rewrite HA, HB, HC. }
  set (g := FlowValidator.buildGraph steps).
  assert (g !! ws_id A = Some [ws_id C]) as HgA.
  { unfold g, FlowValidator.buildGraph.
    destruct Hsteps as [-> | ->]; simpl;
      rewrite !lookup_insert_ne by done; by rewrite lookup_insert_eq, HA. }
  assert (g !! ws_id B = Some [ws_id A]) as HgB.
  { unfold g, FlowValidator.buildGraph.
    destruct Hsteps as [-> | ->]; simpl;
      rewrite ?lookup_insert_ne by done; by rewrite lookup_insert_eq, HB. }
  assert (g !! ws_id C = Some [ws_id B]) as HgC.
  { unfold g, FlowValidator.buildGraph.
    destruct Hsteps as [-> | ->]; simpl;
      rewrite ?lookup_insert_ne by done; by rewrite lookup_insert_eq, HC. }
  clearbody g.
  assert (∃ X Y, steps = [A; X; Y]
                 ∧ (ws_id X = ws_id B ∨ ws_id X = ws_id C)
                 ∧ (ws_id Y = ws_id B ∨ ws_id Y = ws_id C))
    as (X & Y & -> & HX & HY).
  { destruct Hsteps as [-> | ->]; eexists _, _; eauto. }
  rewrite sweep_cons.
  rewrite bool_decide_eq_false_2 by apply not_elem_of_empty. cbn [negb].
  rewrite dfs_S, HgA. cbn [default from_option id].
  rewrite neighborLoop_unvisited.
  2:{ simpl. intros [?%elem_of_singleton|?%elem_of_empty]%elem_of_union;
        congruence. }
  rewrite dfs_S, HgC. cbn [default from_option id].
  rewrite neighborLoop_unvisited.
  2:{ simpl. rewrite !elem_of_union, !elem_of_singleton, elem_of_empty.
      intros [?|[?|?]]; congruence. }
  rewrite dfs_S, HgB. cbn [default from_option id].
  rewrite neighborLoop_back.
  2,3: simpl; rewrite !elem_of_union, !elem_of_singleton; auto.
  cbn [FlowValidator.marks FlowValidator.path FlowValidator.cycles].
  rewrite !sweep_skip.
  2,3: simpl; rewrite !elem_of_union, !elem_of_singleton;
       destruct HX as [HX|HX]; destruct HY as [HY|HY]; rewrite ?HX, ?HY; auto.
  simpl. unfold FlowValidator.indexOf. simpl.
  rewrite bool_decide_eq_true_2 by done. done.
Qed.

(** The search on a step that depends on itself reports the step. *)
Lemma detect_self_loop S :
  ws_dependencies S = [ws_id S] →
  FlowValidator.detectCircularDependencies [S] = Some [ws_id S].
Proof.
  intros HS. unfold FlowValidator.detectCircularDependencies.
  assert (dfsFuel [S] = 3%nat) as ->.
  { unfold dfsFuel, allDependencies. simpl. by rewrite HS. }
  assert (FlowValidator.buildGraph [S] !! ws_id S = Some [ws_id S]) as Hg.
  { unfold FlowValidator.buildGraph. simpl. by rewrite lookup_insert_eq, HS. }
  rewrite sweep_cons.
  rewrite bool_decide_eq_false_2 by apply not_elem_of_empty. cbn [negb].
  rewrite dfs_S, Hg. cbn [default from_option id].
  rewrite neighborLoop_back.
  2,3: simpl; rewrite !elem_of_union, !elem_of_singleton; auto.
  simpl. unfold FlowValidator.indexOf. simpl.
  rewrite bool_decide_eq_true_2 by done. done.
Qed.

Lemma isCycle_rotate A B C : isCycle A B C → isCycle B C A.
Proof. intros [HA HB HC HAB HAC HBC]. by split. Qed.

(** What [validate] reports for the three-step cycle when A is declared
    first. *)
Lemma three_cycle_report wid wname descr A B C steps :
  isCycle A B C →
  steps = [A; B; C] ∨ steps = [A; C; B] →
  ∃ res e,
    FlowValidator.validate (mkWorkflow wid wname descr steps) = Some res
    ∧ FlowValidator.valid res = false
    ∧ e ∈ FlowValidator.errors res
    ∧ FlowValidator.ve_code e = "CIRCULAR_DEPS"
    ∧ FlowValidator.ve_message e
      = "Circular dependencies detected: "
          +:+ ws_id A +:+ " -> " +:+ ws_id C +:+ " -> " +:+ ws_id B
    ∧ occursIn (ws_id A) (FlowValidator.ve_message e)
    ∧ occursIn (ws_id B) (FlowValidator.ve_message e)
    ∧ occursIn (ws_id C) (FlowValidator.ve_message e).
Proof.
  intros Hcycle Hsteps.
  unfold FlowValidator.validate. cbn [wf_steps wf_id wf_name].
  rewrite (detect_three_cycle A B C steps Hcycle Hsteps).
  set (msg := "Circular dependencies detected: "
                +:+ ws_id A +:+ " -> " +:+ ws_id C +:+ " -> " +:+ ws_id B).
  eexists _, (FlowValidator.mkVError msg "CIRCULAR_DEPS" None).
  split; [reflexivity|]. cbn [FlowValidator.valid FlowValidator.errors].
  split.
  { apply bool_decide_eq_false_2. rewrite !length_app. simpl. lia. }
  split.
  { rewrite !elem_of_app. do 4 right. by left. }
  split; [done|]. split; [done|].
  cbn [FlowValidator.ve_message]. unfold msg. repeat split.
  - by eexists _, _.
  - exists ("Circular dependencies detected: "
              +:+ ws_id A +:+ " -> " +:+ ws_id C +:+ " -> "), "".
    by rewrite string_app_empty_r, !string_app_assoc.
  - exists ("Circular dependencies detected: " +:+ ws_id A +:+ " -> "),
           (" -> " +:+ ws_id B).
    by rewrite !string_app_assoc.
Qed.

(** C7. [validate] returns for every workflow (the depth-first search
    ends on every finite dependency graph, self-loops included: a step
    that depends on itself is reported as the cycle made of its id). For
    a workflow whose steps are A, B, C, declared in any order and forming
    the cycle A→B→C→A, it reports [valid = false] with a CIRCULAR_DEPS
    error whose message names the three step ids; declared in the order
    A, B, C the message is "Circular dependencies detected: A -> C -> B". *)
Theorem C7_three_cycle_is_reported
    (wid wname : string) (descr : option string) (A B C : WorkflowStep)
    (steps : list WorkflowStep) :
  isCycle A B C →
  steps ≡ₚ [A; B; C] →
  (∀ workflow, is_Some (FlowValidator.validate workflow))
  ∧ (∀ S, ws_dependencies S = [ws_id S] →
          FlowValidator.detectCircularDependencies [S] = Some [ws_id S])
  ∧ ∃ res e,
      FlowValidator.validate (mkWorkflow wid wname descr steps) = Some res
      ∧ FlowValidator.valid res = false
      ∧ e ∈ FlowValidator.errors res
      ∧ FlowValidator.ve_code e = "CIRCULAR_DEPS"
      ∧ (steps = [A; B; C] →
         FlowValidator.ve_message e
         = "Circular dependencies detected: "
             +:+ ws_id A +:+ " -> " +:+ ws_id C +:+ " -> " +:+ ws_id B)
      ∧ occursIn (ws_id A) (FlowValidator.ve_message e)
      ∧ occursIn (ws_id B) (FlowValidator.ve_message e)
      ∧ occursIn (ws_id C) (FlowValidator.ve_message e).
Proof.
  intros Hcycle Hperm. split; [exact validate_total|].
  split; [exact detect_self_loop|].
  pose proof (isCycle_rotate _ _ _ Hcycle) as Hcycle'.
  pose proof (isCycle_rotate _ _ _ Hcycle') as Hcycle''.
  symmetry in Hperm. apply permutations_Permutation in Hperm.
  cbn in Hperm.
  repeat (apply elem_of_cons in Hperm as [Hperm|Hperm]);
    [..|by apply elem_of_nil in Hperm].
  - destruct (three_cycle_report wid wname descr A B C steps Hcycle)
      as (res & e & Hv & Hf & Hin & Hc & Hm & HoA & HoB & HoC); [by left|].
    exists res, e. by repeat split.
  - destruct (three_cycle_report wid wname descr B C A steps Hcycle')
      as (res & e & Hv & Hf & Hin & Hc & Hm & HoB & HoC & HoA); [by right|].
    exists res, e. repeat split; try done.
    intros Heq. rewrite Heq in Hperm. injection Hperm as HBA _.
    destruct Hcycle as [_ _ _ HAB _ _]. by rewrite HBA in HAB.
  - destruct (three_cycle_report wid wname descr B C A steps Hcycle')
      as (res & e & Hv & Hf & Hin & Hc & Hm & HoB & HoC & HoA); [by left|].
    exists res, e. repeat split; try done.
    intros Heq. rewrite Heq in Hperm. injection Hperm as HBA _.
    destruct Hcycle as [_ _ _ HAB _ _]. by rewrite HBA in HAB.
  - destruct (three_cycle_report wid wname descr A B C steps Hcycle)
      as (res & e & Hv & Hf & Hin & Hc & Hm & HoA & HoB & HoC); [by right|].
    exists res, e. by repeat split.
  - destruct (three_cycle_report wid wname descr C A B steps Hcycle'')
      as (res & e & Hv & Hf & Hin & Hc & Hm & HoC & HoA & HoB); [by left|].
    exists res, e. repeat split; try done.
    intros Heq. rewrite Heq in Hperm. injection Hperm as HCA _.
    destruct Hcycle as [_ _ _ _ HAC _]. by rewrite HCA in HAC.
  - destruct (three_cycle_report wid wname descr C A B steps Hcycle'')
      as (res & e & Hv & Hf & Hin & Hc & Hm & HoC & HoA & HoB); [by right|].
    exists res, e. repeat split; try done.
    intros Heq. rewrite Heq in Hperm. injection Hperm as HCA _.
    destruct Hcycle as [_ _ _ _ HAC _]. by rewrite HCA in HAC.
Qed.

Lemma C7_three_cycle_is_reported_witness :
  ∃ res,
    FlowValidator.validate
      (mkWorkflow "w" "cycle" None
         [mkStep "A" "custom" "a" (Some []) ["C"];
          mkStep "B" "custom" "b" (Some []) ["A"];
          mkStep "C" "custom" "c" (Some []) ["B"]]) = Some res
    ∧ FlowValidator.valid res = false
    ∧ FlowValidator.mkVError "Circular dependencies detected: A -> C -> B"
        "CIRCULAR_DEPS" None ∈ FlowValidator.errors res.
Proof.
  pose proof (C7_three_cycle_is_reported "w" "cycle" None
                (mkStep "A" "custom" "a" (Some []) ["C"])
                (mkStep "B" "custom" "b" (Some []) ["A"])
                (mkStep "C" "custom" "c" (Some []) ["B"])
                [mkStep "A" "custom" "a" (Some []) ["C"];
                 mkStep "B" "custom" "b" (Some []) ["A"];
                 mkStep "C" "custom" "c" (Some []) ["B"]]
                ltac:(by split) ltac:(reflexivity))
    as (_ & _ & res & e & Hrun & Hvalid & Hin & Hcode & Hmsg & _).
  exists res. split; [exact Hrun|]. split; [exact Hvalid|].
  specialize (Hmsg eq_refl).
  destruct e as [m c sid]. simpl in Hcode, Hmsg. subst m c.
  vm_compute in Hrun. injection Hrun as <-.
  apply list_elem_of_singleton in Hin. injection Hin as ->.
  by apply list_elem_of_singleton.
Defined.

(** ** The builder's cycle check against the validator's *)

Section CycleChecksAgree.
Import FlowValidator.
Variable steps : list WorkflowStep.
Hypothesis ids_distinct : NoDup (stepIds steps).

Lemma fold_graph_NoDup (todo : list WorkflowStep)
    (g : gmap string (list string)) k :
  NoDup (stepIds todo) →
  fold_left (fun g step => <[ws_id step := ws_dependencies step]> g) todo g
    !! k
  = match findStep todo k with
    | Some step => Some (ws_dependencies step)
    | None => g !! k
    end.
Proof.
  revert g. induction todo as [|s todo IH]; intros g Hnd; [done|].
  unfold stepIds in Hnd. rewrite fmap_cons in Hnd.
  apply NoDup_cons in Hnd as [Hfresh Hnd]. cbn [fold_left].
  rewrite IH by done.
  destruct (decide (ws_id s = k)) as [<-|Hne].
  - rewrite findStep_here.
    destruct (findStep todo (ws_id s)) as [s'|] eqn:Hf.
    + exfalso. apply Hfresh. apply find_some in Hf as [Hin Hid].
      apply bool_decide_eq_true in Hid. rewrite <- Hid.
      apply list_elem_of_fmap. exists s'. by rewrite list_elem_of_In.
    + by rewrite lookup_insert_eq.
  - rewrite findStep_later by done.
    destruct (findStep todo k); [done|]. by rewrite lookup_insert_ne.
Qed.

(** With distinct ids the graph holds, for every id, the dependency list
    that [steps.find] reaches. *)
Lemma graph_neighbors k :
  default [] (buildGraph steps !! k)
  = match findStep steps k with
    | Some step => ws_dependencies step
    | None => []
    end.
Proof.
  unfold buildGraph. rewrite fold_graph_NoDup by done.
  destruct (findStep steps k); [done|]. by rewrite lookup_empty.
Qed.

Lemma depLoop_sim recB recV nodeId deps s :
  (∀ n s0, recB n (marks s0) = seen <$> recV n s0) →
  BuilderValidate.depLoop recB nodeId deps (marks s)
  = seen <$> neighborLoop recV nodeId deps s.
Proof.
  intros Hrec. revert s. induction deps as [|d deps IH]; intros s; [done|].
  simpl. destruct (negb _).
  - rewrite Hrec. destruct (recV d s) as [[[] s1]|]; simpl; [done| |done].
    apply IH.
  - destruct (bool_decide _); [done|]. apply IH.
Qed.

Lemma hasCycle_sim fuel nodeId s :
  BuilderValidate.hasCycle fuel steps nodeId (marks s)
  = seen <$> dfs fuel (buildGraph steps) nodeId s.
Proof.
  revert nodeId s. induction fuel as [|fuel IH]; intros nodeId s; [done|].
  rewrite dfs_S, graph_neighbors. simpl.
  destruct (findStep steps nodeId) as [step|].
  - apply (depLoop_sim (BuilderValidate.hasCycle fuel steps)
             (dfs fuel (buildGraph steps)) nodeId (ws_dependencies step)
             {| marks := enter nodeId (marks s);
                path := path s ++ [nodeId]; cycles := cycles s |}).
    exact IH.
  - done.
Qed.

Lemma neighborLoop_cycles recV nodeId deps s b s' :
  (∀ n s0 b0 s1, recV n s0 = Some (b0, s1) → cyclesAfter s0 s1 b0) →
  neighborLoop recV nodeId deps s = Some (b, s') → cyclesAfter s s' b.
Proof.
  intros Hrec. revert s. induction deps as [|d deps IH]; intros s Hrun.
  - injection Hrun as <- <-. done.
  - simpl in Hrun. destruct (negb _).
    + destruct (recV d s) as [[[] s1]|] eqn:Hd; [| |done].
      * injection Hrun as <- <-. by apply (Hrec d s true).
      * pose proof (Hrec d s false s1 Hd) as Hc. simpl in Hc.
        specialize (IH s1 Hrun). unfold cyclesAfter in *.
        destruct b; [done|congruence].
    + destruct (bool_decide _); [|by apply IH].
      injection Hrun as <- <-. simpl. by destruct (cycles s).
Qed.

Lemma dfs_cycles fuel graph nodeId s b s' :
  dfs fuel graph nodeId s = Some (b, s') → cyclesAfter s s' b.
Proof.
  revert nodeId s b s'. induction fuel as [|fuel IH];
    intros nodeId s b s' Hrun; [done|].
  rewrite dfs_S in Hrun.
  apply neighborLoop_cycles in Hrun; [done|]. intros n s0 b0 s1. apply IH.
Qed.

Lemma sweep_keeps_cycles fuel graph todo s s' :
  sweep fuel graph todo s = Some s' → cycles s ≠ [] → cycles s' ≠ [].
Proof.
  revert s. induction todo as [|step todo IH]; intros s Hrun Hne.
  - by injection Hrun as <-.
  - rewrite sweep_cons in Hrun. destruct (negb _); [|by eapply IH].
    destruct (dfs _ _ _ _) as [[b s1]|] eqn:Hd; [|done].
    apply (IH s1 Hrun). apply dfs_cycles in Hd. unfold cyclesAfter in Hd.
    simpl in Hd. destruct b; [done|congruence].
Qed.

(** The builder's loop answers [true] exactly when the validator's loop
    ends with a cycle in its list. *)
Lemma scan_sweep fuel todo s s' :
  cycles s = [] →
  sweep fuel (buildGraph steps) todo s = Some s' →
  BuilderValidate.scan fuel steps todo (marks s)
  = Some (negb (bool_decide (cycles s' = []))).
Proof.
  revert s. induction todo as [|step todo IH]; intros s Hnil Hrun.
  - injection Hrun as <-. simpl. by rewrite bool_decide_eq_true_2.
  - rewrite sweep_cons in Hrun. simpl.
    destruct (negb (bool_decide (ws_id step ∈ visited (marks s))));
      [|by apply IH].
    destruct (dfs _ _ _ _) as [[b s1]|] eqn:Hd; [|done].
    change (marks s)
      with (marks {| marks := marks s; path := []; cycles := cycles s |}).
    rewrite hasCycle_sim, Hd. simpl.
    pose proof (dfs_cycles _ _ _ _ _ _ Hd) as Hc. unfold cyclesAfter in Hc.
    simpl in Hc. destruct b.
    + pose proof (sweep_keeps_cycles _ _ _ _ _ Hrun Hc).
      by rewrite bool_decide_eq_false_2.
    + apply IH; [congruence|done].
Qed.

End CycleChecksAgree.

(** ** When the validator accepts a workflow *)

Lemma elem_of_if_singleton {A} (c : bool) (x y : A) :
  x ∈ (if c then [y] else []) ↔ c = true ∧ x = y.
Proof.
  destruct c.
  - rewrite list_elem_of_singleton. split; [done|by intros [_ ?]].
  - split; [by intros ?%elem_of_nil|by intros [? _]].
Qed.

Section ValidatorVerdict.
Import FlowValidator.

Lemma flat_map_nil {A B} (f : A → list B) (l : list A) :
  flat_map f l = [] ↔ ∀ x, x ∈ l → f x = [].
Proof.
  induction l as [|a l IH]; simpl.
  - split; [|done]. intros _ x Hx. by apply elem_of_nil in Hx.
  - rewrite app_nil, IH. split.
    + intros [Ha Hl] x [->|Hx]%elem_of_cons; auto.
    + intros H. split; [apply H; by left|]. intros x Hx. apply H. by right.
Qed.

Lemma depExists_spec depId (allSteps : list WorkflowStep) :
  existsb (fun s => bool_decide (ws_id s = depId)) allSteps = true
  ↔ depId ∈ stepIds allSteps.
Proof.
  rewrite existsb_exists. unfold stepIds. rewrite list_elem_of_fmap. split.
  - intros (s & Hin & Hid). apply bool_decide_eq_true in Hid.
    exists s. by rewrite list_elem_of_In.
  - intros (s & -> & Hin). exists s. rewrite <- list_elem_of_In.
    split; [done|]. by apply bool_decide_eq_true.
Qed.

(** A step passes [validateStep] exactly when its id and type are not
    empty, its name is not blank, and each dependency names a step. *)
Lemma validateStep_no_error step allSteps :
  errors (validateStep step allSteps) = []
  ↔ ws_id step ≠ "" ∧ blank (ws_name step) = false ∧ ws_type step ≠ ""
    ∧ ∀ depId, depId ∈ ws_dependencies step → depId ∈ stepIds allSteps.
Proof.
  unfold validateStep. cbn [errors]. rewrite !app_nil, flat_map_nil.
  assert (∀ (P : Prop) `{Decision P} (e : ValidationError),
            (if bool_decide P then [e] else []) = [] ↔ ¬ P) as Hif.
  { intros P ? e. destruct (bool_decide_reflect P); split; done. }
  rewrite !Hif.
  assert ((if blank (ws_name step)
           then [mkVError "Step must have a name" "MISSING_STEP_NAME"
                   (Some (ws_id step))]
           else []) = [] ↔ blank (ws_name step) = false) as ->.
  { destruct (blank (ws_name step)); split; done. }
  assert ((∀ depId, depId ∈ ws_dependencies step →
             (if negb (existsb (fun s => bool_decide (ws_id s = depId))
                         allSteps)
              then [mkVError ("Step depends on non-existent step: "
                                +:+ depId)
                      "INVALID_DEPENDENCY" (Some (ws_id step))]
              else []) = [])
          ↔ ∀ depId, depId ∈ ws_dependencies step →
                     depId ∈ stepIds allSteps) as ->; [|done].
  split; intros H depId Hin; specialize (H depId Hin).
  - apply depExists_spec. by destruct (existsb _ allSteps).
  - apply depExists_spec in H. by rewrite H.
Qed.

(** [validate] accepts a workflow exactly when its id is not empty, its
    name is not blank, it has a step, every step passes [validateStep],
    and the cycle search finds nothing. *)
Lemma validate_valid workflow res :
  validate workflow = Some res →
  valid res = true
  ↔ wf_id workflow ≠ "" ∧ blank (wf_name workflow) = false
    ∧ wf_steps workflow ≠ []
    ∧ (∀ step, step ∈ wf_steps workflow →
               errors (validateStep step (wf_steps workflow)) = [])
    ∧ detectCircularDependencies (wf_steps workflow) = Some [].
Proof.
  unfold validate.
  destruct (detectCircularDependencies (wf_steps workflow))
    as [circularDeps|]; [|done].
  intros [= <-]. cbn [valid].
  rewrite bool_decide_eq_true, length_zero_iff_nil, !app_nil, flat_map_nil.
  assert (∀ (P : Prop) `{Decision P} (e : ValidationError),
            (if bool_decide P then [e] else []) = [] ↔ ¬ P) as Hif.
  { intros P ? e. destruct (bool_decide_reflect P); split; done. }
  rewrite !Hif, length_zero_iff_nil.
  assert ((if blank (wf_name workflow)
           then [mkVError "Workflow must have a name" "MISSING_NAME" None]
           else []) = [] ↔ blank (wf_name workflow) = false) as ->.
  { destruct (blank (wf_name workflow)); split; done. }
  assert ((∀ r, r ∈ map (fun step => validateStep step (wf_steps workflow))
                      (wf_steps workflow) → errors r = [])
          ↔ ∀ step, step ∈ wf_steps workflow →
                    errors (validateStep step (wf_steps workflow)) = [])
    as ->.
  { split.
    - intros H step Hin. apply H. apply list_elem_of_In, in_map_iff.
      exists step. split; [done|]. by apply list_elem_of_In.
    - intros H r Hin. apply list_elem_of_In, in_map_iff in Hin
        as (step & <- & Hin). apply H. by apply list_elem_of_In. }
  assert ((if (0 <? length circularDeps)%nat
           then [mkVError ("Circular dependencies detected: "
                             +:+ join ", " circularDeps)
                   "CIRCULAR_DEPS" None]
           else []) = [] ↔ Some circularDeps = Some []) as ->; [|done].
  destruct circularDeps; simpl; split; done.
Qed.

End ValidatorVerdict.

(** ** The builder's [validate] against [FlowValidator.validate] *)

Section BuilderAgainstValidator.
Import WorkflowBuilder.

Lemma apply_workflowId c b : workflowId (apply c b) = workflowId b.
Proof. by destruct c. Qed.

Lemma reachable_workflowId b : reachable b → workflowId b ≠ "".
Proof.
  intros (name & stamp & cs & ->).
  induction cs as [|c cs IH] using rev_ind; [done|].
  by rewrite chain_snoc, apply_workflowId.
Qed.

Lemma apply_steps_type c b :
  steps (apply c b) = steps b
  ∨ ∃ step, steps (apply c b) = steps b ++ [step] ∧ ws_type step ≠ "".
Proof. destruct c; simpl; eauto. Qed.

Lemma reachable_types b step :
  reachable b → step ∈ steps b → ws_type step ≠ "".
Proof.
  intros (name & stamp & cs & ->). revert step.
  induction cs as [|c cs IH] using rev_ind; intros step Hin.
  - by apply elem_of_nil in Hin.
  - rewrite chain_snoc in Hin.
    destruct (apply_steps_type c (chain cs (new name stamp)))
      as [Heq | (s & Heq & Hty)]; rewrite Heq in Hin; [by eauto|].
    apply elem_of_app in Hin as [Hin | ->%list_elem_of_singleton];
      [by eauto|done].
Qed.

Lemma reachable_step_ids b step :
  reachable b → step ∈ steps b → ws_id step ≠ "".
Proof.
  intros Hb [i Hi]%list_elem_of_lookup.
  rewrite (reachable_ids b Hb i step Hi). apply step_id_nonempty.
Qed.

(** On a reachable builder both searches return, and the builder reports
    a cycle exactly when the validator's list of cycles is not empty. *)
Lemma builder_scan b :
  reachable b →
  ∃ found,
    FlowValidator.detectCircularDependencies (steps b) = Some found
    ∧ BuilderValidate.scan (dfsFuel (steps b)) (steps b) (steps b) noMarks
      = Some (negb (bool_decide (found = []))).
Proof.
  intros Hb. unfold FlowValidator.detectCircularDependencies.
  destruct (sweep_total (steps b) (steps b)
              {| FlowValidator.marks := noMarks; FlowValidator.path := [];
                 FlowValidator.cycles := [] |}) as [s' Hs]; [done|done|].
  rewrite Hs. exists (FlowValidator.cycles s'). split; [done|].
  exact (scan_sweep (steps b) (reachable_NoDup b Hb) (dfsFuel (steps b))
           (steps b)
           {| FlowValidator.marks := noMarks; FlowValidator.path := [];
              FlowValidator.cycles := [] |} s' eq_refl Hs).
Qed.

End BuilderAgainstValidator.

(** C8, as amended. For every workflow assembled by the builder the two
    checks return, and [FlowValidator.validate] accepts the built workflow
    exactly when the builder's [validate()] accepts it and, in addition,
    the workflow name and every step name are not blank (blank: empty, or
    made only of the white space that [trim] strips) and every
    dependency id names a step of the workflow. So the validator's verdict
    implies the builder's; and the two agree on the checks they share:
    one reports the empty-workflow error exactly when the other does, and
    one reports a circular dependency exactly when the other does. *)
Theorem C8_builder_validate_is_the_weaker_check (b : WorkflowBuilder.t) :
  WorkflowBuilder.reachable b →
  ∃ rb rv,
    BuilderValidate.validate b = Some rb
    ∧ FlowValidator.validate (WorkflowBuilder.build b) = Some rv
    ∧ (FlowValidator.valid rv = true
       ↔ BuilderValidate.valid rb = true
         ∧ FlowValidator.blank (WorkflowBuilder.workflowName b) = false
         ∧ ∀ step, step ∈ WorkflowBuilder.steps b →
             FlowValidator.blank (ws_name step) = false
             ∧ ∀ depId, depId ∈ ws_dependencies step →
                        depId ∈ stepIds (WorkflowBuilder.steps b))
    ∧ (FlowValidator.valid rv = true → BuilderValidate.valid rb = true)
    ∧ ("Workflow must have at least one step" ∈ BuilderValidate.errors rb
       ↔ FlowValidator.mkVError "Workflow must have at least one step"
           "NO_STEPS" None ∈ FlowValidator.errors rv)
    ∧ ("Workflow contains circular dependencies" ∈ BuilderValidate.errors rb
       ↔ ∃ e, e ∈ FlowValidator.errors rv
              ∧ FlowValidator.ve_code e = "CIRCULAR_DEPS").
Proof.
  intros Hb.
  destruct (builder_scan b Hb) as (found & Hfound & Hscan).
  destruct (validate_total (WorkflowBuilder.build b)) as [rv Hrv].
  pose proof (validate_valid _ _ Hrv) as Hvalid.
  unfold BuilderValidate.validate. rewrite Hscan.
  eexists _, rv. split; [reflexivity|]. split; [exact Hrv|].
  cbn [BuilderValidate.valid BuilderValidate.errors].
  cbn [WorkflowBuilder.build wf_id wf_name wf_steps] in Hvalid.
  rewrite Hfound in Hvalid.
  assert (BuilderValidate.valid
            {| BuilderValidate.valid :=
                 bool_decide
                   (length
                      (if negb (bool_decide (found = []))
                       then (if bool_decide
                                  (length (WorkflowBuilder.steps b) = 0%nat)
                             then ["Workflow must have at least one step"]
                             else [])
                            ++ ["Workflow contains circular dependencies"]
                       else if bool_decide
                                 (length (WorkflowBuilder.steps b) = 0%nat)
                            then ["Workflow must have at least one step"]
                            else []) = 0%nat);
               BuilderValidate.errors := [] |} = true
          ↔ WorkflowBuilder.steps b ≠ [] ∧ found = []) as Hb_valid.
  { cbn [BuilderValidate.valid]. rewrite bool_decide_eq_true.
    destruct (bool_decide_reflect (found = [])) as [->|Hne]; cbn [negb].
    - destruct (WorkflowBuilder.steps b); simpl; split;
        (done || (by intros [? ?]) || (by split)).
    - rewrite length_app. simpl. split; [lia|]. by intros [_ ?]. }
  cbn [BuilderValidate.valid] in Hb_valid.
  assert (FlowValidator.valid rv = true
          ↔ bool_decide
              (length
                 (if negb (bool_decide (found = []))
                  then (if bool_decide
                             (length (WorkflowBuilder.steps b) = 0%nat)
                        then ["Workflow must have at least one step"]
                        else [])
                       ++ ["Workflow contains circular dependencies"]
                  else if bool_decide
                            (length (WorkflowBuilder.steps b) = 0%nat)
                       then ["Workflow must have at least one step"]
                       else []) = 0%nat) = true
            ∧ FlowValidator.blank (WorkflowBuilder.workflowName b) = false
            ∧ ∀ step, step ∈ WorkflowBuilder.steps b →
                FlowValidator.blank (ws_name step) = false
                ∧ ∀ depId, depId ∈ ws_dependencies step →
                           depId ∈ stepIds (WorkflowBuilder.steps b))
    as Hiff.
  { rewrite Hvalid, Hb_valid. split.
    - intros (_ & Hname & Hsteps & Heach & Hc). injection Hc as ->.
      split; [done|]. split; [done|]. intros step Hin.
      pose proof (Heach step Hin) as Hs.
      apply validateStep_no_error in Hs as (_ & Hn & _ & Hd). done.
    - intros ([Hsteps ->] & Hname & Heach).
      split; [by apply reachable_workflowId|]. split; [done|].
      split; [done|]. split; [|done]. intros step Hin.
      apply validateStep_no_error. destruct (Heach step Hin) as [Hn Hd].
      split; [by eapply reachable_step_ids|]. split; [done|].
      split; [by eapply reachable_types|done]. }
  split; [exact Hiff|]. split; [by intros [H _]%Hiff|].
  unfold FlowValidator.validate in Hrv.
  cbn [WorkflowBuilder.build wf_id wf_name wf_steps] in Hrv.
  rewrite Hfound in Hrv. injection Hrv as <-. cbn [FlowValidator.errors].
  set (e4 := flat_map FlowValidator.errors _).
  assert (∀ e, e ∈ e4 →
               FlowValidator.ve_code e ≠ "NO_STEPS"
               ∧ FlowValidator.ve_code e ≠ "CIRCULAR_DEPS") as He4.
  { intros e He. unfold e4 in He.
    apply list_elem_of_In, in_flat_map in He as (r & Hr & He).
    apply in_map_iff in Hr as (step & <- & _).
    unfold FlowValidator.validateStep in He. cbn [FlowValidator.errors] in He.
    rewrite !in_app_iff, in_flat_map in He.
    destruct He as [He|[He|[He|(d & _ & He)]]];
      repeat match type of He with
             | In _ (if ?c then _ else _) => destruct c
             end;
      simpl in He;
      first [ by destruct He | destruct He as [<-|[]]; by split ]. }
  split.
  - trans (length (WorkflowBuilder.steps b) = 0%nat).
    + assert ("Workflow must have at least one step"
                ∈ (if bool_decide (length (WorkflowBuilder.steps b) = 0%nat)
                   then ["Workflow must have at least one step"] else [])
              ↔ length (WorkflowBuilder.steps b) = 0%nat) as Hfirst.
      { rewrite elem_of_if_singleton, bool_decide_eq_true.
        split; [by intros [? _]|done]. }
      destruct (negb _); [|exact Hfirst].
      rewrite elem_of_app, Hfirst, list_elem_of_singleton.
      split; [intros [?|?]; [done|discriminate]|by left].
    + rewrite !elem_of_app, !elem_of_if_singleton. split.
      * intros Hlen. do 2 right. left.
        split; [by apply bool_decide_eq_true|done].
      * intros [[_ ?]|[[_ ?]|[[Hlen _]|[Hin|[_ ?]]]]]; try discriminate.
        -- by apply bool_decide_eq_true in Hlen.
        -- by destruct (He4 _ Hin) as [? _].
  - trans (found ≠ []).
    + destruct (bool_decide_reflect (found = [])) as [Hnil|Hne]; cbn [negb].
      * rewrite elem_of_if_singleton.
        split; [intros [_ ?]; discriminate|done].
      * split; [done|]. intros _. apply elem_of_app. right. by left.
    + split.
      * intros Hne. eexists. rewrite !elem_of_app, !elem_of_if_singleton.
        split; [do 4 right; split; [|reflexivity]|done]. by destruct found.
      * intros (e & Hin & Hcode).
        rewrite !elem_of_app, !elem_of_if_singleton in Hin.
        destruct Hin as [[_ ->]|[[_ ->]|[[_ ->]|[Hin|[Hlen _]]]]];
          try discriminate Hcode.
        -- by destruct (He4 _ Hin) as [_ ?].
        -- by destruct found.
Qed.

Lemma C8_builder_validate_is_the_weaker_check_witness :
  ∃ rb rv,
    BuilderValidate.validate
      (WorkflowBuilder.chain
         [WorkflowBuilder.AddAnalysisStep []; WorkflowBuilder.AddTestStep []]
         (WorkflowBuilder.new (Some "ci") 0)) = Some rb
    ∧ FlowValidator.validate
        (WorkflowBuilder.build
           (WorkflowBuilder.chain
              [WorkflowBuilder.AddAnalysisStep [];
               WorkflowBuilder.AddTestStep []]
              (WorkflowBuilder.new (Some "ci") 0))) = Some rv
    ∧ FlowValidator.valid rv = true
    ∧ BuilderValidate.valid rb = true.
Proof.
  pose proof (C8_builder_validate_is_the_weaker_check
                (WorkflowBuilder.chain
                   [WorkflowBuilder.AddAnalysisStep [];
                    WorkflowBuilder.AddTestStep []]
                   (WorkflowBuilder.new (Some "ci") 0))
                ltac:(by exists (Some "ci"), 0,
                        [WorkflowBuilder.AddAnalysisStep [];
                         WorkflowBuilder.AddTestStep []]))
    as (rb & rv & Hb & Hv & _ & Himp & _).
  exists rb, rv. split; [exact Hb|]. split; [exact Hv|].
  assert (FlowValidator.valid rv = true) as Hvalid.
  { vm_compute in Hv. by injection Hv as <-. }
  split; [exact Hvalid|exact (Himp Hvalid)].
Defined.

(** C8 as stated fails. A builder holding one custom step that depends on
    an id no step has: the builder's [validate()] accepts it, while
    [FlowValidator.validate] rejects the built workflow (INVALID_DEPENDENCY). *)
Lemma C8_builder_accepts_what_validator_rejects :
  let b := WorkflowBuilder.addCustomStep "lint" [] ["ghost"]
             (WorkflowBuilder.new None 0) in
  BuilderValidate.valid <$> BuilderValidate.validate b = Some true
  ∧ FlowValidator.valid <$> FlowValidator.validate (WorkflowBuilder.build b)
    = Some false
  ∧ FlowValidator.ve_code
      <$> (FlowValidator.validate (WorkflowBuilder.build b)
             ≫= fun r => head (FlowValidator.errors r))
    = Some "INVALID_DEPENDENCY".
Proof. repeat split; vm_compute; reflexivity. Qed.
(** ** Cycle detection: the search reports exactly the cyclic graphs *)

Section DfsCorrect.
Import FlowValidator.
Variable steps : list WorkflowStep.

Local Abbreviation E := (dependsOn steps).

Lemma onCycle_neighbor n :
  tc E n n → ∃ d, E n d ∧ tc E d d.
Proof.
  intros Hc. inversion Hc as [? ? Hd | ? d ? Hd Hrest]; subst.
  - exists n. split; [done|]. by apply tc_once.
  - exists d. split; [done|]. by eapply tc_r.
Qed.

Lemma neighborLoop_post rec n ns cur b s' :
  (∀ d c b0 c', stackVisited (marks c) → d ∉ visited (marks c) →
                rec d c = Some (b0, c') → dfsPost steps d c b0 c') →
  stackVisited (marks cur) →
  n ∈ recursionStack (marks cur) →
  (∀ d, d ∈ ns → E n d) →
  neighborLoop rec n ns cur = Some (b, s') →
  stackVisited (marks s')
  ∧ visited (marks cur) ⊆ visited (marks s')
  ∧ (b = false →
     recursionStack (marks s') = recursionStack (marks cur) ∖ {[n]}
     ∧ (cycleIdsOpen steps (marks cur) →
        (∀ d, d ∈ ns → ¬ tc E d d)
        ∧ ∀ u, tc E u u → u ∈ visited (marks s') →
               u ∈ recursionStack (marks cur)))
  ∧ (b = true →
     (∀ x, x ∈ recursionStack (marks cur) → rtc E x n) → cyclic steps).
Proof.
  intros Hrec. revert cur.
  induction ns as [|d ns IH]; intros cur Hwf Hn Hns Hrun.
  - injection Hrun as <- <-. simpl. split.
    { intros x [Hx _]%elem_of_difference. by apply Hwf. }
    split; [done|]. split; [|done]. intros _. split; [done|].
    intros Hopen. split; [intros d Hd; by apply elem_of_nil in Hd|].
    intros u Hu Hv. by apply Hopen.
  - assert (E n d) as Hnd by (apply Hns; by left).
    assert (∀ d', d' ∈ ns → E n d') as Hns' by (intros d' ?; apply Hns; by right).
    destruct (decide (d ∈ visited (marks cur))) as [Hv|Hv].
    + destruct (decide (d ∈ recursionStack (marks cur))) as [Hs|Hs].
      * rewrite neighborLoop_back in Hrun by done.
        injection Hrun as <- <-. simpl.
        split; [done|]. split; [done|]. split; [done|].
        intros _ Hreach. exists d. eapply tc_rtc_l; [by apply Hreach|].
        by apply tc_once.
      * rewrite neighborLoop_cross in Hrun by done.
        destruct (IH cur Hwf Hn Hns' Hrun) as (Hwf' & Hvis & Hfalse & Htrue).
        split; [done|]. split; [done|]. split; [|done].
        intros Hb. destruct (Hfalse Hb) as [Hst Hop]. split; [done|].
        intros Hopen. destruct (Hop Hopen) as [Hnone Hrest].
        split; [|done]. intros d' [->|Hd']%elem_of_cons; [|by apply Hnone].
        intros Hc. apply Hs. by apply Hopen.
    + rewrite neighborLoop_unvisited in Hrun by done.
      destruct (rec d cur) as [[b0 c']|] eqn:Hd; [|done].
      destruct (Hrec d cur b0 c' Hwf Hv Hd)
        as (Hwf1 & Hvis1 & Hdv & Hf1 & Ht1).
      destruct b0.
      * injection Hrun as <- <-.
        split; [done|]. split; [done|]. split; [done|].
        intros _ Hreach. apply Ht1; [done|].
        intros x Hx. eapply rtc_r; [by apply Hreach|done].
      * destruct (Hf1 eq_refl) as [Hst1 Hop1].
        destruct (IH c' Hwf1) as (Hwf' & Hvis & Hfalse & Htrue);
          [by rewrite Hst1|done|done|].
        split; [done|]. split; [by etrans|]. split.
        -- intros Hb. destruct (Hfalse Hb) as [Hst Hop].
           split; [by rewrite Hst, Hst1|].
           intros Hopen. destruct (Hop (Hop1 Hopen)) as [Hnone Hrest].
           split.
           ++ intros d' [->|Hd']%elem_of_cons; [|by apply Hnone].
              intros Hc. pose proof (Hop1 Hopen d Hc Hdv) as Hin.
              rewrite Hst1 in Hin. apply Hv. by apply Hwf.
           ++ intros u Hu Huv. rewrite <- Hst1. by apply Hrest.
        -- intros Hb Hreach. apply Htrue; [done|].
           intros x Hx. apply Hreach. by rewrite <- Hst1.
Qed.

Lemma dfs_post fuel n s b s' :
  stackVisited (marks s) → n ∉ visited (marks s) →
  dfs fuel (buildGraph steps) n s = Some (b, s') →
  dfsPost steps n s b s'.
Proof.
  revert n s b s'. induction fuel as [|fuel IH]; intros n s b s' Hwf Hn Hrun;
    [done|].
  rewrite dfs_S in Hrun.
  apply (neighborLoop_post (dfs fuel (buildGraph steps))) in Hrun
    as (Hwf' & Hvis & Hfalse & Htrue); simpl.
  - assert (n ∉ recursionStack (marks s)) as Hns
      by (intros ?; by apply Hn, Hwf).
    simpl in *. split; [done|]. split.
    { intros x Hx. apply Hvis, elem_of_union. by right. }
    split.
    { apply Hvis, elem_of_union. left. by apply elem_of_singleton. }
    split.
    + intros Hb. destruct (Hfalse Hb) as [Hst Hop].
      assert (recursionStack (marks s') = recursionStack (marks s)) as Hsame.
      { rewrite Hst. apply set_eq. intros x.
        rewrite elem_of_difference, elem_of_union, !elem_of_singleton.
        split; [by intros [[?|?] ?]|]. intros Hx. split; [by right|].
        by intros ->. }
      split; [done|].
      intros Hopen.
      destruct Hop as [Hnone Hrest].
      { intros u Hu [->%elem_of_singleton|Huv]%elem_of_union;
          apply elem_of_union; [left; by apply elem_of_singleton|].
        right. by apply Hopen. }
      intros u Hu Huv. specialize (Hrest u Hu Huv). rewrite Hsame.
      apply elem_of_union in Hrest as [Hun%elem_of_singleton|Hrest];
        [|done].
      exfalso. subst u. destruct (onCycle_neighbor n Hu) as (d & Hd & Hdc).
      by apply (Hnone d).
    + intros Hb Hreach. apply Htrue; [done|].
      intros x [->%elem_of_singleton|Hx]%elem_of_union; [done|].
      by apply Hreach.
  - intros d c b0 c' ???. by eapply IH.
  - simpl. intros x [->%elem_of_singleton|Hx]%elem_of_union;
      apply elem_of_union; [left; by apply elem_of_singleton|right; auto].
  - simpl. apply elem_of_union. left. by apply elem_of_singleton.
  - intros d Hd. exact Hd.
Qed.

Lemma sweep_sound fuel todo s s' :
  cycles s = [] → recursionStack (marks s) = ∅ → stackVisited (marks s) →
  sweep fuel (buildGraph steps) todo s = Some s' →
  cycles s' ≠ [] → cyclic steps.
Proof.
  revert s. induction todo as [|step todo IH];
    intros s Hnil Hst Hwf Hrun Hne.
  - injection Hrun as <-. done.
  - rewrite sweep_cons in Hrun.
    destruct (bool_decide_reflect (ws_id step ∈ visited (marks s)))
      as [Hv|Hv]; cbn [negb] in Hrun; [by eapply IH|].
    destruct (dfs _ _ _ _) as [[b s1]|] eqn:Hd; [|done].
    pose proof (dfs_cycles _ _ _ _ _ _ Hd) as Hc.
    apply dfs_post in Hd as (Hwf1 & _ & _ & Hf & Ht); [|done|done].
    simpl in *. destruct b.
    + apply Ht; [done|]. intros x Hx. rewrite Hst in Hx.
      by apply elem_of_empty in Hx.
    + destruct (Hf eq_refl) as [Hst1 _]. apply (IH s1); try done.
      * simpl in Hc. congruence.
      * congruence.
Qed.

Lemma sweep_complete fuel todo s s' :
  cycles s = [] → recursionStack (marks s) = ∅ → stackVisited (marks s) →
  cycleIdsOpen steps (marks s) →
  sweep fuel (buildGraph steps) todo s = Some s' →
  cycles s' = [] →
  recursionStack (marks s') = ∅
  ∧ cycleIdsOpen steps (marks s')
  ∧ visited (marks s) ⊆ visited (marks s')
  ∧ ∀ step, step ∈ todo → ws_id step ∈ visited (marks s').
Proof.
  revert s. induction todo as [|step todo IH];
    intros s Hnil Hst Hwf Hopen Hrun Hend.
  - injection Hrun as <-. repeat split; try done.
    intros step Hin. by apply elem_of_nil in Hin.
  - rewrite sweep_cons in Hrun.
    destruct (bool_decide_reflect (ws_id step ∈ visited (marks s)))
      as [Hv|Hv]; cbn [negb] in Hrun.
    + destruct (IH s Hnil Hst Hwf Hopen Hrun Hend) as (H1 & H2 & H3 & H4).
      repeat split; try done.
      intros x [->|Hx]%elem_of_cons; [by apply H3|by apply H4].
    + destruct (dfs _ _ _ _) as [[b s1]|] eqn:Hd; [|done].
      pose proof (dfs_cycles _ _ _ _ _ _ Hd) as Hc.
      apply dfs_post in Hd as (Hwf1 & Hvis1 & Hin1 & Hf & _); [|done|done].
      simpl in *. destruct b.
      { exfalso. by eapply sweep_keeps_cycles. }
      destruct (Hf eq_refl) as [Hst1 Hop1]. simpl in Hc.
      destruct (IH s1) as (H1 & H2 & H3 & H4);
        [congruence|congruence|done|by apply Hop1|done|done|].
      repeat split; try done; [by etrans|].
      intros x [->|Hx]%elem_of_cons; [by apply H3|by apply H4].
Qed.

Lemma dependsOn_is_step u w : E u w → u ∈ stepIds steps.
Proof.
  unfold dependsOn, buildGraph.
  destruct (fold_left _ steps ∅ !! u) as [ds|] eqn:Hl; simpl;
    [|by intros ?%elem_of_nil].
  intros _. apply fold_graph_lookup in Hl as [Hl|(step & Hin & <- & _)].
  - by rewrite lookup_empty in Hl.
  - apply list_elem_of_fmap. by exists step.
Qed.

Lemma detect_cyclic :
  ∃ found, detectCircularDependencies steps = Some found
           ∧ (found ≠ [] ↔ cyclic steps).
Proof.
  destruct (detectCircularDependencies_total steps) as [found Hrun].
  exists found. split; [done|].
  unfold detectCircularDependencies in Hrun.
  destruct (sweep _ _ _ _) as [s'|] eqn:Hs; [|done].
  injection Hrun as <-.
  split.
  - intros Hne. by eapply sweep_sound in Hs.
  - intros [u Hu]. intros Hnil.
    eapply sweep_complete in Hs as (Hst & Hopen & _ & Hall); try done.
    destruct (onCycle_neighbor u Hu) as (d & Hd & _).
    apply dependsOn_is_step, list_elem_of_fmap in Hd
      as (step & -> & Hin).
    pose proof (Hopen _ Hu (Hall step Hin)) as Hstack.
    rewrite Hst in Hstack. by apply elem_of_empty in Hstack.
Qed.
End DfsCorrect.
(** ** The validator's graph and the declared dependencies *)

Section ValidatorGraph.
Import FlowValidator.
Variable steps : list WorkflowStep.

Lemma dependsOn_declares u w : dependsOn steps u w → declares steps u w.
Proof.
  unfold dependsOn, buildGraph.
  destruct (fold_left _ steps ∅ !! u) as [ds|] eqn:Hl; simpl;
    [|by intros ?%elem_of_nil].
  intros Hw. apply fold_graph_lookup in Hl as [Hl|(step & Hin & <- & <-)].
  - by rewrite lookup_empty in Hl.
  - by exists step.
Qed.

Lemma findStep_NoDup step :
  NoDup (stepIds steps) → step ∈ steps →
  findStep steps (ws_id step) = Some step.
Proof.
  induction steps as [|s rest IH]; intros Hnd Hin;
    [by apply elem_of_nil in Hin|].
  unfold stepIds in Hnd. rewrite fmap_cons in Hnd.
  apply NoDup_cons in Hnd as [Hfresh Hnd].
  apply elem_of_cons in Hin as [->|Hin]; [apply findStep_here|].
  rewrite findStep_later; [by apply IH|].
  intros Heq. apply Hfresh. rewrite Heq. apply list_elem_of_fmap.
  by exists step.
Qed.

Lemma declares_dependsOn u w :
  NoDup (stepIds steps) → declares steps u w → dependsOn steps u w.
Proof.
  intros Hnd (step & Hin & <- & Hw). unfold dependsOn.
  rewrite (graph_neighbors steps Hnd).
  by rewrite findStep_NoDup.
Qed.

Lemma tc_declares_dependsOn u w :
  NoDup (stepIds steps) →
  tc (declares steps) u w ↔ tc (dependsOn steps) u w.
Proof.
  intros Hnd. split; apply (tc_congruence id); intros x y.
  - by apply declares_dependsOn.
  - apply dependsOn_declares.
Qed.
End ValidatorGraph.


(** ** The error list of the validator *)

Section ValidatorErrors.
Import FlowValidator.

(** The errors [validateStep] reports, one by one. *)
Lemma validateStep_errors step allSteps e :
  e ∈ errors (validateStep step allSteps)
  ↔ (ws_id step = ""
     ∧ e = mkVError "Step must have an ID" "MISSING_STEP_ID"
             (Some (ws_id step)))
    ∨ (blank (ws_name step) = true
       ∧ e = mkVError "Step must have a name" "MISSING_STEP_NAME"
               (Some (ws_id step)))
    ∨ (ws_type step = ""
       ∧ e = mkVError "Step must have a type" "MISSING_STEP_TYPE"
               (Some (ws_id step)))
    ∨ (∃ depId, depId ∈ ws_dependencies step ∧ (depId ∉ stepIds allSteps)
         ∧ e = mkVError ("Step depends on non-existent step: " +:+ depId)
                 "INVALID_DEPENDENCY" (Some (ws_id step))).
Proof.
  unfold validateStep. cbn [errors].
  rewrite !elem_of_app, !elem_of_if_singleton, !bool_decide_eq_true.
  rewrite list_elem_of_In, in_flat_map.
  apply or_iff_compat_l, or_iff_compat_l, or_iff_compat_l.
  split.
  - intros (depId & Hin & He). exists depId.
    apply list_elem_of_In in Hin. apply list_elem_of_In in He.
    apply elem_of_if_singleton in He as [Hneg ->].
    split; [done|]. split; [|done].
    rewrite <- depExists_spec. by destruct (existsb _ allSteps).
  - intros (depId & Hin & Hno & ->). exists depId.
    rewrite <- !list_elem_of_In. split; [done|].
    apply elem_of_if_singleton. split; [|done].
    rewrite <- depExists_spec in Hno. by destruct (existsb _ allSteps).
Qed.

(** The errors [validate] reports, one by one. *)
Lemma validate_errors workflow res e :
  validate workflow = Some res →
  e ∈ errors res
  ↔ (wf_id workflow = ""
     ∧ e = mkVError "Workflow must have an ID" "MISSING_ID" None)
    ∨ (blank (wf_name workflow) = true
       ∧ e = mkVError "Workflow must have a name" "MISSING_NAME" None)
    ∨ (wf_steps workflow = []
       ∧ e = mkVError "Workflow must have at least one step" "NO_STEPS"
               None)
    ∨ (∃ step, step ∈ wf_steps workflow
         ∧ e ∈ errors (validateStep step (wf_steps workflow)))
    ∨ (∃ found,
         detectCircularDependencies (wf_steps workflow) = Some found
         ∧ found ≠ []
         ∧ e = mkVError ("Circular dependencies detected: "
                           +:+ join ", " found) "CIRCULAR_DEPS" None).
Proof.
  unfold validate.
  destruct (detectCircularDependencies (wf_steps workflow))
    as [found|]; [|done].
  intros [= <-]. cbn [errors].
  rewrite !elem_of_app, !elem_of_if_singleton, !bool_decide_eq_true.
  rewrite length_zero_iff_nil.
  apply or_iff_compat_l, or_iff_compat_l, or_iff_compat_l.
  f_equiv.
  - rewrite list_elem_of_In, in_flat_map. split.
    + intros (r & Hr & He). apply in_map_iff in Hr as (step & <- & Hin).
      exists step. by rewrite !list_elem_of_In.
    + intros (step & Hin & He). exists (validateStep step (wf_steps workflow)).
      split; [|by apply list_elem_of_In].
      apply in_map_iff. exists step. by rewrite <- list_elem_of_In.
  - split.
    + intros [Hlen ->]. exists found. split; [done|]. split; [|done].
      by destruct found.
    + intros (f & [= <-] & Hne & ->). split; [|done]. by destruct found.
Qed.
End ValidatorErrors.

(** X1. [detectCircularDependencies] returns for every list of steps, and
    the list of cycles it returns is non-empty exactly when the graph it
    builds from the steps has a cycle: some id reaches itself along one
    or more dependency edges. *)
Theorem detect_reports_exactly_the_cyclic_graphs
    (steps : list WorkflowStep) :
  ∃ found, FlowValidator.detectCircularDependencies steps = Some found
           ∧ (found ≠ [] ↔ cyclic steps).
Proof. apply detect_cyclic. Qed.

(** X2. On a workflow whose step ids are distinct, [validate] reports a
    CIRCULAR_DEPS error exactly when the declared dependencies contain a
    cycle. *)
Theorem validate_circular_error_iff_declared_cycle (workflow : Workflow) :
  NoDup (stepIds (wf_steps workflow)) →
  ∃ res, FlowValidator.validate workflow = Some res
    ∧ ((∃ e, e ∈ FlowValidator.errors res
             ∧ FlowValidator.ve_code e = "CIRCULAR_DEPS")
       ↔ ∃ u, tc (declares (wf_steps workflow)) u u).
Proof.
  intros Hnd. destruct (validate_total workflow) as [res Hres].
  exists res. split; [done|].
  destruct (detect_cyclic (wf_steps workflow)) as (found & Hdet & Hcyc).
  trans (found ≠ []).
  - split.
    + intros (e & He & Hcode).
      apply (validate_errors workflow res e Hres) in He
        as [[_ ->]|[[_ ->]|[[_ ->]|[(step & _ & He)|(f & Hf & Hne & _)]]]];
        try discriminate Hcode.
      * apply validateStep_errors in He
          as [[_ ->]|[[_ ->]|[[_ ->]|(d & _ & _ & ->)]]];
          discriminate Hcode.
      * congruence.
    + intros Hne.
      exists (FlowValidator.mkVError
                ("Circular dependencies detected: "
                   +:+ FlowValidator.join ", " found) "CIRCULAR_DEPS" None).
      split; [|reflexivity].
      apply (validate_errors workflow res _ Hres).
      do 4 right. by exists found.
  - rewrite Hcyc. unfold cyclic. split; intros [u Hu]; exists u.
    + by apply tc_declares_dependsOn.
    + by apply tc_declares_dependsOn in Hu.
Qed.

Lemma validate_circular_error_iff_declared_cycle_witness :
  ∃ res,
    FlowValidator.validate
      (mkWorkflow "w" "W" None
         [mkStep "a" "analysis" "A" None ["b"];
          mkStep "b" "fix" "B" None ["a"]]) = Some res
    ∧ ((∃ e, e ∈ FlowValidator.errors res
             ∧ FlowValidator.ve_code e = "CIRCULAR_DEPS")
       ↔ ∃ u, tc (declares [mkStep "a" "analysis" "A" None ["b"];
                            mkStep "b" "fix" "B" None ["a"]]) u u).
Proof.
  apply (validate_circular_error_iff_declared_cycle
           (mkWorkflow "w" "W" None
              [mkStep "a" "analysis" "A" None ["b"];
               mkStep "b" "fix" "B" None ["a"]])).
  apply (bool_decide_unpack _). vm_compute. exact I.
Defined.

(** X3. [validate] reports an INVALID_DEPENDENCY error for step id [id]
    and dependency [depId] exactly when a step with that id lists
    [depId] and no step of the workflow has the id [depId]. *)
Theorem validate_reports_each_dangling_dependency (workflow : Workflow) :
  ∃ res, FlowValidator.validate workflow = Some res
    ∧ ∀ id depId,
        FlowValidator.mkVError
          ("Step depends on non-existent step: " +:+ depId)
          "INVALID_DEPENDENCY" (Some id) ∈ FlowValidator.errors res
        ↔ ∃ step, step ∈ wf_steps workflow ∧ ws_id step = id
                  ∧ depId ∈ ws_dependencies step
                  ∧ depId ∉ stepIds (wf_steps workflow).
Proof.
  destruct (validate_total workflow) as [res Hres].
  exists res. split; [done|]. intros id depId.
  rewrite (validate_errors workflow res _ Hres). split.
  - intros [[_ ?]|[[_ ?]|[[_ ?]|[(step & Hin & He)|(f & _ & _ & ?)]]]];
      try discriminate.
    apply validateStep_errors in He
      as [[_ ?]|[[_ ?]|[[_ ?]|(d & Hd & Hno & He)]]]; try discriminate.
    injection He as Hmsg Hid. exists step.
    change (depId = d) in Hmsg. by subst.
  - intros (step & Hin & <- & Hd & Hno). do 3 right. left.
    exists step. split; [done|]. apply validateStep_errors.
    do 3 right. by exists depId.
Qed.

(** [validate] accepts exactly the workflows that are complete and whose
    dependency graph has no cycle. *)
Lemma validate_accepts (workflow : Workflow) :
  ∃ res, FlowValidator.validate workflow = Some res
    ∧ (FlowValidator.valid res = true
       ↔ wf_id workflow ≠ ""
         ∧ FlowValidator.blank (wf_name workflow) = false
         ∧ wf_steps workflow ≠ []
         ∧ (∀ step, step ∈ wf_steps workflow →
              ws_id step ≠ ""
              ∧ FlowValidator.blank (ws_name step) = false
              ∧ ws_type step ≠ ""
              ∧ ∀ depId, depId ∈ ws_dependencies step →
                         depId ∈ stepIds (wf_steps workflow))
         ∧ ¬ cyclic (wf_steps workflow)).
Proof.
  destruct (validate_total workflow) as [res Hres].
  exists res. split; [done|].
  rewrite (validate_valid workflow res Hres).
  destruct (detect_cyclic (wf_steps workflow)) as (found & Hdet & Hcyc).
  rewrite Hdet.
  assert (Some found = Some [] ↔ ¬ cyclic (wf_steps workflow)) as ->.
  { rewrite <- Hcyc. split.
    - intros [= ->]. by intros ?.
    - intros Hn. f_equal. destruct found; [done|]. by destruct Hn. }
  assert ((∀ step, step ∈ wf_steps workflow →
             FlowValidator.errors
               (FlowValidator.validateStep step (wf_steps workflow)) = [])
          ↔ ∀ step, step ∈ wf_steps workflow →
              ws_id step ≠ ""
              ∧ FlowValidator.blank (ws_name step) = false
              ∧ ws_type step ≠ ""
              ∧ ∀ depId, depId ∈ ws_dependencies step →
                         depId ∈ stepIds (wf_steps workflow)) as ->; [|done].
  split; intros H step Hin; apply validateStep_no_error; by apply H.
Qed.

(** X4. [validate] returns for every workflow, and it accepts the
    workflow exactly when the workflow id is not empty, the workflow
    name is not blank, there is a step, every step has a non-empty id, a
    non-blank name and a non-empty type, every dependency names a step,
    and the dependency graph has no cycle. *)
Theorem validate_accepts_iff (workflow : Workflow) :
  ∃ res, FlowValidator.validate workflow = Some res
    ∧ (FlowValidator.valid res = true
       ↔ wf_id workflow ≠ ""
         ∧ FlowValidator.blank (wf_name workflow) = false
         ∧ wf_steps workflow ≠ []
         ∧ (∀ step, step ∈ wf_steps workflow →
              ws_id step ≠ ""
              ∧ FlowValidator.blank (ws_name step) = false
              ∧ ws_type step ≠ ""
              ∧ ∀ depId, depId ∈ ws_dependencies step →
                         depId ∈ stepIds (wf_steps workflow))
         ∧ ¬ cyclic (wf_steps workflow)).
Proof. apply validate_accepts. Qed.

(** The two ways [canExecute] answers. *)
Lemma canExecute_cases (workflow : Workflow) :
  ∃ res ok reason,
    FlowValidator.validate workflow = Some res
    ∧ FlowValidator.canExecute workflow = Some (ok, reason)
    ∧ (ok = true
       ↔ FlowValidator.valid res = true
         ∧ ∀ step, step ∈ wf_steps workflow →
                   ws_type step ∈ FlowValidator.validTypes)
    ∧ (reason = None ↔ ok = true)
    ∧ (FlowValidator.valid res = false →
       ∃ e rest, FlowValidator.errors res = e :: rest
                 ∧ reason = Some (FlowValidator.ve_message e))
    ∧ (FlowValidator.valid res = true → ok = false →
       ∃ pre step post,
         wf_steps workflow = pre ++ step :: post
         ∧ (∀ s, s ∈ pre → ws_type s ∈ FlowValidator.validTypes)
         ∧ (ws_type step ∉ FlowValidator.validTypes)
         ∧ reason = Some ("Invalid step type: " +:+ ws_type step)).
Proof.
  destruct (validate_total workflow) as [res Hres].
  unfold FlowValidator.canExecute. rewrite Hres. exists res.
  assert (FlowValidator.valid res
          = bool_decide (length (FlowValidator.errors res) = 0%nat))
    as Hvalid.
  { unfold FlowValidator.validate in Hres.
    destruct (FlowValidator.detectCircularDependencies _); [|done].
    by injection Hres as <-. }
  destruct (FlowValidator.valid res) eqn:Hv; cbn [negb].
  - destruct (List.find _ (wf_steps workflow)) as [step|] eqn:Hfind.
    + exists false, (Some ("Invalid step type: " +:+ ws_type step)).
      pose proof (find_some _ _ Hfind) as [Hin Hbad].
      apply negb_true_iff, bool_decide_eq_false in Hbad.
      repeat split; try done.
      * intros [_ Hall]. exfalso. apply Hbad, Hall. by apply list_elem_of_In.
      * intros _ _. clear Hin.
        induction (wf_steps workflow) as [|s l IH]; [done|].
        simpl in Hfind.
        destruct (bool_decide_reflect (ws_type s ∈ FlowValidator.validTypes))
          as [Hs|Hs]; cbn [negb] in Hfind.
        -- destruct (IH Hfind) as (pre & st & post & -> & Hpre & Hst & Hr).
           exists (s :: pre), st, post. repeat split; try done.
           intros s' [->|?]%elem_of_cons; auto.
        -- injection Hfind as ->. exists [], step, l.
           repeat split; try done. intros s' Hs'. by apply elem_of_nil in Hs'.
    + exists true, None. repeat split; try done.
      intros step Hin. apply list_elem_of_In in Hin.
      pose proof (find_none _ _ Hfind step Hin) as Hok.
      by apply negb_false_iff, bool_decide_eq_true in Hok.
  - destruct (FlowValidator.errors res) as [|e rest] eqn:He; [done|].
    exists false, (Some (FlowValidator.ve_message e)).
    repeat split; try done.
    + by intros [? _].
    + intros _. by exists e, rest.
Qed.

(** X5. [canExecute] returns for every workflow. It answers [true]
    exactly when [validate] accepts the workflow and every step type is
    one of the five known types, and it gives a reason exactly when it
    answers [false]: the message of the first validation error when
    [validate] rejects the workflow (the fallback text is never used),
    otherwise the type of the first step with an unknown type. *)
Theorem canExecute_spec (workflow : Workflow) :
  ∃ res ok reason,
    FlowValidator.validate workflow = Some res
    ∧ FlowValidator.canExecute workflow = Some (ok, reason)
    ∧ (ok = true
       ↔ FlowValidator.valid res = true
         ∧ ∀ step, step ∈ wf_steps workflow →
                   ws_type step ∈ FlowValidator.validTypes)
    ∧ (reason = None ↔ ok = true)
    ∧ (FlowValidator.valid res = false →
       ∃ e rest, FlowValidator.errors res = e :: rest
                 ∧ reason = Some (FlowValidator.ve_message e))
    ∧ (FlowValidator.valid res = true → ok = false →
       ∃ pre step post,
         wf_steps workflow = pre ++ step :: post
         ∧ (∀ s, s ∈ pre → ws_type s ∈ FlowValidator.validTypes)
         ∧ (ws_type step ∉ FlowValidator.validTypes)
         ∧ reason = Some ("Invalid step type: " +:+ ws_type step)).
Proof. apply canExecute_cases. Qed.

(** ** Declaration order and the two sequential runners *)

Lemma forwardFrom_cons known step rest :
  forwardFrom known (step :: rest)
  ↔ (∀ depId, depId ∈ ws_dependencies step → depId ∈ known)
    ∧ forwardFrom ({[ws_id step]} ∪ known) rest.
Proof.
  split.
  - intros H. split.
    + intros depId Hin.
      destruct (H 0%nat step depId eq_refl Hin) as [?|(j & ? & ? & _)];
        [done|lia].
    + intros i s depId Hi Hin.
      destruct (H (S i) s depId Hi Hin) as [?|(j & prev & Hj & Hp & Hid)].
      * left. apply elem_of_union. by right.
      * destruct j as [|j].
        -- injection Hp as <-. left. apply elem_of_union. left.
           by apply elem_of_singleton.
        -- right. exists j, prev. split; [lia|done].
  - intros [Hhead Hrest] i s depId Hi Hin. destruct i as [|i].
    + injection Hi as <-. left. by apply Hhead.
    + destruct (Hrest i s depId Hi Hin) as [Hk|(j & prev & Hj & Hp & Hid)].
      * apply elem_of_union in Hk as [->%elem_of_singleton|?]; [|by left].
        right. exists 0%nat, step. split; [lia|done].
      * right. exists (S j), prev. split; [lia|done].
Qed.

Lemma forwardOnly_from steps : forwardOnly steps ↔ forwardFrom ∅ steps.
Proof.
  split.
  - intros H i step depId Hi Hin. right. by eapply H.
  - intros H i step depId Hi Hin.
    destruct (H i step depId Hi Hin) as [Hk|?]; [|done].
    by apply elem_of_empty in Hk.
Qed.

Lemma allSucceeded_insert results stepId res :
  allSucceeded results → success res = true →
  allSucceeded (<[stepId := res]> results).
Proof.
  intros Hall Hok id r. destruct (decide (id = stepId)) as [->|Hne].
  - rewrite lookup_insert_eq. by intros [= <-].
  - rewrite lookup_insert_ne by done. apply Hall.
Qed.

Lemma dependenciesMet_known step completed :
  allSucceeded completed →
  FlowExecutor.dependenciesMet step completed = true
  ↔ ∀ depId, depId ∈ ws_dependencies step → depId ∈ dom completed.
Proof.
  intros Hall. rewrite dependenciesMet_spec. split.
  - intros H depId Hin. destruct (H depId Hin) as (res & Hres & _).
    apply elem_of_dom. by eexists.
  - intros H depId Hin. destruct (proj1 (elem_of_dom _ _) (H depId Hin))
      as [res Hres]. exists res. split; [done|]. by eapply Hall.
Qed.

Section SequentialOrder.
Import FlowExecutor.
Variable now : nat → Z.
Variable options : Options.

Local Abbreviation run := (executeSequential now options (now 0%nat)).

(** A step whose type is known succeeds when the timeout is not
    exceeded. *)
Lemma executeStep_ok step t :
  noTimeout now options → ws_type step ∈ FlowValidator.validTypes →
  ∃ res, executeStep now options (now 0%nat) step t = (res, S (S (S t)))
         ∧ stepId res = ws_id step ∧ success res = true.
Proof.
  intros Hnt Hty. unfold executeStep, executeStepStart.
  replace (now (S t) - now 0%nat >? timeout options) with false.
  2:{ symmetry. rewrite Z.gtb_ltb. apply Z.ltb_ge, Hnt. }
  unfold settlePromise, executeStepFinish, executeStepByType.
  unfold FlowValidator.validTypes in Hty.
  repeat (apply elem_of_cons in Hty as [->|Hty]; [by eexists|]).
  by apply elem_of_nil in Hty.
Qed.

(** When the sequential loop returns, every dependency it met was the id
    of a result already stored, and every step has a result. *)
Lemma executeSequential_returned rest m m' :
  run rest m = (Returned, m') →
  (∀ depId step, step ∈ rest → depId ∈ ws_dependencies step →
                 depId ∈ dom (completedSteps m')) 
  ∧ dom (completedSteps m')
    = dom (completedSteps m) ∪ list_to_set (stepIds rest).
Proof.
  revert m. induction rest as [|step rest IH]; intros m Hrun.
  - injection Hrun as <-. split.
    + intros ?? Hin. by apply elem_of_nil in Hin.
    + simpl. by rewrite (right_id_L ∅ (∪)).
  - simpl in Hrun.
    destruct (dependenciesMet step (completedSteps m)) eqn:Hmet;
      cbn [negb] in Hrun; [|done].
    destruct (executeStep now options (now 0%nat) step (ticks m))
      as [res t'].
    destruct (negb (success res) && negb (continueOnError options));
      [done|].
    destruct (IH _ Hrun) as [Hdeps Hdom]. simpl in Hdom.
    split.
    + intros depId s [->|Hin]%elem_of_cons Hdep; [|by eapply Hdeps].
      destruct (proj1 (dependenciesMet_spec _ _) Hmet depId Hdep)
        as (r & Hr & _).
      rewrite Hdom, dom_insert_L. apply elem_of_union. left.
      apply elem_of_union. right. apply elem_of_dom. by eexists.
    + rewrite Hdom, dom_insert_L. unfold stepIds. rewrite fmap_cons.
      simpl. apply set_eq. intros x.
      rewrite !elem_of_union, !elem_of_singleton. tauto.
Qed.

(** The dependencies met by the loop name earlier steps or results
    stored before. *)
Lemma executeSequential_forward rest m m' :
  run rest m = (Returned, m') →
  forwardFrom (dom (completedSteps m)) rest.
Proof.
  revert m. induction rest as [|step rest IH]; intros m Hrun.
  - intros i s d Hi. by destruct i.
  - simpl in Hrun.
    destruct (dependenciesMet step (completedSteps m)) eqn:Hmet;
      cbn [negb] in Hrun; [|done].
    destruct (executeStep now options (now 0%nat) step (ticks m))
      as [res t'].
    destruct (negb (success res) && negb (continueOnError options));
      [done|].
    apply forwardFrom_cons. split.
    + intros depId Hdep.
      destruct (proj1 (dependenciesMet_spec _ _) Hmet depId Hdep)
        as (r & Hr & _).
      apply elem_of_dom. by eexists.
    + specialize (IH _ Hrun). simpl in IH. by rewrite dom_insert_L in IH.
Qed.

(** With known types, no timeout and dependencies on earlier steps the
    loop runs every step to success. *)
Lemma executeSequential_straight rest m :
  noTimeout now options →
  (∀ step, step ∈ rest → ws_type step ∈ FlowValidator.validTypes) →
  allSucceeded (completedSteps m) →
  forwardFrom (dom (completedSteps m)) rest →
  ∃ m', run rest m = (Returned, m')
        ∧ allSucceeded (completedSteps m')
        ∧ log m' = log m ++ straightLog rest
        ∧ unhandled m' = unhandled m.
Proof.
  intros Hnt. revert m. induction rest as [|step rest IH];
    intros m Hty Hall Hfw.
  - exists m. simpl. by rewrite app_nil_r.
  - apply forwardFrom_cons in Hfw as [Hhead Hrest].
    destruct (executeStep_ok step (ticks m) Hnt) as (res & Hres & Hid & Hok);
      [apply Hty; by left|].
    assert (dependenciesMet step (completedSteps m) = true) as Hmet
      by (by apply dependenciesMet_known).
    rewrite (executeSequential_next now options (now 0%nat) step rest m
               res _ Hmet Hres (or_introl Hok)).
    destruct (IH (recordStep step res (S (S (S (ticks m)))) m))
      as (m' & Hrun & Hall' & Hlog & Hun).
    + intros s Hs. apply Hty. by right.
    + by apply allSucceeded_insert.
    + simpl. by rewrite dom_insert_L.
    + exists m'. split; [done|]. split; [done|]. split; [|done].
      rewrite Hlog. simpl. rewrite Hok. by rewrite <- app_assoc.
Qed.
End SequentialOrder.

(** X6. Sequential mode does not reorder the steps: when a sequential
    run reports overall success, every dependency of every step is the
    id of a step declared earlier in the array, and the result map holds
    a result for exactly the step ids. *)
Theorem sequential_success_needs_declaration_order
    (now : nat → Z) (options : FlowExecutor.Options)
    (sched : nat → list string → list string) (workflow : Workflow) :
  FlowExecutor.parallel options = false →
  ∃ res m,
    FlowExecutor.execute now options sched workflow = Some (res, m)
    ∧ (wr_success res = true →
       forwardOnly (wf_steps workflow)
       ∧ dom (stepResults res)
         = list_to_set (stepIds (wf_steps workflow))).
Proof.
  intros Hpar. unfold FlowExecutor.execute. rewrite Hpar.
  destruct (FlowExecutor.executeSequential _ _ _ _ _) as [c m1] eqn:Hseq.
  eexists _, m1. split; [reflexivity|]. cbn [wr_success stepResults].
  intros [Herr Hall]%andb_true_iff.
  destruct c; [|done].
  split.
  - apply forwardOnly_from.
    by apply (executeSequential_forward _ _ _ _ _ Hseq).
  - destruct (executeSequential_returned _ _ _ _ _ Hseq) as [_ ->].
    simpl. by rewrite dom_empty_L, (left_id_L ∅ (∪)).
Qed.

Lemma sequential_success_needs_declaration_order_witness :
  ∃ res m,
    FlowExecutor.execute (fun _ => 0)
      (FlowExecutor.new
         (FlowExecutor.mkExecutionOptions None None None None))
      FlowExecutor.settleAll
      (mkWorkflow "w" "W" None
         [mkStep "a" "analysis" "A" None [];
          mkStep "b" "fix" "B" None ["a"]]) = Some (res, m)
    ∧ wr_success res = true
    ∧ forwardOnly [mkStep "a" "analysis" "A" None [];
                   mkStep "b" "fix" "B" None ["a"]].
Proof.
  destruct (sequential_success_needs_declaration_order (fun _ => 0)
              (FlowExecutor.new
                 (FlowExecutor.mkExecutionOptions None None None None))
              FlowExecutor.settleAll
              (mkWorkflow "w" "W" None
                 [mkStep "a" "analysis" "A" None [];
                  mkStep "b" "fix" "B" None ["a"]]) eq_refl)
    as (res & m & Hrun & Himp).
  exists res, m. split; [exact Hrun|].
  assert (wr_success res = true) as Hok.
  { vm_compute in Hrun. injection Hrun as <- <-. reflexivity. }
  split; [exact Hok|]. exact (proj1 (Himp Hok)).
Defined.

(** X7. In sequential mode, when every step type is known and the
    timeout is never exceeded, the run reports overall success exactly
    when every dependency names a step declared earlier in the array;
    it then reports no error, and the log shows each step started and
    recorded as a success in declaration order. *)
Theorem sequential_success_iff_declaration_order
    (now : nat → Z) (options : FlowExecutor.Options)
    (sched : nat → list string → list string) (workflow : Workflow) :
  FlowExecutor.parallel options = false →
  noTimeout now options →
  (∀ step, step ∈ wf_steps workflow →
           ws_type step ∈ FlowValidator.validTypes) →
  ∃ res m,
    FlowExecutor.execute now options sched workflow = Some (res, m)
    ∧ (wr_success res = true ↔ forwardOnly (wf_steps workflow))
    ∧ (forwardOnly (wf_steps workflow) →
       errors res = []
       ∧ FlowExecutor.log m = straightLog (wf_steps workflow)
       ∧ FlowExecutor.unhandled m = []).
Proof.
  intros Hpar Hnt Hty. unfold FlowExecutor.execute. rewrite Hpar.
  destruct (FlowExecutor.executeSequential _ _ _ _ _) as [c m1] eqn:Hseq.
  eexists _, m1. split; [reflexivity|].
  cbn [wr_success stepResults errors].
  assert (forwardOnly (wf_steps workflow) →
          c = FlowExecutor.Returned
          ∧ allSucceeded (FlowExecutor.completedSteps m1)
          ∧ FlowExecutor.log m1 = straightLog (wf_steps workflow)
          ∧ FlowExecutor.unhandled m1 = []) as Hstraight.
  { intros Hfw.
    destruct (executeSequential_straight now options (wf_steps workflow)
                (FlowExecutor.mkMachine ∅ None 1 [] []) Hnt Hty)
      as (m' & Hrun & Hall & Hlog & Hun).
    - intros id r Hr. simpl in Hr. by rewrite lookup_empty in Hr.
    - simpl. rewrite dom_empty_L. by apply forwardOnly_from.
    - rewrite Hseq in Hrun. by injection Hrun as -> ->. }
  split.
  - split.
    + intros [Herr Hall]%andb_true_iff. destruct c; [|done].
      apply forwardOnly_from.
      by apply (executeSequential_forward _ _ _ _ _ Hseq).
    + intros Hfw. destruct (Hstraight Hfw) as (-> & Hall & _). simpl.
      by apply allStepsSucceeded_spec.
  - intros Hfw. by destruct (Hstraight Hfw) as (-> & _ & Hlog & Hun).
Qed.

Lemma sequential_success_iff_declaration_order_witness :
  ∃ res m,
    FlowExecutor.execute (fun _ => 0)
      (FlowExecutor.new
         (FlowExecutor.mkExecutionOptions None None None None))
      FlowExecutor.settleAll
      (mkWorkflow "w" "W" None
         [mkStep "b" "fix" "B" None ["a"];
          mkStep "a" "analysis" "A" None []]) = Some (res, m)
    ∧ (wr_success res = true
       ↔ forwardOnly [mkStep "b" "fix" "B" None ["a"];
                      mkStep "a" "analysis" "A" None []]).
Proof.
  destruct (sequential_success_iff_declaration_order (fun _ => 0)
              (FlowExecutor.new
                 (FlowExecutor.mkExecutionOptions None None None None))
              FlowExecutor.settleAll
              (mkWorkflow "w" "W" None
                 [mkStep "b" "fix" "B" None ["a"];
                  mkStep "a" "analysis" "A" None []]))
    as (res & m & Hrun & Hiff & _).
  - reflexivity.
  - intros t. simpl. lia.
  - intros step Hin.
    repeat (apply elem_of_cons in Hin as [->|Hin];
            [apply (bool_decide_unpack _); vm_compute; exact I|]).
    by apply elem_of_nil in Hin.
  - exists res, m. split; [exact Hrun|exact Hiff].
Defined.

(** ** The [execute] method of a built workflow and declaration order *)

Section BuiltOrder.
Import Built.
Variable now : nat → Z.

Lemma runStep_failures_grow r step :
  failures r ≠ [] → failures (runStep now r step) ≠ [].
Proof.
  intros Hne. unfold runStep.
  destruct (firstUnmet _ _); simpl; [|done].
  intros [? _]%app_eq_nil. done.
Qed.

Lemma runSteps_failures_grow rest r :
  failures r ≠ [] → failures (runSteps now rest r) ≠ [].
Proof.
  revert r. induction rest as [|step rest IH]; intros r Hne; [done|].
  simpl. by apply IH, runStep_failures_grow.
Qed.

(** Starting from successes only and no error, the loop ends without an
    error exactly when every dependency was stored before or names an
    earlier step. *)
Lemma runSteps_no_failure rest r :
  allSucceeded (results r) → failures r = [] →
  (failures (runSteps now rest r) = []
   ↔ forwardFrom (dom (results r)) rest)
  ∧ (failures (runSteps now rest r) = [] →
     allSucceeded (results (runSteps now rest r))).
Proof.
  revert r. induction rest as [|step rest IH]; intros r Hall Hnil.
  - simpl. split; [|done]. split; [|done].
    intros _ i s d Hi. by destruct i.
  - simpl. rewrite forwardFrom_cons.
    destruct (firstUnmet (ws_dependencies step) (results r)) as [d|] eqn:Hf.
    + assert (failures (runStep now r step) ≠ []) as Hne.
      { unfold runStep. rewrite Hf. simpl. rewrite Hnil. done. }
      pose proof (runSteps_failures_grow rest _ Hne) as Hne'.
      split; [|done]. split; [done|]. intros [Hhead _]. exfalso.
      apply firstUnmet_Some in Hf as [Hin Hno]. apply Hno.
      destruct (proj1 (elem_of_dom _ _) (Hhead d Hin)) as [res Hres].
      exists res. split; [done|]. by eapply Hall.
    + pose proof (firstUnmet_None _ _ Hf) as Hmet.
      destruct (IH (runStep now r step)) as [Hiff Hok].
      * unfold runStep. rewrite Hf. simpl. by apply allSucceeded_insert.
      * unfold runStep. by rewrite Hf.
      * split; [|done]. rewrite Hiff. unfold runStep at 1. rewrite Hf.
        simpl. rewrite dom_insert_L. split; [|by intros [_ ?]].
        intros Hrest. split; [|done]. intros depId Hin.
        destruct (Hmet depId Hin) as (res & Hres & _).
        apply elem_of_dom. by eexists.
Qed.
End BuiltOrder.

(** X8. The [execute] method of a built workflow reports overall
    success exactly when every dependency of every step names a step
    declared earlier in the array; every stored result is then a
    success. *)
Theorem built_execute_success_iff_declaration_order
    (now : nat → Z) (w : Workflow) :
  (wr_success (Built.execute now w) = true ↔ forwardOnly (wf_steps w))
  ∧ (wr_success (Built.execute now w) = true →
     allSucceeded (stepResults (Built.execute now w))).
Proof.
  unfold Built.execute. cbn [wr_success stepResults].
  rewrite bool_decide_eq_true, length_zero_iff_nil, forwardOnly_from.
  destruct (runSteps_no_failure now (wf_steps w)
              (Built.mkRun 1 ∅ [])) as [Hiff Hok]; [|done|].
  - intros id r Hr. simpl in Hr. by rewrite lookup_empty in Hr.
  - simpl in Hiff. rewrite dom_empty_L in Hiff. done.
Qed.

(** ** Parallel mode: invariants of the loop *)

Section ParallelInvariants.
Import FlowExecutor.
Variable now : nat → Z.
Variable options : Options.
Variable startTime : Z.
Variable sched : nat → list string → list string.
Variable steps : list WorkflowStep.

Local Abbreviation startStep := (startStep now options startTime steps).
Local Abbreviation onSettled := (onSettled now options).
Local Abbreviation settleOne := (settleOne now options).
Local Abbreviation awaitRace := (awaitRace now options sched).

Section Generic.
Variable I : Par → Prop.
Hypothesis I_start : ∀ p x step,
  I p → findStep steps x = Some step →
  dependenciesMet step (completedSteps (mach p)) = true →
  I (startStep p x).
Hypothesis I_settle : ∀ p e, I p → e ∈ executing p → I (onSettled e p).
Hypothesis I_round : ∀ p, I p → I (nextRound p).

Lemma startSteps_inv ready p :
  (∀ x, x ∈ ready →
        ∃ step, findStep steps x = Some step
                ∧ dependenciesMet step (completedSteps (mach p)) = true) →
  I p → I (fold_left startStep ready p).
Proof.
  revert p. induction ready as [|x ready IH]; intros p Hready Hp; [done|].
  simpl. destruct (Hready x) as (step & Hf & Hmet); [by left|].
  apply IH; [|by eapply I_start].
  intros y Hy. destruct (Hready y) as (s & Hs & Hm); [by right|].
  exists s. split; [done|].
  destruct (startStep_found now options startTime steps p x step Hf)
    as (promise & t' & _ & ->). done.
Qed.

Lemma settleMany_inv ids p : I p → I (fold_left settleOne ids p).
Proof.
  revert p. induction ids as [|x ids IH]; intros p Hp; [done|].
  simpl. apply IH. unfold FlowExecutor.settleOne.
  destruct (List.find _ (executing p)) as [e|] eqn:Hf; [|done].
  apply I_settle; [done|]. apply find_some in Hf as [Hin _].
  by apply list_elem_of_In.
Qed.

Lemma parallelLoop_inv fuel p c p' :
  parallelLoop now options startTime sched fuel steps p = Some (c, p') →
  I p → I p'.
Proof.
  revert p. induction fuel as [|fuel IH]; intros p Hrun Hp; [done|].
  simpl in Hrun.
  destruct (negb _); [by injection Hrun as <- <-|].
  set (ready := readySteps steps p) in *.
  set (p1 := fold_left startStep ready p) in *.
  assert (I p1) as Hp1.
  { apply startSteps_inv; [|done]. apply readySteps_met. }
  set (p2 := if (0 <? length (executing p1))%nat then awaitRace p1 else p1)
    in *.
  assert (I p2) as Hp2.
  { unfold p2. destruct (0 <? _)%nat; [|done]. by apply settleMany_inv. }
  destruct (_ && _); [by injection Hrun as <- <-|].
  apply (IH (nextRound p2)); [done|]. by apply I_round.
Qed.
End Generic.

(** How the loop ends: nothing is in flight; on a return nothing is
    pending, on a throw the error is the deadlock and some id is
    pending. *)
Lemma parallelLoop_exit fuel p c p' :
  parallelLoop now options startTime sched fuel steps p = Some (c, p') →
  executing p' = []
  ∧ match c with
    | Returned => pending p' = []
    | Thrown e => e = deadlock ∧ pending p' ≠ []
    end.
Proof.
  revert p. induction fuel as [|fuel IH]; intros p Hrun; [done|].
  simpl in Hrun.
  destruct (negb _) eqn:Hcond.
  { injection Hrun as <- <-.
    apply negb_true_iff, orb_false_iff in Hcond as [Hp He].
    apply Nat.ltb_ge in Hp, He.
    split; apply length_zero_iff_nil; lia. }
  destruct (_ && _) eqn:Hdead; [|by apply (IH _ Hrun)].
  injection Hrun as <- <-.
  apply andb_true_iff in Hdead as [[_ He]%andb_true_iff Hp].
  apply bool_decide_eq_true, length_zero_iff_nil in He.
  apply Nat.ltb_lt in Hp. split; [done|]. split; [done|].
  intros Hnil. rewrite Hnil in Hp. simpl in Hp. lia.
Qed.

Lemma elem_of_filter_ne (x y : string) (l : list string) :
  x ∈ List.filter (fun z => negb (bool_decide (z = y))) l ↔ x ∈ l ∧ x ≠ y.
Proof.
  rewrite !list_elem_of_In, filter_In.
  by rewrite negb_true_iff, bool_decide_eq_false.
Qed.

Lemma elem_of_inflight_filter (x y : string) (l : list InFlight) :
  x ∈ map if_id
        (List.filter (fun e => negb (bool_decide (if_id e = y))) l)
  ↔ x ∈ map if_id l ∧ x ≠ y.
Proof.
  rewrite !list_elem_of_In, !in_map_iff. split.
  - intros (e & <- & [Hin Hne]%filter_In).
    apply negb_true_iff, bool_decide_eq_false in Hne. eauto.
  - intros [(e & <- & Hin) Hne]. exists e. split; [done|].
    apply filter_In. split; [done|].
    by apply negb_true_iff, bool_decide_eq_false.
Qed.

Lemma findStep_Some x step :
  findStep steps x = Some step → step ∈ steps ∧ ws_id step = x.
Proof.
  intros [Hin Hid]%find_some. apply bool_decide_eq_true in Hid.
  by rewrite list_elem_of_In.
Qed.

Lemma parInv_start p x step :
  parInv steps p → findStep steps x = Some step →
  dependenciesMet step (completedSteps (mach p)) = true →
  parInv steps (startStep p x).
Proof.
  intros [Hcover Hpend] Hf _.
  destruct (startStep_found now options startTime steps p x step Hf)
    as (promise & t' & _ & ->).
  apply findStep_Some in Hf as [Hin Hid].
  split; simpl.
  - intros y. rewrite elem_of_filter_ne, map_app, elem_of_app. simpl.
    rewrite list_elem_of_singleton, Hcover.
    destruct (decide (y = x)) as [->|Hne]; [|tauto].
    split; [tauto|]. intros _. apply Hcover.
    apply list_elem_of_fmap. by exists step.
  - intros y [Hy Hne]%elem_of_filter_ne.
    destruct (Hpend y Hy) as [He Hc]. split; [|done].
    rewrite map_app, elem_of_app. simpl. rewrite list_elem_of_singleton.
    tauto.
Qed.

Lemma parInv_settle p e :
  parInv steps p → e ∈ executing p → parInv steps (onSettled e p).
Proof.
  intros [Hcover Hpend] Hin. unfold FlowExecutor.onSettled.
  destruct (settlePromise now (if_step e) (if_promise e) (ticks (mach p)))
    as [result t'].
  assert (if_id e ∈ map if_id (executing p)) as Hid.
  { apply list_elem_of_In, in_map. by apply list_elem_of_In. }
  split; simpl.
  - intros y. rewrite elem_of_inflight_filter, dom_insert_L,
      elem_of_union, elem_of_singleton, Hcover.
    destruct (decide (y = if_id e)) as [->|Hne]; tauto.
  - intros y Hy. destruct (Hpend y Hy) as [He Hc].
    rewrite elem_of_inflight_filter, dom_insert_L, elem_of_union,
      elem_of_singleton.
    split; [tauto|]. intros [->|?]; done.
Qed.

Lemma elem_of_dedup seen ids x :
  x ∈ dedup seen ids ↔ x ∈ ids ∧ x ∉ seen.
Proof.
  revert seen. induction ids as [|y ids IH]; intros seen; simpl.
  - split; [by intros ?%elem_of_nil|by intros [?%elem_of_nil _]].
  - destruct (bool_decide_reflect (y ∈ seen)) as [Hy|Hy].
    + rewrite IH, elem_of_cons. split; [tauto|].
      intros [[->|?] ?]; done.
    + rewrite !elem_of_cons, IH, elem_of_union, elem_of_singleton.
      destruct (decide (x = y)) as [->|Hne]; tauto.
Qed.

Lemma parInv_init m :
  completedSteps m = ∅ →
  parInv steps {| mach := m; pending := dedup ∅ (stepIds steps);
                  executing := []; round := 0 |}.
Proof.
  intros Hm. split; simpl; intros x; rewrite Hm, dom_empty_L.
  - rewrite elem_of_dedup. split; [by left|].
    intros [[? _]|[?%elem_of_nil|?%elem_of_empty]]; done.
  - intros _. split; [by intros ?%elem_of_nil|by intros ?%elem_of_empty].
Qed.

(** The bookkeeping invariant holds when the loop ends. *)
Lemma executeParallel_parInv m c m' :
  completedSteps m = ∅ →
  executeParallel now options startTime sched steps m = Some (c, m') →
  (c = Returned → dom (completedSteps m') = list_to_set (stepIds steps))
  ∧ (∀ e, c = Thrown e →
          e = deadlock
          ∧ ∃ x, x ∈ stepIds steps ∧ completedSteps m' !! x = None)
  ∧ dom (completedSteps m') ⊆ list_to_set (stepIds steps).
Proof.
  intros Hm. unfold executeParallel.
  destruct (parallelLoop _ _ _ _ _ _ _) as [[c0 p']|] eqn:Hloop; [|done].
  intros [= <- <-].
  pose proof (parallelLoop_inv (parInv steps) parInv_start parInv_settle
                ltac:(by intros ? []) _ _ _ _ Hloop (parInv_init m Hm))
    as [Hcover Hpend].
  destruct (parallelLoop_exit _ _ _ _ Hloop) as [Hex Hc].
  split; [|split].
  - intros ->. simpl in Hc. apply set_eq. intros x.
    rewrite elem_of_list_to_set, Hcover, Hex, Hc. split; [by auto|].
    intros [?%elem_of_nil|[?%elem_of_nil|?]]; done.
  - intros e ->. destruct Hc as [-> Hne]. split; [done|].
    destruct (pending p') as [|x l] eqn:Hp; [done|].
    exists x. split.
    + apply Hcover. left. by left.
    + apply not_elem_of_dom. apply Hpend. by left.
  - intros x Hx. apply elem_of_list_to_set, Hcover. auto.
Qed.
End ParallelInvariants.

(** X9. In parallel mode, for every clock and every schedule, a run
    that reports no error has stored a result for exactly the step ids;
    a run that reports an error reports the deadlock only, and then some
    step id has no result; in both cases every key of the result map is
    a step id. *)
Theorem parallel_results_cover_the_steps
    (now : nat → Z) (options : FlowExecutor.Options)
    (sched : nat → list string → list string) (workflow : Workflow) :
  FlowExecutor.parallel options = true →
  ∃ res m,
    FlowExecutor.execute now options sched workflow = Some (res, m)
    ∧ (errors res = [] →
       dom (stepResults res) = list_to_set (stepIds (wf_steps workflow)))
    ∧ (errors res ≠ [] →
       errors res = [deadlock]
       ∧ ∃ x, x ∈ stepIds (wf_steps workflow)
              ∧ stepResults res !! x = None)
    ∧ dom (stepResults res) ⊆ list_to_set (stepIds (wf_steps workflow)).
Proof.
  intros Hpar. unfold FlowExecutor.execute. rewrite Hpar.
  destruct (executeParallel_total now options (now 0%nat) sched
              (wf_steps workflow) (FlowExecutor.mkMachine ∅ None 1 [] []))
    as [[c m'] Hrun].
  rewrite Hrun. eexists _, m'. split; [reflexivity|].
  cbn [errors stepResults].
  apply executeParallel_parInv in Hrun as (Hret & Hthrow & Hsub);
    [|done].
  split; [|split; [|done]].
  - destruct c; [by auto|done].
  - destruct c as [|e]; [done|]. intros _.
    destruct (Hthrow e eq_refl) as [-> Hx]. done.
Qed.

Lemma parallel_results_cover_the_steps_witness :
  ∃ res m,
    FlowExecutor.execute (fun _ => 0)
      (FlowExecutor.new
         (FlowExecutor.mkExecutionOptions None None None (Some true)))
      FlowExecutor.settleAll
      (mkWorkflow "w" "W" None
         [mkStep "b" "fix" "B" None ["a"];
          mkStep "a" "analysis" "A" None []]) = Some (res, m)
    ∧ dom (stepResults res) = list_to_set ["b"; "a"].
Proof.
  destruct (parallel_results_cover_the_steps (fun _ => 0)
              (FlowExecutor.new
                 (FlowExecutor.mkExecutionOptions None None None (Some true)))
              FlowExecutor.settleAll
              (mkWorkflow "w" "W" None
                 [mkStep "b" "fix" "B" None ["a"];
                  mkStep "a" "analysis" "A" None []]) eq_refl)
    as (res & m & Hrun & Hok & _).
  exists res, m. split; [exact Hrun|]. apply Hok.
  vm_compute in Hrun. injection Hrun as <- <-. reflexivity.
Defined.

(** ** A relation with a successor everywhere in a finite set has a cycle *)

Lemma tc_shortcut {A} (R : relation A) (a : A) x y :
  tc (fun x z => R x z ∨ (R x a ∧ R a z)) x y → tc R x y.
Proof.
  induction 1 as [x y [H|[H1 H2]] | x y z [H|[H1 H2]] _ IH].
  - by apply tc_once.
  - eapply tc_l; [done|]. by apply tc_once.
  - by eapply tc_l.
  - eapply tc_l; [done|]. by eapply tc_l.
Qed.

Lemma finite_descent_bounded {A} `{EqDecision A} (n : nat) :
  ∀ (R : relation A) (l : list A),
    (length l ≤ n)%nat → l ≠ [] →
    (∀ x, x ∈ l → ∃ y, y ∈ l ∧ R x y) →
    ∃ u, tc R u u.
Proof.
  induction n as [|n IH]; intros R l Hlen Hne Hsucc.
  { destruct l; [done|]. simpl in Hlen. lia. }
  destruct l as [|a l]; [done|].
  destruct (Hsucc a) as (b & Hb & Hab); [by left|].
  destruct (decide (b = a)) as [->|Hba].
  { exists a. by apply tc_once. }
  set (l' := List.filter (fun z => negb (bool_decide (z = a))) l).
  assert (∀ z, z ∈ l' ↔ z ∈ a :: l ∧ z ≠ a) as Hl'.
  { intros z. unfold l'. rewrite list_elem_of_In, filter_In,
      <- list_elem_of_In, negb_true_iff, bool_decide_eq_false,
      elem_of_cons. tauto. }
  destruct (IH (fun x z => R x z ∨ (R x a ∧ R a z)) l') as [u Hu].
  - pose proof (filter_length_le
                  (fun z => negb (bool_decide (z = a))) l) as Hle.
    fold l' in Hle. simpl in Hlen. lia.
  - intros Hnil. assert (b ∈ l') as Hin by (by apply Hl').
    rewrite Hnil in Hin. by apply elem_of_nil in Hin.
  - intros x [Hx Hxa]%Hl'. destruct (Hsucc x Hx) as (y & Hy & Hxy).
    destruct (decide (y = a)) as [->|Hya].
    + exists b. split; [by apply Hl'|]. right. done.
    + exists y. split; [by apply Hl'|]. by left.
  - exists u. by eapply tc_shortcut.
Qed.

Lemma finite_descent {A} `{EqDecision A} (R : relation A) (l : list A) :
  l ≠ [] → (∀ x, x ∈ l → ∃ y, y ∈ l ∧ R x y) → ∃ u, tc R u u.
Proof. by apply (finite_descent_bounded (length l)). Qed.

(** ** Parallel mode when every promise settles before the loop resumes *)

Section ParallelSettleAll.
Import FlowExecutor.
Variable now : nat → Z.
Variable options : Options.
Variable steps : list WorkflowStep.

Local Abbreviation startStep := (startStep now options (now 0%nat) steps).
Local Abbreviation onSettled := (onSettled now options).
Local Abbreviation settleOne := (settleOne now options).
Local Abbreviation awaitRace := (awaitRace now options settleAll).

Hypothesis no_timeout : noTimeout now options.
Hypothesis known_types :
  ∀ step, step ∈ steps → ws_type step ∈ FlowValidator.validTypes.

Lemma executeStepByType_known step :
  ws_type step ∈ FlowValidator.validTypes →
  ∃ out, executeStepByType step = inl out.
Proof.
  intros Hty. unfold executeStepByType, FlowValidator.validTypes in *.
  repeat (apply elem_of_cons in Hty as [->|Hty]; [by eexists|]).
  by apply elem_of_nil in Hty.
Qed.

Lemma parGood_start p x step :
  parGood p → findStep steps x = Some step →
  dependenciesMet step (completedSteps (mach p)) = true →
  parGood (startStep p x).
Proof.
  intros [Hres Hfl Hun] Hf _.
  unfold FlowExecutor.startStep. rewrite Hf.
  unfold executeStepStart.
  replace (now (S (ticks (mach p))) - now 0%nat >? timeout options)
    with false.
  2:{ symmetry. rewrite Z.gtb_ltb. apply Z.ltb_ge, no_timeout. }
  apply (findStep_Some steps) in Hf as [Hin _].
  destruct (executeStepByType_known step (known_types step Hin))
    as [out Hout].
  split; simpl; [done| |done].
  intros e [He|He%list_elem_of_singleton]%elem_of_app; [by apply Hfl|].
  subst e. simpl. rewrite Hout. by eexists _, _.
Qed.

Lemma parGood_settle p e :
  parGood p → e ∈ executing p → parGood (onSettled e p).
Proof.
  intros [Hres Hfl Hun] Hin. unfold FlowExecutor.onSettled.
  destruct (Hfl e Hin) as (stepStart & out & ->). simpl.
  split; simpl.
  - by apply allSucceeded_insert.
  - intros e' He'. apply Hfl. apply list_elem_of_In in He'.
    apply filter_In in He' as [He' _]. by apply list_elem_of_In.
  - done.
Qed.

Lemma filter_not_in_nil {A} (f : A → string) (l : list A) :
  List.filter (fun e => negb (bool_decide (f e ∈ @nil string))) l = l.
Proof.
  induction l as [|a l IH]; [done|]. cbn [List.filter].
  rewrite bool_decide_eq_false_2 by (by intros ?%elem_of_nil).
  cbn [negb]. by rewrite IH.
Qed.

Lemma filter_not_in_cons {A} (f : A → string) x ids (l : list A) :
  List.filter (fun e => negb (bool_decide (f e ∈ ids)))
    (List.filter (fun e => negb (bool_decide (f e = x))) l)
  = List.filter (fun e => negb (bool_decide (f e ∈ x :: ids))) l.
Proof.
  induction l as [|a l IH]; [done|]. simpl.
  destruct (bool_decide_reflect (f a = x)) as [Heq|Hne]; simpl.
  - rewrite (bool_decide_eq_true_2 (f a ∈ x :: ids))
      by (rewrite Heq; by left).
    simpl. exact IH.
  - destruct (bool_decide_reflect (f a ∈ ids)) as [Hin|Hnin]; simpl.
    + rewrite (bool_decide_eq_true_2 (f a ∈ x :: ids)) by (by right).
      simpl. exact IH.
    + rewrite (bool_decide_eq_false_2 (f a ∈ x :: ids)).
      2:{ intros [?|?]%elem_of_cons; done. }
      simpl. by rewrite IH.
Qed.

Lemma settleOne_executing p x :
  executing (settleOne p x)
  = List.filter (fun e => negb (bool_decide (if_id e = x))) (executing p).
Proof.
  unfold FlowExecutor.settleOne.
  destruct (List.find _ (executing p)) as [e|] eqn:Hf.
  - destruct (onSettled_shape now options e p) as (_ & _ & ->).
    apply find_some in Hf as [_ Hid]. apply bool_decide_eq_true in Hid.
    by rewrite Hid.
  - symmetry. apply forallb_filter_id. apply forallb_forall. intros e He.
    by rewrite (find_none _ _ Hf e He).
Qed.

Lemma settleMany_executing ids p :
  executing (fold_left settleOne ids p)
  = List.filter (fun e => negb (bool_decide (if_id e ∈ ids))) (executing p).
Proof.
  revert p. induction ids as [|x ids IH]; intros p; cbn [fold_left].
  - by rewrite (filter_not_in_nil if_id).
  - by rewrite IH, settleOne_executing, (filter_not_in_cons if_id).
Qed.

Lemma filter_in_self (l : list string) :
  List.filter (fun x => bool_decide (x ∈ l)) l = l.
Proof.
  apply forallb_filter_id, forallb_forall. intros x Hx.
  by apply bool_decide_eq_true, list_elem_of_In.
Qed.

Lemma filter_known_ids (ids : list string) (l : list InFlight) :
  (∀ e, e ∈ l → if_id e ∈ ids) →
  List.filter (fun e => negb (bool_decide (if_id e ∈ ids))) l = [].
Proof.
  induction l as [|a l IHl]; [done|]. intros Hl. cbn [List.filter].
  rewrite bool_decide_eq_true_2 by (apply Hl; by left). cbn [negb].
  apply IHl. intros e He. apply Hl. by right.
Qed.

(** Under [settleAll] nothing is in flight when the loop resumes. *)
Lemma awaitRace_settleAll p : executing (awaitRace p) = [].
Proof.
  unfold FlowExecutor.awaitRace, settling, settleAll.
  rewrite filter_in_self.
  destruct (map if_id (executing p)) as [|x ids'] eqn:Hids.
  - simpl. by destruct (executing p).
  - rewrite settleMany_executing, <- Hids. apply filter_known_ids.
    intros e He. apply list_elem_of_In, in_map. by apply list_elem_of_In.
Qed.

Hypothesis ids_distinct : NoDup (stepIds steps).
Hypothesis dependencies_exist :
  ∀ step depId, step ∈ steps → depId ∈ ws_dependencies step →
                depId ∈ stepIds steps.
Hypothesis acyclic : ¬ ∃ u, tc (declares steps) u u.

Lemma dependenciesMet_false step completed :
  dependenciesMet step completed = false →
  ∃ depId, depId ∈ ws_dependencies step
           ∧ ¬ ∃ res, completed !! depId = Some res ∧ success res = true.
Proof.
  unfold dependenciesMet.
  induction (ws_dependencies step) as [|d deps IH]; simpl; [done|].
  destruct (completed !! d) as [res|] eqn:Hd.
  - destruct (success res) eqn:Hok; simpl.
    + intros Hrest. destruct (IH Hrest) as (depId & Hin & Hno).
      exists depId. split; [by right|done].
    + intros _. exists d. split; [by left|].
      intros (r & Hr & Hs). congruence.
  - intros _. exists d. split; [by left|]. intros (r & Hr & _).
    congruence.
Qed.

(** With nothing in flight and successes only, some pending step is
    ready. *)
Lemma some_step_ready p :
  parInv steps p → parGood p → executing p = [] → pending p ≠ [] →
  readySteps steps p ≠ [].
Proof.
  intros [Hcover Hpend] [Hres _ _] Hex Hne Hready. apply acyclic.
  apply (finite_descent (declares steps) (pending p) Hne).
  intros x Hx.
  assert (x ∈ stepIds steps) as Hid by (apply Hcover; by left).
  apply list_elem_of_fmap in Hid as (step & -> & Hin).
  pose proof (findStep_NoDup steps step ids_distinct Hin) as Hf.
  assert (dependenciesMet step (completedSteps (mach p)) = false) as Hmet.
  { destruct (dependenciesMet step (completedSteps (mach p))) eqn:Hm;
      [|done].
    exfalso. assert (ws_id step ∈ readySteps steps p) as Hr.
    { apply list_elem_of_In, filter_In. rewrite Hf.
      split; [by apply list_elem_of_In|done]. }
    rewrite Hready in Hr. by apply elem_of_nil in Hr. }
  apply dependenciesMet_false in Hmet as (depId & Hdep & Hno).
  exists depId. split; [|by exists step].
  pose proof (dependencies_exist step depId Hin Hdep) as Hd.
  apply Hcover in Hd as [Hd|[Hd|Hd]]; [done| |].
  - rewrite Hex in Hd. by apply elem_of_nil in Hd.
  - exfalso. apply Hno. apply elem_of_dom in Hd as [res Hr].
    exists res. split; [done|]. by eapply Hres.
Qed.

Lemma parallelLoop_settleAll fuel p c p' :
  parInv steps p → parGood p → executing p = [] →
  parallelLoop now options (now 0%nat) settleAll fuel steps p
    = Some (c, p') →
  c = Returned ∧ parGood p'.
Proof.
  revert p. induction fuel as [|fuel IH]; intros p Hinv Hgood Hex Hrun;
    [done|].
  simpl in Hrun.
  destruct (negb _) eqn:Hcond; [by injection Hrun as <- <-|].
  assert (pending p ≠ []) as Hne.
  { intros Hnil. rewrite Hnil, Hex in Hcond. done. }
  pose proof (some_step_ready p Hinv Hgood Hex Hne) as Hready.
  set (ready := readySteps steps p) in *.
  set (p1 := fold_left startStep ready p) in *.
  assert (parInv steps p1 ∧ parGood p1) as [Hinv1 Hgood1].
  { apply (startSteps_inv now options (now 0%nat) steps
             (fun q => parInv steps q ∧ parGood q)).
    - intros q x step [??] ??. split.
      + by eapply parInv_start.
      + by eapply parGood_start.
    - apply readySteps_met.
    - by split. }
  set (p2 := if (0 <? length (executing p1))%nat then awaitRace p1 else p1)
    in *.
  assert (parInv steps p2 ∧ parGood p2) as [Hinv2 Hgood2].
  { unfold p2. destruct (0 <? length (executing p1))%nat; [|by split].
    apply (settleMany_inv now options
             (fun q => parInv steps q ∧ parGood q)); [|by split].
    intros q e [??] ?. split.
    - by apply parInv_settle.
    - by apply parGood_settle. }
  assert (executing p2 = []) as Hex2.
  { unfold p2. destruct (0 <? length (executing p1))%nat eqn:Hlen.
    - apply awaitRace_settleAll.
    - apply Nat.ltb_ge in Hlen. apply length_zero_iff_nil. lia. }
  rewrite (bool_decide_eq_false_2 (length ready = 0%nat)) in Hrun.
  2:{ rewrite length_zero_iff_nil. done. }
  simpl in Hrun. apply (IH (nextRound p2)); try done.
  - by destruct Hinv2.
  - by destruct Hgood2.
Qed.
End ParallelSettleAll.

(** ** Parallel mode on accepted workflows *)

(** What [canExecute] has checked when it answers [true]. *)
Lemma canExecute_true workflow reason :
  FlowValidator.canExecute workflow = Some (true, reason) →
  (∀ step, step ∈ wf_steps workflow →
           ws_type step ∈ FlowValidator.validTypes)
  ∧ (∀ step depId, step ∈ wf_steps workflow →
                   depId ∈ ws_dependencies step →
                   depId ∈ stepIds (wf_steps workflow))
  ∧ ¬ cyclic (wf_steps workflow).
Proof.
  intros Hcan.
  destruct (canExecute_cases workflow)
    as (res & ok & r & Hres & Hcan' & Hok & _).
  rewrite Hcan in Hcan'. injection Hcan' as <- <-.
  destruct (proj1 Hok eq_refl) as [Hvalid Htypes].
  destruct (validate_accepts workflow) as (res' & Hres' & Hacc).
  rewrite Hres in Hres'. injection Hres' as <-.
  destruct (proj1 Hacc Hvalid) as (_ & _ & _ & Hsteps & Hacyc).
  split; [done|]. split; [|done].
  intros step depId Hin Hdep. by apply (Hsteps step Hin).
Qed.

(** The parallel run of a workflow whose steps cannot fail and whose
    dependencies exist and form no cycle, when every started step
    settles before the loop resumes. *)
Lemma parallel_settleAll_run
    (now : nat → Z) (options : FlowExecutor.Options)
    (workflow : Workflow) :
  FlowExecutor.parallel options = true →
  noTimeout now options →
  NoDup (stepIds (wf_steps workflow)) →
  (∀ step, step ∈ wf_steps workflow →
           ws_type step ∈ FlowValidator.validTypes) →
  (∀ step depId, step ∈ wf_steps workflow →
                 depId ∈ ws_dependencies step →
                 depId ∈ stepIds (wf_steps workflow)) →
  (¬ ∃ u, tc (declares (wf_steps workflow)) u u) →
  ∃ res m,
    FlowExecutor.execute now options FlowExecutor.settleAll workflow
      = Some (res, m)
    ∧ wr_success res = true
    ∧ errors res = []
    ∧ dom (stepResults res) = list_to_set (stepIds (wf_steps workflow))
    ∧ allSucceeded (stepResults res)
    ∧ FlowExecutor.unhandled m = [].
Proof.
  intros Hpar Hnt Hnd Hty Hdeps Hacyc.
  unfold FlowExecutor.execute. rewrite Hpar.
  set (m0 := FlowExecutor.mkMachine ∅ None 1 [] []).
  destruct (executeParallel_total now options (now 0%nat)
              FlowExecutor.settleAll (wf_steps workflow) m0)
    as [[c m'] Hrun].
  rewrite Hrun. eexists _, m'. split; [reflexivity|].
  cbn [wr_success errors stepResults].
  pose proof Hrun as Hcover.
  apply executeParallel_parInv in Hcover as (Hret & _ & _); [|done].
  unfold FlowExecutor.executeParallel in Hrun.
  destruct (FlowExecutor.parallelLoop _ _ _ _ _ _ _) as [[c0 p']|] eqn:Hloop;
    [|done].
  injection Hrun as <- <-.
  apply parallelLoop_settleAll in Hloop as [-> [Hall _ Hun]]; try done.
  - split.
    { simpl. by apply allStepsSucceeded_spec. }
    split; [done|]. split; [by apply Hret|]. done.
  - by apply parInv_init.
  - split; simpl; [|by intros e ?%elem_of_nil|done].
    intros id r Hr. by rewrite lookup_empty in Hr.
Qed.

(** X10. Parallel mode does not depend on the declaration order: when
    [canExecute] accepts a workflow whose step ids are distinct and the
    timeout is never exceeded, the parallel run in which every started
    step settles before the loop resumes reports overall success, no
    error and no unhandled rejection, and stores a successful result for
    exactly the step ids. *)
Theorem parallel_runs_every_accepted_workflow
    (now : nat → Z) (options : FlowExecutor.Options)
    (workflow : Workflow) :
  FlowExecutor.parallel options = true →
  noTimeout now options →
  NoDup (stepIds (wf_steps workflow)) →
  FlowValidator.canExecute workflow = Some (true, None) →
  ∃ res m,
    FlowExecutor.execute now options FlowExecutor.settleAll workflow
      = Some (res, m)
    ∧ wr_success res = true
    ∧ errors res = []
    ∧ dom (stepResults res) = list_to_set (stepIds (wf_steps workflow))
    ∧ allSucceeded (stepResults res)
    ∧ FlowExecutor.unhandled m = [].
Proof.
  intros Hpar Hnt Hnd Hcan.
  destruct (canExecute_true workflow None Hcan) as (Hty & Hdeps & Hacyc).
  apply parallel_settleAll_run; try done.
  intros [u Hu]. apply Hacyc. exists u. by apply tc_declares_dependsOn.
Qed.

Lemma parallel_runs_every_accepted_workflow_witness :
  ∃ res m,
    FlowExecutor.execute (fun _ => 0)
      (FlowExecutor.new
         (FlowExecutor.mkExecutionOptions None None None (Some true)))
      FlowExecutor.settleAll
      (mkWorkflow "w" "W" None
         [mkStep "c" "test" "C" None ["a"; "b"];
          mkStep "b" "fix" "B" None ["a"];
          mkStep "a" "analysis" "A" None []]) = Some (res, m)
    ∧ wr_success res = true.
Proof.
  destruct (parallel_runs_every_accepted_workflow (fun _ => 0)
              (FlowExecutor.new
                 (FlowExecutor.mkExecutionOptions None None None (Some true)))
              (mkWorkflow "w" "W" None
                 [mkStep "c" "test" "C" None ["a"; "b"];
                  mkStep "b" "fix" "B" None ["a"];
                  mkStep "a" "analysis" "A" None []]))
    as (res & m & Hrun & Hok & _).
  - reflexivity.
  - intros t. simpl. lia.
  - apply (bool_decide_unpack _). vm_compute. exact I.
  - vm_compute. reflexivity.
  - exists res, m. split; [exact Hrun|exact Hok].
Defined.

(** ** Rejections nobody handles *)

Section Unhandled.
Import FlowExecutor.
Variable now : nat → Z.
Variable options : Options.
Variable startTime : Z.
Variable steps : list WorkflowStep.

Lemma executeSequential_unhandled rest m c m' :
  executeSequential now options startTime rest m = (c, m') →
  unhandled m' = unhandled m.
Proof.
  revert m. induction rest as [|step rest IH]; intros m Hrun.
  - by injection Hrun as <- <-.
  - simpl in Hrun.
    destruct (negb (dependenciesMet step (completedSteps m)));
      [by injection Hrun as <- <-|].
    destruct (executeStep now options startTime step (ticks m))
      as [res t'].
    destruct (negb (success res) && negb (continueOnError options));
      [by injection Hrun as <- <-|].
    by rewrite (IH _ Hrun).
Qed.

Lemma parAudit_start p x step :
  parAudit options steps p → findStep steps x = Some step →
  dependenciesMet step (completedSteps (mach p)) = true →
  parAudit options steps (startStep now options startTime steps p x).
Proof.
  intros [Hfl Hun] Hf _.
  destruct (startStep_found now options startTime steps p x step Hf)
    as (promise & t' & _ & ->).
  split; simpl.
  - intros e [He|He%list_elem_of_singleton]%elem_of_app; [by apply Hfl|].
    by subst e.
  - rewrite Hun. destruct (continueOnError options); [done|].
    rewrite omap_app. simpl. by rewrite app_nil_r.
Qed.

Lemma parAudit_settle p e :
  parAudit options steps p → e ∈ executing p →
  parAudit options steps (onSettled now options e p).
Proof.
  intros [Hfl Hun] Hin. unfold FlowExecutor.onSettled.
  destruct (settlePromise now (if_step e) (if_promise e) (ticks (mach p)))
    as [result t'].
  split; simpl.
  - intros e' He'. apply Hfl. apply list_elem_of_In in He'.
    apply filter_In in He' as [He' _]. by apply list_elem_of_In.
  - rewrite Hun. destruct (continueOnError options).
    + by rewrite andb_false_r.
    + rewrite omap_app. simpl. rewrite (Hfl e Hin).
      destruct (success result); simpl; [by rewrite app_nil_r|done].
Qed.
End Unhandled.

(** X11. The rejections that no handler receives. A sequential run
    leaves none, and neither does a parallel run with continue-on-error
    on. A parallel run with continue-on-error off leaves, for every
    clock and schedule, exactly one rejection "Step failed: <name>" per
    failed result it recorded, in the order of the records. *)
Theorem unhandled_rejections_are_the_failed_records
    (now : nat → Z) (options : FlowExecutor.Options)
    (sched : nat → list string → list string) (workflow : Workflow) :
  ∃ res m,
    FlowExecutor.execute now options sched workflow = Some (res, m)
    ∧ FlowExecutor.unhandled m
      = if FlowExecutor.parallel options
           && negb (FlowExecutor.continueOnError options)
        then omap (failureOf (wf_steps workflow)) (FlowExecutor.log m)
        else [].
Proof.
  unfold FlowExecutor.execute.
  set (m0 := FlowExecutor.mkMachine ∅ None 1 [] []).
  destruct (FlowExecutor.parallel options) eqn:Hpar.
  - destruct (executeParallel_total now options (now 0%nat) sched
                (wf_steps workflow) m0) as [[c m'] Hrun].
    rewrite Hrun. eexists _, m'. split; [reflexivity|].
    unfold FlowExecutor.executeParallel in Hrun.
    destruct (FlowExecutor.parallelLoop _ _ _ _ _ _ _)
      as [[c0 p']|] eqn:Hloop; [|done].
    injection Hrun as <- <-.
    apply (parallelLoop_inv now options (now 0%nat) sched
             (wf_steps workflow) (parAudit options (wf_steps workflow)))
      in Hloop as [_ Hun].
    + rewrite Hun. by destruct (FlowExecutor.continueOnError options).
    + intros. by eapply parAudit_start.
    + intros. by apply parAudit_settle.
    + by intros ? [].
    + split; simpl; [by intros e ?%elem_of_nil|].
      by destruct (FlowExecutor.continueOnError options).
  - destruct (FlowExecutor.executeSequential _ _ _ _ _) as [c m'] eqn:Hrun.
    eexists _, m'. split; [reflexivity|].
    by rewrite (executeSequential_unhandled _ _ _ _ _ _ _ Hrun).
Qed.

(** ** Builder-made workflows *)

Lemma forwardOnly_nil : forwardOnly [].
Proof. intros i step d Hi. by destruct i. Qed.

Lemma forwardOnly_snoc steps step :
  forwardOnly (steps ++ [step])
  ↔ forwardOnly steps
    ∧ ∀ depId, depId ∈ ws_dependencies step → depId ∈ stepIds steps.
Proof.
  split.
  - intros H. split.
    + intros i s d Hi Hd.
      destruct (H i s d) as (j & prev & Hj & Hp & Hid); [|done|].
      { by apply lookup_app_l_Some. }
      exists j, prev. split; [done|]. split; [|done].
      rewrite lookup_app_l in Hp; [done|].
      apply lookup_lt_Some in Hi. lia.
    + intros d Hd.
      destruct (H (length steps) step d) as (j & prev & Hj & Hp & Hid);
        [|done|].
      { rewrite lookup_app_r by lia. by rewrite Nat.sub_diag. }
      rewrite lookup_app_l in Hp by lia.
      apply list_elem_of_fmap. exists prev. split; [done|].
      by eapply list_elem_of_lookup_2.
  - intros [Hfw Hlast] i s d Hi Hd.
    apply lookup_snoc_Some in Hi as [[Hlt Hi]|[-> <-]].
    + destruct (Hfw i s d Hi Hd) as (j & prev & Hj & Hp & Hid).
      exists j, prev. split; [done|]. split; [|done].
      by apply lookup_app_l_Some.
    + apply Hlast in Hd. apply list_elem_of_fmap in Hd as (prev & -> & Hin).
      apply list_elem_of_lookup in Hin as [j Hj]. exists j, prev.
      split; [by eapply lookup_lt_Some|]. split; [|done].
      by apply lookup_app_l_Some.
Qed.

(** With distinct ids, dependencies that only point to earlier steps
    cannot form a cycle. *)
Lemma forward_acyclic steps :
  NoDup (stepIds steps) → forwardOnly steps →
  ¬ ∃ u, tc (declares steps) u u.
Proof.
  intros Hnd Hfw [u Hu].
  assert (∀ x y, tc (declares steps) x y →
            ∀ i, stepIds steps !! i = Some x →
                 ∃ j, (j < i)%nat ∧ stepIds steps !! j = Some y) as Hdown.
  { assert (∀ x y, declares steps x y →
              ∀ i, stepIds steps !! i = Some x →
                   ∃ j, (j < i)%nat ∧ stepIds steps !! j = Some y) as Hone.
    { intros x y (step & Hin & <- & Hdep) i Hi.
      apply list_elem_of_lookup in Hin as [i' Hi'].
      assert (i' = i) as ->.
      { apply (NoDup_lookup (stepIds steps) i' i (ws_id step) Hnd);
          [|done].
        unfold stepIds. by rewrite list_lookup_fmap, Hi'. }
      destruct (Hfw i step y Hi' Hdep) as (j & prev & Hj & Hp & Hid).
      exists j. split; [done|].
      unfold stepIds. by rewrite list_lookup_fmap, Hp, <- Hid. }
    induction 1 as [x y Hxy | x y z Hxy _ IH]; intros i Hi.
    - by apply (Hone x y).
    - destruct (Hone x y Hxy i Hi) as (j & Hj & Hy).
      destruct (IH j Hy) as (k & Hk & Hz). exists k. split; [lia|done]. }
  assert (u ∈ stepIds steps) as Hin.
  { inversion Hu as [?? (step & Hs & <- & _) | ??? (step & Hs & <- & _)];
      subst; apply list_elem_of_fmap; by exists step. }
  apply list_elem_of_lookup in Hin as [i Hi].
  destruct (Hdown u u Hu i Hi) as (j & Hj & Hj').
  pose proof (NoDup_lookup (stepIds steps) i j u Hnd Hi Hj'). lia.
Qed.

Section BuilderPipelines.
Import WorkflowBuilder.

Lemma chainTo_back b depId :
  depId ∈ chainTo (prevStepId b) → depId ∈ stepIds (steps b).
Proof.
  unfold chainTo, prevStepId.
  destruct (last (steps b)) as [s|] eqn:Hlast; [|by intros ?%elem_of_nil].
  destruct (bool_decide (ws_id s = "")); [by intros ?%elem_of_nil|].
  intros ->%list_elem_of_singleton. apply list_elem_of_fmap. exists s.
  split; [done|]. rewrite last_lookup in Hlast.
  by eapply list_elem_of_lookup_2.
Qed.

(** One call keeps the steps pointing backwards exactly when it refers
    back. *)
Lemma apply_forward c b :
  forwardOnly (steps (apply c b)) ↔ forwardOnly (steps b) ∧ backward b c.
Proof.
  destruct c; simpl; rewrite ?forwardOnly_snoc; simpl;
    try (split; [by intros [? _]|intros [? _]; split; [done|]]);
    try tauto.
  - by intros ? ?%elem_of_nil.
  - apply chainTo_back.
  - apply chainTo_back.
  - apply chainTo_back.
Qed.

Lemma chain_forward cs b :
  forwardOnly (steps (chain cs b)) ↔ forwardOnly (steps b) ∧ allBackward cs b.
Proof.
  revert b. induction cs as [|c cs IH]; intros b; simpl; [tauto|].
  change (chain (c :: cs) b) with (chain cs (apply c b)).
  rewrite IH, apply_forward. tauto.
Qed.

Lemma noCustom_backward cs b : Forall noCustomStep cs → allBackward cs b.
Proof.
  intros Hall. revert b. induction Hall as [|c cs Hc _ IH]; intros b; [done|].
  simpl. split; [by destruct c|apply IH].
Qed.

(** Every step a builder makes has one of the five known types. *)
Lemma reachable_known_types b step :
  reachable b → step ∈ steps b → ws_type step ∈ FlowValidator.validTypes.
Proof.
  intros (name & stamp & cs & ->). revert step.
  induction cs as [|c cs IH] using rev_ind; intros step Hin.
  - by apply elem_of_nil in Hin.
  - rewrite chain_snoc in Hin.
    assert (steps (apply c (chain cs (new name stamp)))
            = steps (chain cs (new name stamp))
            ∨ ∃ s, steps (apply c (chain cs (new name stamp)))
                   = steps (chain cs (new name stamp)) ++ [s]
                   ∧ ws_type s ∈ FlowValidator.validTypes) as Hcase.
    { destruct c; simpl; [by left|right..]; eexists; (split; [done|]);
        simpl; apply (bool_decide_unpack _); vm_compute; exact I. }
    destruct Hcase as [Heq | (s & Heq & Hty)]; rewrite Heq in Hin;
      [by eauto|].
    apply elem_of_app in Hin as [Hin | ->%list_elem_of_singleton];
      [by eauto|done].
Qed.

(** The builder's [validate] on a reachable builder. *)
Lemma builder_validate_cases b :
  reachable b →
  ∃ rep,
    BuilderValidate.validate b = Some rep
    ∧ (BuilderValidate.valid rep = true
       ↔ steps b ≠ [] ∧ ¬ ∃ u, tc (declares (steps b)) u u)
    ∧ ("Workflow must have at least one step"
         ∈ BuilderValidate.errors rep ↔ steps b = [])
    ∧ ("Workflow contains circular dependencies"
         ∈ BuilderValidate.errors rep ↔ ∃ u, tc (declares (steps b)) u u).
Proof.
  intros Hb. destruct (builder_scan b Hb) as (found & Hdet & Hscan).
  destruct (detect_cyclic (steps b)) as (found' & Hdet' & Hcyc).
  rewrite Hdet in Hdet'. injection Hdet' as <-.
  assert (cyclic (steps b) ↔ ∃ u, tc (declares (steps b)) u u) as Hdecl.
  { unfold cyclic. split; intros [u Hu]; exists u.
    - by apply tc_declares_dependsOn; [apply reachable_NoDup|].
    - by apply tc_declares_dependsOn in Hu; [|apply reachable_NoDup]. }
  unfold BuilderValidate.validate. rewrite Hscan.
  eexists. split; [reflexivity|].
  cbn [BuilderValidate.valid BuilderValidate.errors].
  rewrite <- !Hdecl, <- !Hcyc.
  destruct (steps b) as [|s l]; destruct found as [|f fs]; simpl;
    rewrite ?bool_decide_eq_true, ?elem_of_cons, ?elem_of_nil;
    intuition (try discriminate; try done).
Qed.
End BuilderPipelines.

(** X12. On every builder state that a chain of calls reaches, the
    builder's [validate()] returns; it accepts exactly when there is a
    step and the declared dependencies contain no cycle, it reports the
    missing-step error exactly when there is no step, and the
    circular-dependency error exactly when there is a cycle. *)
Theorem builder_validate_accepts_iff (b : WorkflowBuilder.t) :
  WorkflowBuilder.reachable b →
  ∃ rep,
    BuilderValidate.validate b = Some rep
    ∧ (BuilderValidate.valid rep = true
       ↔ WorkflowBuilder.steps b ≠ []
         ∧ ¬ ∃ u, tc (declares (WorkflowBuilder.steps b)) u u)
    ∧ ("Workflow must have at least one step"
         ∈ BuilderValidate.errors rep ↔ WorkflowBuilder.steps b = [])
    ∧ ("Workflow contains circular dependencies"
         ∈ BuilderValidate.errors rep
       ↔ ∃ u, tc (declares (WorkflowBuilder.steps b)) u u).
Proof. apply builder_validate_cases. Qed.

Lemma builder_validate_accepts_iff_witness :
  ∃ rep,
    BuilderValidate.validate
      (WorkflowBuilder.chain
         [WorkflowBuilder.AddCustomStep "loop" [] ["step_1"]]
         (WorkflowBuilder.new None 0)) = Some rep
    ∧ BuilderValidate.valid rep = false.
Proof.
  destruct (builder_validate_accepts_iff
              (WorkflowBuilder.chain
                 [WorkflowBuilder.AddCustomStep "loop" [] ["step_1"]]
                 (WorkflowBuilder.new None 0)))
    as (rep & Hrun & _).
  - by exists None, 0, [WorkflowBuilder.AddCustomStep "loop" [] ["step_1"]].
  - exists rep. split; [exact Hrun|].
    vm_compute in Hrun. injection Hrun as <-. reflexivity.
Defined.

(** X13. The steps of a builder-made workflow depend only on steps
    declared earlier exactly when every [addCustomStep] call of the
    chain named only ids of steps added before it; the four built-in
    calls never break this. *)
Theorem builder_steps_point_back_iff_calls_do
    (cs : list WorkflowBuilder.call) (name : option string) (stamp : Z) :
  forwardOnly
    (WorkflowBuilder.steps
       (WorkflowBuilder.chain cs (WorkflowBuilder.new name stamp)))
  ↔ allBackward cs (WorkflowBuilder.new name stamp).
Proof.
  rewrite chain_forward. split; [by intros [_ ?]|].
  intros H. split; [apply forwardOnly_nil|done].
Qed.

(** X14. A builder chain with at least one step whose custom steps name
    only earlier ids (in particular every chain of built-in steps)
    gives a workflow that passes the builder's [validate()], that its
    own [execute] runs to overall success, and that [FlowExecutor] runs
    to overall success in sequential mode and in parallel mode (every
    started step settling before the loop resumes), provided the
    timeout is never exceeded. *)
Theorem backward_chains_always_run
    (cs : list WorkflowBuilder.call) (name : option string) (stamp : Z)
    (now : nat → Z) (options : FlowExecutor.Options) :
  allBackward cs (WorkflowBuilder.new name stamp) →
  WorkflowBuilder.steps
    (WorkflowBuilder.chain cs (WorkflowBuilder.new name stamp)) ≠ [] →
  noTimeout now options →
  let b := WorkflowBuilder.chain cs (WorkflowBuilder.new name stamp) in
  (∃ rep, BuilderValidate.validate b = Some rep
          ∧ BuilderValidate.valid rep = true)
  ∧ wr_success (Built.execute now (WorkflowBuilder.build b)) = true
  ∧ ∃ res m,
      FlowExecutor.execute now options FlowExecutor.settleAll
        (WorkflowBuilder.build b) = Some (res, m)
      ∧ wr_success res = true
      ∧ dom (stepResults res)
        = list_to_set (stepIds (WorkflowBuilder.steps b)).
Proof.
  intros Hback Hne Hnt b.
  assert (WorkflowBuilder.reachable b) as Hb by (by exists name, stamp, cs).
  assert (forwardOnly (WorkflowBuilder.steps b)) as Hfw.
  { apply chain_forward. split; [apply forwardOnly_nil|done]. }
  pose proof (reachable_NoDup b Hb) as Hnd.
  pose proof (forward_acyclic _ Hnd Hfw) as Hacyc.
  split; [|split].
  - destruct (builder_validate_cases b Hb) as (rep & Hrun & Hvalid & _).
    exists rep. split; [done|]. by apply Hvalid.
  - unfold Built.execute. cbn [wr_success].
    rewrite bool_decide_eq_true, length_zero_iff_nil.
    destruct (runSteps_no_failure now (WorkflowBuilder.steps b)
                (Built.mkRun 1 ∅ [])) as [Hiff _]; [|done|].
    { intros id r Hr. simpl in Hr. by rewrite lookup_empty in Hr. }
    apply Hiff. simpl. rewrite dom_empty_L. by apply forwardOnly_from.
  - destruct (FlowExecutor.parallel options) eqn:Hpar.
    + destruct (parallel_settleAll_run now options
                  (WorkflowBuilder.build b))
        as (res & m & Hrun & Hok & _ & Hdom & _); try done.
      * intros step Hin. by apply (reachable_known_types b).
      * intros step depId Hin Hdep.
        apply list_elem_of_lookup in Hin as [i Hi].
        destruct (Hfw i step depId Hi Hdep) as (j & prev & _ & Hp & <-).
        apply list_elem_of_fmap. exists prev. split; [done|].
        by eapply list_elem_of_lookup_2.
      * by exists res, m.
    + unfold FlowExecutor.execute. rewrite Hpar.
      destruct (executeSequential_straight now options
                  (WorkflowBuilder.steps b)
                  (FlowExecutor.mkMachine ∅ None 1 [] []) Hnt)
        as (m' & Hrun & Hall & _).
      * intros step Hin. by apply (reachable_known_types b).
      * intros id r Hr. simpl in Hr. by rewrite lookup_empty in Hr.
      * simpl. rewrite dom_empty_L. by apply forwardOnly_from.
      * cbn [WorkflowBuilder.build wf_steps]. rewrite Hrun.
        eexists _, m'. split; [reflexivity|]. cbn [wr_success stepResults].
        split; [simpl; by apply allStepsSucceeded_spec|].
        destruct (executeSequential_returned _ _ _ _ _ Hrun) as [_ ->].
        simpl. by rewrite dom_empty_L, (left_id_L ∅ (∪)).
Qed.

Lemma backward_chains_always_run_witness :
  wr_success
    (Built.execute (fun _ => 0)
       (WorkflowBuilder.build
          (WorkflowBuilder.chain
             [WorkflowBuilder.AddAnalysisStep [];
              WorkflowBuilder.AddAutoFixStep [];
              WorkflowBuilder.AddCustomStep "notify" [] ["step_1"]]
             (WorkflowBuilder.new None 0)))) = true.
Proof.
  apply (backward_chains_always_run
           [WorkflowBuilder.AddAnalysisStep [];
            WorkflowBuilder.AddAutoFixStep [];
            WorkflowBuilder.AddCustomStep "notify" [] ["step_1"]]
           None 0 (fun _ => 0)
           (FlowExecutor.new
              (FlowExecutor.mkExecutionOptions None None None None))).
  - simpl. repeat split.
    intros depId ->%list_elem_of_singleton.
    apply (bool_decide_unpack _). vm_compute. exact I.
  - discriminate.
  - intros t. simpl. lia.
Defined.

(** ** The action nodes and their factory *)

Section FactoryFacts.
Import ActionNodes ActionNodeFactory.

Lemma mapGet_mapSet_eq type cls (m : t) :
  mapGet type (mapSet type cls m) = Some cls.
Proof.
  unfold mapGet. induction m as [|[k v] m IH]; simpl.
  - by rewrite bool_decide_eq_true_2.
  - destruct (bool_decide_reflect (k = type)) as [Hk|Hk]; simpl.
    + by rewrite bool_decide_eq_true_2.
    + by rewrite bool_decide_eq_false_2.
Qed.

Lemma mapGet_mapSet_ne type other cls (m : t) :
  other ≠ type → mapGet other (mapSet type cls m) = mapGet other m.
Proof.
  intros Hne. unfold mapGet. induction m as [|[k v] m IH]; simpl.
  - by rewrite bool_decide_eq_false_2.
  - destruct (bool_decide_reflect (k = type)) as [Hk|Hk]; simpl.
    + subst k. by rewrite !bool_decide_eq_false_2.
    + destruct (bool_decide (k = other)); [done|exact IH].
Qed.

Lemma getTypes_mapSet type cls (m : t) :
  getTypes (mapSet type cls m)
  = if bool_decide (type ∈ getTypes m) then getTypes m
    else getTypes m ++ [type].
Proof.
  unfold getTypes. induction m as [|[k v] m IH]; simpl.
  - done.
  - destruct (bool_decide_reflect (k = type)) as [Hk|Hk]; simpl.
    + subst k. rewrite bool_decide_eq_true_2; [done|]. by left.
    + rewrite IH.
      destruct (bool_decide_reflect (type ∈ map fst m)) as [Hin|Hin].
      * rewrite bool_decide_eq_true_2; [done|]. by right.
      * rewrite bool_decide_eq_false_2; [done|].
        intros [?|?]%elem_of_cons; done.
Qed.

Lemma mapGet_is_Some type (m : t) :
  is_Some (mapGet type m) ↔ type ∈ getTypes m.
Proof.
  unfold mapGet, getTypes. induction m as [|[k v] m IH]; simpl.
  - split; [by intros [? ?]|by intros ?%elem_of_nil].
  - destruct (bool_decide_reflect (k = type)) as [Hk|Hk]; simpl.
    + subst k. split; [intros _; by left|by eexists].
    + rewrite IH, elem_of_cons. split; [by right|]. by intros [?|?].
Qed.

Lemma getTypes_new : getTypes new = ["analysis"; "autofix"; "test"; "deploy"].
Proof. reflexivity. Qed.

(** The types of a reachable factory are distinct and start with the
    four default ones. *)
Lemma reachable_types_shape f :
  reachable f →
  NoDup (getTypes f)
  ∧ ∃ extra, getTypes f = ["analysis"; "autofix"; "test"; "deploy"] ++ extra.
Proof.
  intros [calls ->].
  induction calls as [|[type cls] calls IH] using rev_ind.
  - split; [|by exists []]. simpl.
    apply (bool_decide_unpack _). vm_compute. exact I.
  - rewrite fold_left_app. simpl. unfold register.
    rewrite getTypes_mapSet. destruct IH as [Hnd [extra Hex]].
    destruct (bool_decide_reflect
                (type ∈ getTypes
                          (fold_left (fun acc c => mapSet c.1 c.2 acc)
                             calls new))) as [Hin|Hin].
    + split; [done|by exists extra].
    + split.
      * apply NoDup_app. split; [done|]. split.
        -- intros x Hx ->%list_elem_of_singleton. done.
        -- apply NoDup_singleton.
      * exists (extra ++ [type]).
        unfold register in Hex. rewrite Hex. by rewrite <- app_assoc.
Qed.

Lemma default_node_shape type stamp :
  type ∈ getTypes new →
  ∃ node, create type stamp new = Some node
          ∧ an_id node = type +:+ "_" +:+ pretty stamp.
Proof.
  intros Hin. rewrite getTypes_new in Hin.
  repeat (apply elem_of_cons in Hin as [->|Hin]; [by eexists|]).
  by apply elem_of_nil in Hin.
Qed.
End FactoryFacts.

(** X15. Registering a node class and creating a node of that type
    gives a node of the registered class; nodes of the other types are
    created as before; the list of types keeps its order, and the type
    is appended when it is new. *)
Theorem factory_register_then_create
    (f : ActionNodeFactory.t) (type : string)
    (nodeClass : ActionNodes.NodeClass) (stamp : Z) :
  ActionNodeFactory.create type stamp
    (ActionNodeFactory.register type nodeClass f) = Some (nodeClass stamp)
  ∧ (∀ other, other ≠ type →
       ActionNodeFactory.create other stamp
         (ActionNodeFactory.register type nodeClass f)
       = ActionNodeFactory.create other stamp f)
  ∧ ActionNodeFactory.getTypes (ActionNodeFactory.register type nodeClass f)
    = if bool_decide (type ∈ ActionNodeFactory.getTypes f)
      then ActionNodeFactory.getTypes f
      else ActionNodeFactory.getTypes f ++ [type].
Proof.
  unfold ActionNodeFactory.create, ActionNodeFactory.register.
  split; [by rewrite mapGet_mapSet_eq|]. split.
  - intros other Hne. by rewrite mapGet_mapSet_ne.
  - apply getTypes_mapSet.
Qed.

(** X16. In every factory that [register] calls reach from a new one,
    [getTypes] lists distinct types, starting with the four default
    types in the order analysis, autofix, test, deploy, and [create]
    returns a node exactly for the listed types ([null] otherwise). *)
Theorem factory_creates_exactly_the_listed_types
    (f : ActionNodeFactory.t) :
  ActionNodeFactory.reachable f →
  NoDup (ActionNodeFactory.getTypes f)
  ∧ (∃ extra, ActionNodeFactory.getTypes f
              = ["analysis"; "autofix"; "test"; "deploy"] ++ extra)
  ∧ ∀ type stamp,
      is_Some (ActionNodeFactory.create type stamp f)
      ↔ type ∈ ActionNodeFactory.getTypes f.
Proof.
  intros Hf. destruct (reachable_types_shape f Hf) as [Hnd Hex].
  split; [done|]. split; [done|]. intros type stamp.
  rewrite <- mapGet_is_Some. unfold ActionNodeFactory.create.
  destruct (ActionNodeFactory.mapGet type f) as [nodeClass|].
  - split; intros _; by eexists.
  - split; intros [? ?]; done.
Qed.

Lemma factory_creates_exactly_the_listed_types_witness :
  NoDup (ActionNodeFactory.getTypes
           (ActionNodeFactory.register "test" ActionNodes.DeployActionNode
              ActionNodeFactory.new))
  ∧ ActionNodeFactory.create "fix" 0
      (ActionNodeFactory.register "test" ActionNodes.DeployActionNode
         ActionNodeFactory.new) = None.
Proof.
  destruct (factory_creates_exactly_the_listed_types
              (ActionNodeFactory.register "test" ActionNodes.DeployActionNode
                 ActionNodeFactory.new)) as (Hnd & _ & Hcreate).
  - by exists [("test", ActionNodes.DeployActionNode)].
  - split; [exact Hnd|]. reflexivity.
Defined.

(** X17. Every node the default factory creates carries the requested
    type and the id [<type>_<timestamp>], passes [validateActionNode]
    with no error and no warning, returns from [execute] exactly its
    declared outputs, in order and with the declared types, and declares
    defaults of the declared type for optional inputs only. *)
Theorem default_nodes_are_consistent (type : string) (stamp : Z) :
  type ∈ ActionNodeFactory.getTypes ActionNodeFactory.new →
  ∃ node,
    ActionNodeFactory.create type stamp ActionNodeFactory.new = Some node
    ∧ ActionNodes.an_type node = type
    ∧ ActionNodes.an_id node = type +:+ "_" +:+ pretty stamp
    ∧ FlowValidator.validateActionNode node
      = FlowValidator.mkVResult true [] []
    ∧ (∀ inputs,
         map (fun kv => (kv.1, ActionNodes.typeOf kv.2))
             (ActionNodes.an_execute node inputs)
         = map (fun o => (ActionNodes.out_name o, ActionNodes.out_type o))
               (ActionNodes.an_outputs node))
    ∧ ∀ i, i ∈ ActionNodes.an_inputs node →
           match ActionNodes.in_default i with
           | Some v => ActionNodes.in_required i = false
                       ∧ ActionNodes.typeOf v = ActionNodes.in_type i
           | None => ActionNodes.in_required i = true
           end.
Proof.
  intros Hin. rewrite getTypes_new in Hin.
  repeat (apply elem_of_cons in Hin as [->|Hin];
          [eexists; split; [reflexivity|];
           repeat split;
           intros i Hi;
           repeat (apply elem_of_cons in Hi as [->|Hi]; [by simpl|]);
           by apply elem_of_nil in Hi|]).
  by apply elem_of_nil in Hin.
Qed.

Lemma default_nodes_are_consistent_witness :
  ∃ node,
    ActionNodeFactory.create "autofix" 1700000000000 ActionNodeFactory.new
      = Some node
    ∧ ActionNodes.an_id node = "autofix_1700000000000".
Proof.
  destruct (default_nodes_are_consistent "autofix" 1700000000000)
    as (node & Hcreate & _ & Hid & _).
  - apply (bool_decide_unpack _). vm_compute. exact I.
  - exists node. split; [exact Hcreate|]. rewrite Hid. reflexivity.
Defined.

(** X18. Two nodes created by the default factory have the same id
    exactly when they have the same type and were constructed at the
    same clock value: ids are not unique within one millisecond. *)
Theorem default_node_ids_collide_iff
    (type1 type2 : string) (stamp1 stamp2 : Z)
    (node1 node2 : ActionNodes.ActionNode) :
  ActionNodeFactory.create type1 stamp1 ActionNodeFactory.new = Some node1 →
  ActionNodeFactory.create type2 stamp2 ActionNodeFactory.new = Some node2 →
  ActionNodes.an_id node1 = ActionNodes.an_id node2
  ↔ type1 = type2 ∧ stamp1 = stamp2.
Proof.
  intros H1 H2.
  assert (∀ type stamp node,
            ActionNodeFactory.create type stamp ActionNodeFactory.new
              = Some node →
            type ∈ ["analysis"; "autofix"; "test"; "deploy"]
            ∧ ActionNodes.an_id node = type +:+ "_" +:+ pretty stamp)
    as Hshape.
  { intros type stamp node Hc.
    assert (type ∈ ActionNodeFactory.getTypes ActionNodeFactory.new) as Hin.
    { apply mapGet_is_Some. unfold ActionNodeFactory.create in Hc.
      destruct (ActionNodeFactory.mapGet type ActionNodeFactory.new);
        [by eexists|done]. }
    split; [done|].
    destruct (default_node_shape type stamp Hin) as (n & Hn & Hid).
    rewrite Hc in Hn. by injection Hn as <-. }
  destruct (Hshape _ _ _ H1) as [Hin1 ->].
  destruct (Hshape _ _ _ H2) as [Hin2 ->].
  split; [|by intros [-> ->]].
  intros Heq.
  assert (∀ t, t ∈ ["analysis"; "autofix"; "test"; "deploy"] →
               t = "analysis" ∨ t = "autofix" ∨ t = "test" ∨ t = "deploy")
    as Hcases.
  { intros t Ht. rewrite !elem_of_cons, elem_of_nil in Ht. tauto. }
  destruct (Hcases _ Hin1) as [E1|[E1|[E1|E1]]];
    destruct (Hcases _ Hin2) as [E2|[E2|[E2|E2]]];
    subst type1 type2;
    try discriminate Heq;
    (split; [done|]);
    repeat (apply (inj (String.app _)) in Heq);
    by apply (inj pretty) in Heq.
Qed.

Lemma default_node_ids_collide_iff_witness :
  ActionNodes.an_id (ActionNodes.TestActionNode 7)
  = ActionNodes.an_id (ActionNodes.DeployActionNode 7)
  ↔ "test" = "deploy" ∧ 7 = 7.
Proof.
  apply (default_node_ids_collide_iff "test" "deploy" 7 7); reflexivity.
Defined.

(** ** Blank names *)

Section BlankNames.
Import FlowValidator.

(** No white-space code point begins with a shorter one, read from
    either end. *)
Lemma isWhiteSpace_prefix_free cp :
  isWhiteSpace cp = true →
  (∃ c1, cp = [c1])
  ∨ (∃ c1 c2, cp = [c1; c2]
       ∧ isWhiteSpace [c1] = false ∧ isWhiteSpace [c2] = false)
  ∨ (∃ c1 c2 c3, cp = [c1; c2; c3]
       ∧ isWhiteSpace [c1] = false ∧ isWhiteSpace [c1; c2] = false
       ∧ isWhiteSpace [c3] = false ∧ isWhiteSpace [c2; c3] = false).
Proof.
  destruct cp as [|c1 [|c2 [|c3 [|c4 cp]]]]; try done.
  - intros _. left. by exists c1.
  - intros H. right. left. exists c1, c2. split; [done|].
    unfold isWhiteSpace in *. cbn [map] in *.
    apply andb_true_iff in H as [H1 H2].
    apply Nat.eqb_eq in H1, H2. rewrite H1, H2. done.
  - intros H. right. right. exists c1, c2, c3. split; [done|].
    unfold isWhiteSpace in *. cbn [map] in *.
    set (b1 := Ascii.nat_of_ascii c1) in *.
    set (b2 := Ascii.nat_of_ascii c2) in *.
    set (b3 := Ascii.nat_of_ascii c3) in *. clearbody b1 b2 b3.
    rewrite !orb_true_iff, !andb_true_iff, !orb_true_iff, !andb_true_iff,
      !Nat.eqb_eq, !Nat.leb_le in H.
    rewrite !orb_false_iff, !andb_false_iff, !Nat.eqb_neq, !Nat.leb_gt.
    lia.
Qed.

Section Strip.
Variable ws : list Ascii.ascii → bool.

(** What [stripLeading] takes off is a sequence of accepted code
    points. *)
Lemma stripLeading_split_bounded n : ∀ s,
  (String.length s ≤ n)%nat →
  ∃ cps, Forall (fun cp => ws cp = true) cps
         ∧ String.list_ascii_of_string s
           = concat cps ++ String.list_ascii_of_string (stripLeading ws s).
Proof.
  induction n as [|n IH]; intros s Hlen.
  { destruct s; [|simpl in Hlen; lia]. by exists []. }
  destruct s as [|c1 r1]; [by exists []|]. simpl in Hlen. simpl.
  destruct (ws [c1]) eqn:H1.
  { destruct (IH r1) as (cps & Hall & Heq); [lia|].
    exists ([c1] :: cps). split; [by constructor|]. simpl. by rewrite Heq. }
  destruct r1 as [|c2 r2]; [by exists []|]. simpl in Hlen.
  destruct (ws [c1; c2]) eqn:H2.
  { destruct (IH r2) as (cps & Hall & Heq); [lia|].
    exists ([c1; c2] :: cps). split; [by constructor|]. simpl.
    by rewrite Heq. }
  destruct r2 as [|c3 r3]; [by exists []|]. simpl in Hlen.
  destruct (ws [c1; c2; c3]) eqn:H3; [|by exists []].
  destruct (IH r3) as (cps & Hall & Heq); [lia|].
  exists ([c1; c2; c3] :: cps). split; [by constructor|]. simpl.
  by rewrite Heq.
Qed.

Lemma stripLeading_split s :
  ∃ cps, Forall (fun cp => ws cp = true) cps
         ∧ String.list_ascii_of_string s
           = concat cps ++ String.list_ascii_of_string (stripLeading ws s).
Proof. by apply (stripLeading_split_bounded (String.length s)). Qed.

Hypothesis ws_prefix_free : ∀ cp,
  ws cp = true →
  (∃ c1, cp = [c1])
  ∨ (∃ c1 c2, cp = [c1; c2] ∧ ws [c1] = false)
  ∨ (∃ c1 c2 c3, cp = [c1; c2; c3] ∧ ws [c1] = false ∧ ws [c1; c2] = false).

(** A sequence of accepted code points is taken off entirely. *)
Lemma stripLeading_all cps :
  Forall (fun cp => ws cp = true) cps →
  stripLeading ws (String.string_of_list_ascii (concat cps)) = "".
Proof.
  induction 1 as [|cp cps Hcp _ IH]; [done|].
  destruct (ws_prefix_free cp Hcp)
    as [(c1 & ->)|[(c1 & c2 & -> & H1)|(c1 & c2 & c3 & -> & H1 & H2)]];
    simpl.
  - by rewrite Hcp.
  - by rewrite H1, Hcp.
  - by rewrite H1, H2, Hcp.
Qed.
End Strip.

Lemma rev_app_list s1 s2 :
  String.list_ascii_of_string (String.rev_app s1 s2)
  = rev (String.list_ascii_of_string s1) ++ String.list_ascii_of_string s2.
Proof.
  revert s2. induction s1 as [|c s1 IH]; intros s2; [done|].
  simpl. rewrite IH. simpl. by rewrite <- app_assoc.
Qed.

Lemma rev_list s :
  String.list_ascii_of_string (String.rev s)
  = rev (String.list_ascii_of_string s).
Proof. unfold String.rev. rewrite rev_app_list. simpl. apply app_nil_r. Qed.

Lemma rev_concat {A} (l : list (list A)) :
  rev (concat l) = concat (rev (map (@rev A) l)).
Proof.
  induction l as [|x l IH]; [done|]. simpl.
  rewrite rev_app_distr, IH, concat_app. simpl. by rewrite app_nil_r.
Qed.

Lemma rev_app_length s1 s2 :
  String.length (String.rev_app s1 s2)
  = (String.length s1 + String.length s2)%nat.
Proof.
  revert s2. induction s1 as [|c s1 IH]; intros s2; [done|].
  simpl. rewrite IH. simpl. lia.
Qed.

Lemma rev_length s : String.length (String.rev s) = String.length s.
Proof. unfold String.rev. rewrite rev_app_length. simpl. lia. Qed.
End BlankNames.

(** X19. The validator treats a workflow or step name as missing
    exactly when the name is made of white-space code points only (the
    empty name included): the code points that [trim] strips, among them
    U+00A0, U+FEFF and the other Unicode spaces. *)
Theorem blank_iff_only_white_space (name : string) :
  FlowValidator.blank name = true ↔ onlyWhiteSpace name.
Proof.
  unfold FlowValidator.blank, FlowValidator.trim, FlowValidator.trimStart.
  set (wsR := fun cp => FlowValidator.isWhiteSpace (rev cp)).
  split.
  - intros Hblank.
    assert (FlowValidator.stripLeading wsR
              (String.rev
                 (FlowValidator.stripLeading FlowValidator.isWhiteSpace name))
            = "") as Hend.
    { apply orb_true_iff in Hblank as [Hnil|Hlen].
      - apply bool_decide_eq_true in Hnil. by subst name.
      - apply Nat.eqb_eq in Hlen. rewrite rev_length in Hlen.
        by destruct (FlowValidator.stripLeading wsR _). }
    destruct (stripLeading_split FlowValidator.isWhiteSpace name)
      as (cps1 & Hall1 & Heq1).
    destruct (stripLeading_split wsR
                (String.rev
                   (FlowValidator.stripLeading
                      FlowValidator.isWhiteSpace name)))
      as (cps2 & Hall2 & Heq2).
    rewrite Hend in Heq2. simpl in Heq2. rewrite app_nil_r in Heq2.
    rewrite rev_list in Heq2.
    apply (f_equal (@rev Ascii.ascii)) in Heq2.
    rewrite rev_involutive, rev_concat in Heq2.
    exists (cps1 ++ rev (map (@rev Ascii.ascii) cps2)). split.
    + apply Forall_app. split; [done|].
      apply Forall_forall. intros cp Hin.
      apply list_elem_of_In, in_rev, in_map_iff in Hin as (cp' & <- & Hin).
      apply (proj1 (Forall_forall _ _) Hall2 cp').
      by apply list_elem_of_In.
    + by rewrite concat_app, <- Heq2.
  - intros (cps & Hall & Heq).
    apply (f_equal String.string_of_list_ascii) in Heq.
    rewrite String.string_of_list_ascii_of_string in Heq. subst name.
    rewrite stripLeading_all; [apply orb_true_r| |done].
    intros cp Hcp.
    destruct (isWhiteSpace_prefix_free cp Hcp)
      as [?|[(c1 & c2 & ? & ? & _)|(c1 & c2 & c3 & ? & ? & ? & _)]];
      [by left|right; left|right; right]; by eauto 10.
Qed.

(** A builder-made workflow whose name is a single no-break space
    (U+00A0, the bytes 194 160) is reported as having no name, and so is
    a step whose name is an em space followed by a byte-order mark
    (U+2003 U+FEFF). *)
Lemma unicode_space_names_are_missing :
  let nbsp := String.string_of_list_ascii
                (map Ascii.ascii_of_nat [194; 160]%nat) in
  let emsp_bom := String.string_of_list_ascii
                    (map Ascii.ascii_of_nat
                       [226; 128; 131; 239; 187; 191]%nat) in
  ∃ res,
    FlowValidator.validate
      (WorkflowBuilder.build
         (WorkflowBuilder.chain
            [WorkflowBuilder.AddAnalysisStep [];
             WorkflowBuilder.AddCustomStep emsp_bom [] []]
            (WorkflowBuilder.new (Some nbsp) 0))) = Some res
    ∧ FlowValidator.valid res = false
    ∧ FlowValidator.errors res
      = [FlowValidator.mkVError "Workflow must have a name" "MISSING_NAME"
           None;
         FlowValidator.mkVError "Step must have a name" "MISSING_STEP_NAME"
           (Some "step_2")].
Proof. eexists. split; [vm_compute; reflexivity|]. by split. Qed.

(** ** Warnings *)

Lemma flat_map_option {A B} (f : A → option B) (l : list A) :
  flat_map (fun x => match f x with Some y => [y] | None => [] end) l
  = omap f l.
Proof.
  induction l as [|a l IH]; [done|]. simpl. rewrite IH.
  by destruct (f a).
Qed.

Lemma validate_warnings workflow res :
  FlowValidator.validate workflow = Some res →
  FlowValidator.warnings res = omap noConfigWarning (wf_steps workflow).
Proof.
  unfold FlowValidator.validate.
  destruct (FlowValidator.detectCircularDependencies _); [|done].
  intros [= <-]. cbn [FlowValidator.warnings].
  rewrite <- flat_map_option, flat_map_concat_map, map_map,
    <- flat_map_concat_map.
  apply flat_map_ext. intros step.
  unfold noConfigWarning, FlowValidator.validateStep.
  cbn [FlowValidator.warnings]. by destruct (ws_config step).
Qed.

(** X20. The warnings of [validate] are the NO_CONFIG warnings, one for
    each step without configuration, in declaration order, each carrying
    the step's id; the verdict does not depend on them: a workflow is
    valid exactly when the error list is empty. *)
Theorem validate_warns_once_per_unconfigured_step (workflow : Workflow) :
  ∃ res,
    FlowValidator.validate workflow = Some res
    ∧ FlowValidator.warnings res
      = omap noConfigWarning (wf_steps workflow)
    ∧ (FlowValidator.valid res = true ↔ FlowValidator.errors res = []).
Proof.
  destruct (validate_total workflow) as [res Hres]. exists res.
  split; [done|]. split; [by apply validate_warnings|].
  unfold FlowValidator.validate in Hres.
  destruct (FlowValidator.detectCircularDependencies _); [|done].
  injection Hres as <-. cbn [FlowValidator.valid FlowValidator.errors].
  by rewrite bool_decide_eq_true, length_zero_iff_nil.
Qed.

Section BuilderWarnings.
Import WorkflowBuilder.

Lemma reachable_configured b step :
  reachable b → step ∈ steps b → is_Some (ws_config step).
Proof.
  intros (name & stamp & cs & ->). revert step.
  induction cs as [|c cs IH] using rev_ind; intros step Hin.
  - by apply elem_of_nil in Hin.
  - rewrite chain_snoc in Hin.
    assert (steps (apply c (chain cs (new name stamp)))
            = steps (chain cs (new name stamp))
            ∨ ∃ s, steps (apply c (chain cs (new name stamp)))
                   = steps (chain cs (new name stamp)) ++ [s]
                   ∧ is_Some (ws_config s)) as Hcase.
    { destruct c; simpl; [by left|right..]; eexists; (split; [done|]);
        by eexists. }
    destruct Hcase as [Heq | (s & Heq & Hcfg)]; rewrite Heq in Hin;
      [by eauto|].
    apply elem_of_app in Hin as [Hin | ->%list_elem_of_singleton];
      [by eauto|done].
Qed.
End BuilderWarnings.

(** X21. A workflow made by the builder never gets a warning from
    [validate]: every step-adding call stores a configuration. *)
Theorem built_workflows_get_no_warning (b : WorkflowBuilder.t) :
  WorkflowBuilder.reachable b →
  ∃ res,
    FlowValidator.validate (WorkflowBuilder.build b) = Some res
    ∧ FlowValidator.warnings res = [].
Proof.
  intros Hb.
  destruct (validate_total (WorkflowBuilder.build b)) as [res Hres].
  exists res. split; [done|]. rewrite (validate_warnings _ _ Hres).
  cbn [WorkflowBuilder.build wf_steps].
  assert (∀ step, step ∈ WorkflowBuilder.steps b →
                  noConfigWarning step = None) as Hnone.
  { intros step Hin. unfold noConfigWarning.
    by destruct (reachable_configured b step Hb Hin) as [cfg ->]. }
  induction (WorkflowBuilder.steps b) as [|s l IH]; [done|].
  simpl. rewrite Hnone by (by left). apply IH.
  intros step Hin. apply Hnone. by right.
Qed.

Lemma built_workflows_get_no_warning_witness :
  ∃ res,
    FlowValidator.validate
      (WorkflowBuilder.build
         (WorkflowBuilder.chain
            [WorkflowBuilder.AddAnalysisStep [];
             WorkflowBuilder.AddCustomStep "" [] ["nowhere"]]
            (WorkflowBuilder.new None 0))) = Some res
    ∧ FlowValidator.warnings res = [].
Proof.
  apply (built_workflows_get_no_warning
           (WorkflowBuilder.chain
              [WorkflowBuilder.AddAnalysisStep [];
               WorkflowBuilder.AddCustomStep "" [] ["nowhere"]]
              (WorkflowBuilder.new None 0))).
  by exists None, 0, [WorkflowBuilder.AddAnalysisStep [];
                      WorkflowBuilder.AddCustomStep "" [] ["nowhere"]].
Defined.

(** ** What the result map can hold *)

Section StoredResults.
Import FlowExecutor.
Variable now : nat → Z.
Variable options : Options.
Variable startTime : Z.
Variable steps : list WorkflowStep.

Lemma executeStepByType_cases step :
  (∃ out, executeStepByType step = inl out)
  ∨ executeStepByType step
    = inr (mkError ("Unknown step type: " +:+ ws_type step)).
Proof.
  unfold executeStepByType.
  repeat (destruct (bool_decide _); [left; by eexists|]). by right.
Qed.

Lemma executeStepFinish_resultOf step stepStart t :
  resultOf step
    (executeStepFinish now step stepStart (executeStepByType step) t).1.
Proof.
  unfold executeStepFinish.
  destruct (executeStepByType_cases step) as [[out Hout]|Herr].
  - rewrite Hout. simpl. split; [done|]. left. rewrite Hout.
    repeat split. by exists out.
  - rewrite Herr. simpl. split; [done|]. right. rewrite Herr.
    repeat split. by right.
Qed.

Lemma executeStepStart_promise step t :
  match (executeStepStart now options startTime step t).1 with
  | Resolved res => resultOf step res
  | Awaiting _ outcome => outcome = executeStepByType step
  end.
Proof.
  unfold executeStepStart.
  destruct (now (S t) - startTime >? timeout options); simpl; [|done].
  split; [done|]. right. repeat split. by left.
Qed.

Lemma settlePromise_resultOf step promise t :
  match promise with
  | Resolved res => resultOf step res
  | Awaiting _ outcome => outcome = executeStepByType step
  end →
  resultOf step (settlePromise now step promise t).1.
Proof.
  destruct promise as [res|stepStart outcome]; simpl; [done|].
  intros ->. apply executeStepFinish_resultOf.
Qed.

Lemma executeStep_resultOf step t :
  resultOf step (executeStep now options startTime step t).1.
Proof.
  unfold executeStep.
  pose proof (executeStepStart_promise step t) as Hp.
  destruct (executeStepStart now options startTime step t) as [p t'].
  by apply settlePromise_resultOf.
Qed.

Lemma resultsOf_insert results step res :
  resultsOf steps results → step ∈ steps → resultOf step res →
  resultsOf steps (<[ws_id step := res]> results).
Proof.
  intros Hall Hin Hres id r. destruct (decide (id = ws_id step)) as [->|Hne].
  - rewrite lookup_insert_eq. intros [= <-]. by exists step.
  - rewrite lookup_insert_ne by done. apply Hall.
Qed.

Lemma executeSequential_resultsOf rest m c m' :
  (∀ step, step ∈ rest → step ∈ steps) →
  resultsOf steps (completedSteps m) →
  executeSequential now options startTime rest m = (c, m') →
  resultsOf steps (completedSteps m').
Proof.
  revert m. induction rest as [|step rest IH]; intros m Hsub Hall Hrun.
  - by injection Hrun as <- <-.
  - simpl in Hrun.
    destruct (negb (dependenciesMet step (completedSteps m)));
      [by injection Hrun as <- <-|].
    pose proof (executeStep_resultOf step (ticks m)) as Hres.
    destruct (executeStep now options startTime step (ticks m))
      as [res t'].
    assert (resultsOf steps (<[ws_id step := res]> (completedSteps m)))
      as Hall'.
    { apply resultsOf_insert; [done| |done]. apply Hsub. by left. }
    destruct (negb (success res) && negb (continueOnError options));
      [by injection Hrun as <- <-|].
    eapply IH; [| |exact Hrun]; [|exact Hall'].
    intros s Hs. apply Hsub. by right.
Qed.

Lemma parResults_start p x step :
  parResults steps p → findStep steps x = Some step →
  dependenciesMet step (completedSteps (mach p)) = true →
  parResults steps (startStep now options startTime steps p x).
Proof.
  intros [Hres Hfl] Hf _.
  unfold FlowExecutor.startStep. rewrite Hf.
  pose proof (executeStepStart_promise step (ticks (mach p))) as Hp.
  destruct (executeStepStart now options startTime step (ticks (mach p)))
    as [promise t'].
  apply (findStep_Some steps) in Hf as [Hin Hid].
  split; simpl; [done|].
  intros e [He|He%list_elem_of_singleton]%elem_of_app; [by apply Hfl|].
  by subst e.
Qed.

Lemma parResults_settle p e :
  parResults steps p → e ∈ executing p →
  parResults steps (onSettled now options e p).
Proof.
  intros [Hres Hfl] Hin. unfold FlowExecutor.onSettled.
  destruct (Hfl e Hin) as (Hstep & Hid & Hp).
  pose proof (settlePromise_resultOf (if_step e) (if_promise e)
                (ticks (mach p)) Hp) as Hr.
  destruct (settlePromise now (if_step e) (if_promise e) (ticks (mach p)))
    as [result t'].
  split; simpl.
  - rewrite <- Hid. by apply resultsOf_insert.
  - intros e' He'. apply Hfl. apply list_elem_of_In in He'.
    apply filter_In in He' as [He' _]. by apply list_elem_of_In.
Qed.
End StoredResults.

(** X22. In either mode, for every clock and schedule, every entry of
    the result map is stored under the id of a step of the workflow and
    carries that id; it is either a success with the payload of the
    step's type and no error, or a failure with no output whose error is
    "Workflow execution timeout" or "Unknown step type: <type>". *)
Theorem stored_results_are_step_results
    (now : nat → Z) (options : FlowExecutor.Options)
    (sched : nat → list string → list string) (workflow : Workflow) :
  ∃ res m,
    FlowExecutor.execute now options sched workflow = Some (res, m)
    ∧ resultsOf (wf_steps workflow) (stepResults res).
Proof.
  unfold FlowExecutor.execute.
  set (m0 := FlowExecutor.mkMachine ∅ None 1 [] []).
  assert (resultsOf (wf_steps workflow) (FlowExecutor.completedSteps m0))
    as Hinit.
  { intros id r Hr. simpl in Hr. by rewrite lookup_empty in Hr. }
  destruct (FlowExecutor.parallel options).
  - destruct (executeParallel_total now options (now 0%nat) sched
                (wf_steps workflow) m0) as [[c m'] Hrun].
    rewrite Hrun. eexists _, m'. split; [reflexivity|].
    cbn [stepResults].
    unfold FlowExecutor.executeParallel in Hrun.
    destruct (FlowExecutor.parallelLoop _ _ _ _ _ _ _)
      as [[c0 p']|] eqn:Hloop; [|done].
    injection Hrun as <- <-.
    apply (parallelLoop_inv now options (now 0%nat) sched
             (wf_steps workflow) (parResults (wf_steps workflow)))
      in Hloop as [Hres _]; [done| | | |].
    + intros. by eapply parResults_start.
    + intros. by apply parResults_settle.
    + by intros ? [].
    + split; simpl; [done|by intros e ?%elem_of_nil].
  - destruct (FlowExecutor.executeSequential _ _ _ _ _) as [c m'] eqn:Hrun.
    eexists _, m'. split; [reflexivity|]. cbn [stepResults].
    by eapply executeSequential_resultsOf.
Qed.

(** ** Parallel mode: every id is handled once *)

Section ParallelOnce.
Import FlowExecutor.
Variable now : nat → Z.
Variable options : Options.
Variable startTime : Z.
Variable sched : nat → list string → list string.
Variable steps : list WorkflowStep.

Local Abbreviation startStep := (startStep now options startTime steps).
Local Abbreviation onSettled := (onSettled now options).
Local Abbreviation settleOne := (settleOne now options).
Local Abbreviation awaitRace := (awaitRace now options sched).

Lemma NoDup_list_filter {A} (f : A → bool) (l : list A) :
  NoDup l → NoDup (List.filter f l).
Proof.
  induction 1 as [|x l Hx _ IH]; simpl; [constructor|].
  destruct (f x); [|done]. constructor; [|done].
  intros Hin. apply Hx. apply list_elem_of_In in Hin.
  apply filter_In in Hin as [Hin _]. by apply list_elem_of_In.
Qed.

Lemma NoDup_dedup seen ids : NoDup (dedup seen ids).
Proof.
  revert seen. induction ids as [|x ids IH]; intros seen; simpl;
    [constructor|].
  destruct (bool_decide (x ∈ seen)); [apply IH|].
  constructor; [|apply IH]. rewrite elem_of_dedup.
  intros [_ Hx]. apply Hx, elem_of_union. left. by apply elem_of_singleton.
Qed.

Lemma startedIds_snoc_started log x :
  startedIds (log ++ [Started x]) = startedIds log ++ [x].
Proof. unfold startedIds. by rewrite omap_app. Qed.

Lemma startedIds_snoc_recorded log x ok :
  startedIds (log ++ [Recorded x ok]) = startedIds log.
Proof. unfold startedIds. rewrite omap_app. simpl. by rewrite app_nil_r. Qed.

Lemma recordedIds_snoc_started log x :
  recordedIds (log ++ [Started x]) = recordedIds log.
Proof. unfold recordedIds. rewrite omap_app. simpl. by rewrite app_nil_r. Qed.

Lemma recordedIds_snoc_recorded log x ok :
  recordedIds (log ++ [Recorded x ok]) = recordedIds log ++ [x].
Proof. unfold recordedIds. by rewrite omap_app. Qed.

Lemma startedIds_lookup log x :
  x ∈ startedIds log → ∃ i, log !! i = Some (Started x).
Proof.
  unfold startedIds. intros Hin. apply list_elem_of_omap in Hin
    as (ev & Hev & Heq). destruct ev as [y|]; [|done].
  injection Heq as ->. by apply list_elem_of_lookup in Hev.
Qed.

Lemma recordsFollowStarts_snoc_started log x :
  recordsFollowStarts log → recordsFollowStarts (log ++ [Started x]).
Proof.
  intros H j y ok Hj.
  apply lookup_snoc_Some in Hj as [[Hlt Hj]|[_ ?]]; [|done].
  destruct (H j y ok Hj) as (i & Hi & Hs). exists i. split; [done|].
  by apply lookup_app_l_Some.
Qed.

Lemma recordsFollowStarts_snoc_recorded log x ok :
  recordsFollowStarts log → x ∈ startedIds log →
  recordsFollowStarts (log ++ [Recorded x ok]).
Proof.
  intros H Hx j y ok' Hj.
  apply lookup_snoc_Some in Hj as [[Hlt Hj]|[-> Heq]].
  - destruct (H j y ok' Hj) as (i & Hi & Hs). exists i. split; [done|].
    by apply lookup_app_l_Some.
  - injection Heq as <- <-. destruct (startedIds_lookup log x Hx) as [i Hi].
    exists i. split; [by eapply lookup_lt_Some|].
    by apply lookup_app_l_Some.
Qed.

Lemma parOnce_start p x step :
  parOnce p → x ∈ pending p → findStep steps x = Some step →
  parOnce (startStep p x).
Proof.
  intros [Hpend Hfl Hst Hrec Hord] Hx Hf.
  destruct (startStep_found now options startTime steps p x step Hf)
    as (promise & t' & _ & ->).
  apply NoDup_app in Hpend as (Hp1 & Hp2 & Hp3).
  apply NoDup_app in Hfl as (Hf1 & Hf2 & Hf3).
  assert (x ∉ startedIds (log (mach p))) as Hfresh by (by apply Hp2).
  split; simpl.
  - rewrite startedIds_snoc_started. apply NoDup_app. split; [|split].
    + by apply NoDup_list_filter.
    + intros y [Hy Hne]%elem_of_filter_ne
             [Hin|Hin%list_elem_of_singleton]%elem_of_app; [|done].
      by apply (Hp2 y).
    + apply NoDup_app. split; [done|]. split; [|apply NoDup_singleton].
      intros y Hy ->%list_elem_of_singleton. done.
  - rewrite recordedIds_snoc_started, map_app. simpl.
    apply NoDup_app. split; [|split; [|done]].
    + apply NoDup_app. split; [done|]. split; [|apply NoDup_singleton].
      intros y Hy ->%list_elem_of_singleton. by apply Hfresh, Hst.
    + intros y [Hy|Hy%list_elem_of_singleton]%elem_of_app Hin.
      * by apply (Hf2 y).
      * subst y. by apply Hfresh, Hrec.
  - intros y. rewrite startedIds_snoc_started, map_app, !elem_of_app.
    simpl. intros [Hy|Hy]; [left; by apply Hst|by right].
  - intros y. rewrite recordedIds_snoc_started, startedIds_snoc_started,
      elem_of_app. intros Hy. left. by apply Hrec.
  - by apply recordsFollowStarts_snoc_started.
Qed.

Lemma parOnce_settle p e :
  parOnce p → e ∈ executing p → parOnce (onSettled e p).
Proof.
  intros [Hpend Hfl Hst Hrec Hord] Hin. unfold FlowExecutor.onSettled.
  destruct (settlePromise now (if_step e) (if_promise e) (ticks (mach p)))
    as [result t'].
  assert (if_id e ∈ map if_id (executing p)) as Hid.
  { apply list_elem_of_In, in_map. by apply list_elem_of_In. }
  apply NoDup_app in Hfl as (Hf1 & Hf2 & Hf3).
  split; simpl.
  - by rewrite startedIds_snoc_recorded.
  - rewrite recordedIds_snoc_recorded. apply NoDup_app. split; [|split].
    + clear -Hf1. induction (executing p) as [|a l IH]; [constructor|].
      simpl in *. apply NoDup_cons in Hf1 as [Ha Hl].
      destruct (negb _); simpl; [|by apply IH].
      constructor; [|by apply IH]. intros Hin. apply Ha.
      apply list_elem_of_In, in_map_iff in Hin as (b & Hb & Hin).
      apply filter_In in Hin as [Hin _].
      apply list_elem_of_In, in_map_iff. by exists b.
    + intros y [Hy Hne]%elem_of_inflight_filter
             [Hr|Hr%list_elem_of_singleton]%elem_of_app; [|done].
      by apply (Hf2 y).
    + apply NoDup_app. split; [done|]. split; [|apply NoDup_singleton].
      intros y Hy ->%list_elem_of_singleton. by apply (Hf2 (if_id e)).
  - intros y [Hy _]%elem_of_inflight_filter.
    rewrite startedIds_snoc_recorded. by apply Hst.
  - intros y. rewrite recordedIds_snoc_recorded, startedIds_snoc_recorded,
      elem_of_app. intros [Hy|Hy%list_elem_of_singleton]; [by apply Hrec|].
    subst y. by apply Hst.
  - apply recordsFollowStarts_snoc_recorded; [done|]. by apply Hst.
Qed.

Lemma startSteps_once ready p :
  NoDup ready →
  (∀ x, x ∈ ready → x ∈ pending p ∧ found steps x) →
  parOnce p → parOnce (fold_left startStep ready p).
Proof.
  intros Hnd. revert p. induction Hnd as [|x ready Hx Hnd IH];
    intros p Hready Hp; [done|].
  simpl. destruct (Hready x) as [Hpx [step Hf]]; [by left|].
  apply IH; [|by eapply parOnce_start].
  intros y Hy. destruct (Hready y) as [Hpy Hfy]; [by right|].
  split; [|done].
  destruct (startStep_found now options startTime steps p x step Hf)
    as (promise & t' & _ & ->). simpl.
  apply elem_of_filter_ne. split; [done|]. by intros ->.
Qed.

Lemma settleMany_once ids p :
  parOnce p → parOnce (fold_left settleOne ids p).
Proof.
  revert p. induction ids as [|x ids IH]; intros p Hp; [done|].
  simpl. apply IH. unfold FlowExecutor.settleOne.
  destruct (List.find _ (executing p)) as [e|] eqn:Hf; [|done].
  apply parOnce_settle; [done|]. apply find_some in Hf as [Hin _].
  by apply list_elem_of_In.
Qed.

Lemma parallelLoop_once fuel p c p' :
  parallelLoop now options startTime sched fuel steps p = Some (c, p') →
  parOnce p → parOnce p'.
Proof.
  revert p. induction fuel as [|fuel IH]; intros p Hrun Hp; [done|].
  simpl in Hrun.
  destruct (negb _); [by injection Hrun as <- <-|].
  set (ready := readySteps steps p) in *.
  set (p1 := fold_left startStep ready p) in *.
  assert (parOnce p1) as Hp1.
  { apply startSteps_once; [| |done].
    - apply NoDup_list_filter. destruct Hp as [Hpend _ _ _ _].
      by apply NoDup_app in Hpend as (? & _ & _).
    - intros x Hx. split.
      + apply list_elem_of_In, filter_In in Hx as [Hx _].
        by apply list_elem_of_In.
      + destruct (readySteps_met steps p x Hx) as (step & Hf & _).
        by exists step. }
  set (p2 := if (0 <? length (executing p1))%nat then awaitRace p1 else p1)
    in *.
  assert (parOnce p2) as Hp2.
  { unfold p2. destruct (0 <? length (executing p1))%nat; [|done].
    by apply settleMany_once. }
  destruct (_ && _); [by injection Hrun as <- <-|].
  apply (IH (nextRound p2)); [done|]. by destruct Hp2.
Qed.
(** Only ids found among the steps are started. *)
Lemma parallelLoop_started fuel p c p' :
  parallelLoop now options startTime sched fuel steps p = Some (c, p') →
  (∀ x, x ∈ startedIds (log (mach p)) → x ∈ stepIds steps) →
  ∀ x, x ∈ startedIds (log (mach p')) → x ∈ stepIds steps.
Proof.
  intros Hrun.
  refine (parallelLoop_inv now options startTime sched steps
            (fun q => ∀ x, x ∈ startedIds (log (mach q)) → x ∈ stepIds steps)
            _ _ _ fuel p c p' Hrun).
  - intros q x step Hq Hf _ y.
    destruct (startStep_found now options startTime steps q x step Hf)
      as (promise & t' & _ & ->). simpl.
    rewrite startedIds_snoc_started.
    intros [Hy|Hy%list_elem_of_singleton]%elem_of_app; [by apply Hq|].
    subst y. apply (findStep_Some steps) in Hf as [Hin <-].
    apply list_elem_of_fmap. by exists step.
  - intros q e Hq _ y. unfold FlowExecutor.onSettled.
    destruct (settlePromise _ _ _ _) as [result t'].
    simpl. rewrite startedIds_snoc_recorded. apply Hq.
  - by intros q Hq.
Qed.
End ParallelOnce.

(** X23. Parallel mode handles every step id once, for every clock and
    schedule: no id is started twice, no id is recorded twice, every
    record of a result comes after the start of that step, and only ids
    of steps of the workflow are started. *)
Theorem parallel_handles_every_id_once
    (now : nat → Z) (options : FlowExecutor.Options)
    (sched : nat → list string → list string) (workflow : Workflow) :
  FlowExecutor.parallel options = true →
  ∃ res m,
    FlowExecutor.execute now options sched workflow = Some (res, m)
    ∧ NoDup (startedIds (FlowExecutor.log m))
    ∧ NoDup (recordedIds (FlowExecutor.log m))
    ∧ recordsFollowStarts (FlowExecutor.log m)
    ∧ (∀ x, x ∈ recordedIds (FlowExecutor.log m) →
            x ∈ startedIds (FlowExecutor.log m))
    ∧ (∀ x, x ∈ startedIds (FlowExecutor.log m) →
            x ∈ stepIds (wf_steps workflow)).
Proof.
  intros Hpar. unfold FlowExecutor.execute. rewrite Hpar.
  set (m0 := FlowExecutor.mkMachine ∅ None 1 [] []).
  destruct (executeParallel_total now options (now 0%nat) sched
              (wf_steps workflow) m0) as [[c m'] Hrun].
  rewrite Hrun. eexists _, m'. split; [reflexivity|].
  unfold FlowExecutor.executeParallel in Hrun.
  destruct (FlowExecutor.parallelLoop _ _ _ _ _ _ _)
    as [[c0 p']|] eqn:Hloop; [|done].
  injection Hrun as <- <-.
  pose proof Hloop as Hstarted.
  apply parallelLoop_once in Hloop as [Hpend Hfl Hst Hrec Hord].
  - apply NoDup_app in Hpend as (_ & _ & Hs).
    apply NoDup_app in Hfl as (_ & _ & Hr).
    repeat split; try done.
    apply (parallelLoop_started _ _ _ _ _ _ _ _ _ Hstarted).
    by intros x ?%elem_of_nil.
  - split; simpl; try (by intros ? ?%elem_of_nil).
    + rewrite app_nil_r. apply NoDup_dedup.
    + constructor.
    + intros j x ok Hj. by destruct j.
Qed.

Lemma parallel_handles_every_id_once_witness :
  ∃ res m,
    FlowExecutor.execute (fun _ => 0)
      (FlowExecutor.new
         (FlowExecutor.mkExecutionOptions None None None (Some true)))
      (fun _ inflight => rev inflight)
      (mkWorkflow "w" "W" None
         [mkStep "a" "analysis" "A" None [];
          mkStep "a" "fix" "again" None [];
          mkStep "b" "test" "B" None ["a"]]) = Some (res, m)
    ∧ startedIds (FlowExecutor.log m) = ["a"; "b"].
Proof.
  destruct (parallel_handles_every_id_once (fun _ => 0)
              (FlowExecutor.new
                 (FlowExecutor.mkExecutionOptions None None None (Some true)))
              (fun _ inflight => rev inflight)
              (mkWorkflow "w" "W" None
                 [mkStep "a" "analysis" "A" None [];
                  mkStep "a" "fix" "again" None [];
                  mkStep "b" "test" "B" None ["a"]]) eq_refl)
    as (res & m & Hrun & _).
  exists res, m. split; [exact Hrun|].
  vm_compute in Hrun. injection Hrun as <- <-. reflexivity.
Defined.

(** ** Sequential mode: where a fail-fast run stops *)

Section SequentialFailFast.
Import FlowExecutor.
Variable now : nat → Z.
Variable options : Options.
Variable startTime : Z.
Hypothesis fail_fast : continueOnError options = false.

End SequentialFailFast.


